(** * Refinement check between a program and a projection

    Shallow embedding of [rfccc/nodes/choreography/refinement.py]
    (class [Refinement]) and the properties of its control-flow
    automaton builder and of its greatest-fixpoint loop. *)

From Stdlib Require Import Ascii String NArith.
From stdpp Require Import base numbers list strings pretty gmap sets fin_sets sorting.

Set Warnings "-register-all".
Local Open Scope string_scope.

(** ** Python strings

    A name is kept as the bytes of its UTF-8 encoding: the encoding is
    injective and takes [+] to [++], so [==] on names is equality of
    the encodings. *)

Module PyStr.

(** [c.lower()] for one ASCII character: the 26 capital letters are
    moved to the small ones, every other character is kept. *)
Definition lower_ascii (c : ascii) : ascii :=
  let n := N_of_ascii c in
  if ((65 <=? n) && (n <=? 90))%N then ascii_of_N (n + 32) else c.

(** [s.lower()] for an ASCII text [s]. *)
Fixpoint lower (s : string) : string :=
  match s with
  | EmptyString => EmptyString
  | String c s' => String (lower_ascii c) (lower s')
  end.

(** [s.isascii()]: every character is below 128. *)
Fixpoint isascii (s : string) : bool :=
  match s with
  | EmptyString => true
  | String c s' => (N_of_ascii c <? 128)%N && isascii s'
  end.

End PyStr.

(** [str.lower()] follows the case mappings of the Unicode character
    database, which are not reproduced here; the methods use it through
    this interface.  On ASCII text it is [PyStr.lower].  It maps one
    character at a time, but for the capital sigma, whose image depends
    on the cased letters around it; the underscore is neither cased nor
    skipped by that rule, so nothing after ["m_"] or ["msg_"] changes
    the image of the prefix and the prefix changes the image of nothing
    after it. *)
Class Str : Type := {
  lower : string → string;
  lower_isascii s : PyStr.isascii s = true → lower s = PyStr.lower s;
  lower_m_ s : lower ("m_" ++ s) = "m_" ++ lower s;
  lower_msg_ s : lower ("msg_" ++ s) = "msg_" ++ lower s
}.

(** ** Name conventions ([sameMpName], [sameMsgName])

    Neither method reads [self]; they are functions of the two names. *)

Definition sameMpName `{Str} (n1 n2 : string) : bool :=
  let l1 := lower n1 in
  let l2 := lower n2 in
  bool_decide (l1 = l2) || bool_decide (l1 = "m_" ++ l2).

Definition sameMsgName `{Str} (n1 n2 : string) : bool :=
  let l1 := lower n1 in
  let l2 := lower n2 in
  bool_decide (l1 = l2) || bool_decide (l1 = "msg_" ++ l2).

Local Close Scope string_scope.

(** ** Exceptions and results

    A Python call either returns a value or raises. *)

Inductive exn : Type :=
| KeyError              (* d[k] with k not a key of d *)
| IndexError            (* xs[0] on an empty list *)
| AttributeError        (* a field read on a node kind that lacks it *)
| NameError             (* a name bound nowhere in the module *)
| TypeError (operand : string)
    (* s + x for a string s and an x of class [operand] that is no string:
       can only concatenate str (not "operand") to str *)
| Exception (message : string).  (* raise Exception(message) *)

Inductive result (A : Type) : Type :=
| Ok (a : A)
| Raise (e : exn).
Arguments Ok {A} a.
Arguments Raise {A} e.

Definition rbind {A B} (m : result A) (f : A → result B) : result B :=
  match m with
  | Ok a => f a
  | Raise e => Raise e
  end.

Notation "'let!' x ':=' m 'in' k" := (rbind m (λ x, k))
  (at level 10, x pattern, m at level 100, k at level 200, only parsing).

Definition is_verdict {A} (r : result A) : Prop :=
  match r with Ok _ => True | _ => False end.

(** [s + x] for a string [s]: the concatenation when [x] is a string;
    an object of another class without [__radd__] (a set, a node of the
    program) makes the addition raise. *)
Inductive operand : Type :=
| a_str (t : string)
| an_object (cls : string).

Definition str_add (s : string) (x : operand) : result string :=
  match x with
  | a_str t => Ok (s +:+ t)
  | an_object cls => Raise (TypeError cls)
  end.

(** ** Conditions and the decision procedure

    Guards are sympy expressions; the engine only compares them with
    [==], negates and conjoins them, and hands them to the verification
    condition [VC("implication", [f]).discharge()].  [discharge] is the
    answer of a call that returns: a solver that fails raises through
    [implies], which catches nothing, and such runs are outside the
    model; the results that need no answer from the solver say so. *)

Class Sympy : Type := {
  Cond : Type;
  Cond_eq_dec :: EqDecision Cond;
  Cond_countable :: Countable Cond;
  S_true : Cond;
  Not : Cond → Cond;
  And : Cond → Cond → Cond;
  simplify : Cond → Cond;
  discharge : Cond → bool;
}.

(** ** Program syntax trees ([ast_inter]) *)

Module ast_inter.

Inductive Node `{Sympy} : Type :=
| Statement (label : nat) (children : list Node)
| Receive (label : nat) (motion : Node) (actions : list Node)
| Action (label : nat) (str_msg_type : string) (program : Node)
| If (label : nat) (if_list : list Node)
| IfComponent (label : nat) (condition : Cond) (program : Node)
| While (label : nat) (condition : Cond) (program : Node)
| Motion (label : nat) (value : string)
| Assign (label : nat)
| Send (label : nat) (comp : string) (msg_type : string)
| Print (label : nat)
| Skip (label : nat)
| Exit (label : nat).

Definition get_label `{Sympy} (n : Node) : nat :=
  match n with
  | Statement l _ | Receive l _ _ | Action l _ _ | If l _
  | IfComponent l _ _ | While l _ _ | Motion l _ | Assign l
  | Send l _ _ | Print l | Skip l | Exit l => l
  end.

(** [ifComp.condition] and [ifComp.program]: only an [IfComponent] has
    them among the elements an [if_list] can hold. *)
Definition condition_of `{Sympy} (n : Node) : result Cond :=
  match n with
  | IfComponent _ c _ | While _ c _ => Ok c
  | _ => Raise AttributeError
  end.

Definition program_of `{Sympy} (n : Node) : result Node :=
  match n with
  | IfComponent _ _ p | While _ _ p | Action _ _ p => Ok p
  | _ => Raise AttributeError
  end.

End ast_inter.

(** ** Projection nodes ([ast_proj]) *)

Module ast_proj.

Inductive Node `{Sympy} : Type :=
| Motion (motions : list string) (end_state : list nat)
| SendMessage (receiver : string) (msg_type : string) (end_state : list nat)
| ReceiveMessage (msg_type : string) (end_state : list nat)
| GuardedChoice (guarded_states : list (Cond * nat))
| ExternalChoice (end_state : list nat)
| End.

Definition is_End `{Sympy} (n : Node) : bool :=
  match n with End => true | _ => false end.

End ast_proj.

Record Projection `{Sympy} : Type := {
  start_state : nat;
  mk_state_to_node : gmap nat ast_proj.Node;
}.

(** ** The instance state

    [Refinement] holds the fields that are assigned in [__init__] and
    only read afterwards; [Store] holds the two dictionaries that the
    methods update in place.  [trace] is instrumentation: the calls of
    [compatible] and the removals of [check] (what [debug] prints) and
    the calls of [nextStatement], the newest first. *)

Inductive Event : Type :=
| EvCompatible (l s : nat)
| EvNotCompatible (l s : nat)
| EvNextStatement (l : nat).

Record Refinement `{Sympy} : Type := {
  program : ast_inter.Node;
  projection : Projection;
  state_to_node : gmap nat ast_proj.Node;
  programLabels : gmap nat ast_inter.Node;
  initLabel : nat;
  nextLabel : gmap nat (gset nat);
}.

Record Store `{Sympy} : Type := {
  compat : gmap nat (gset nat);
  cachedImplication : gmap (Cond * Cond) bool;
  trace : list Event;
}.

Definition set_compat `{Sympy} (c : gmap nat (gset nat)) (σ : Store) : Store :=
  {| compat := c; cachedImplication := cachedImplication σ; trace := trace σ |}.

Definition set_cache `{Sympy} (k : gmap (Cond * Cond) bool) (σ : Store) : Store :=
  {| compat := compat σ; cachedImplication := k; trace := trace σ |}.

Definition push_event `{Sympy} (e : Event) (σ : Store) : Store :=
  {| compat := compat σ; cachedImplication := cachedImplication σ;
     trace := e :: trace σ |}.

(** The state-and-exception monad of the methods. *)

Definition M `{Sympy} (A : Type) : Type := Store → Store * result A.

Definition ret `{Sympy} {A} (a : A) : M A := λ σ, (σ, Ok a).

Definition raise `{Sympy} {A} (e : exn) : M A := λ σ, (σ, Raise e).

Definition bind `{Sympy} {A B} (m : M A) (f : A → M B) : M B := λ σ,
  match m σ with
  | (σ', Ok a) => f a σ'
  | (σ', Raise e) => (σ', Raise e)
  end.

Definition lift `{Sympy} {A} (r : result A) : M A := λ σ, (σ, r).

Definition log `{Sympy} (e : Event) : M unit := λ σ, (push_event e σ, Ok tt).

Notation "'let*' x ':=' m 'in' k" := (bind m (λ x, k))
  (at level 10, x pattern, m at level 100, k at level 200, only parsing).
Notation "m ';;' k" := (bind m (λ _, k))
  (at level 100, k at level 200, right associativity, only parsing).

(** [d[k]] on a dictionary and [xs[0]] on a list. *)

Definition getitem `{Countable K} {V} (d : gmap K V) (k : K) : result V :=
  match d !! k with
  | Some v => Ok v
  | None => Raise KeyError
  end.

Definition first {A} (xs : list A) : result A :=
  match xs with
  | x :: _ => Ok x
  | [] => Raise IndexError
  end.

(** [any(f(x) for x in xs)] and [all(f(x) for x in xs)]: the generator is
    consumed up to the first decisive element. *)

Fixpoint any `{Sympy} {A} (f : A → M bool) (xs : list A) : M bool :=
  match xs with
  | [] => ret false
  | x :: xs' => let* b := f x in if b then ret true else any f xs'
  end.

Fixpoint all `{Sympy} {A} (f : A → M bool) (xs : list A) : M bool :=
  match xs with
  | [] => ret true
  | x :: xs' => let* b := f x in if b then all f xs' else ret false
  end.

(** ** Iteration order of a Python [set]

    The language leaves the order in which a set is visited open.  It is
    a parameter of the embedding: any enumeration of the members, each
    once. *)

Record SetOrder : Type := {
  iter : gset nat → list nat;
  iter_perm : ∀ X, iter X ≡ₚ elements X;
}.

(** ** Construction of the control-flow automaton ([buildCFA]) *)

Section cfa.
Context {names : Str} `{Sympy}.

(** [for ls in lastLabels: self.nextLabel[ls].add(l)].  Each visit adds
    [l] to the entry of another label, so the order of the visits does
    not show in the result. *)
Fixpoint add_edges (lastLabels : list nat) (l : nat)
    (nl : gmap nat (gset nat)) : result (gmap nat (gset nat)) :=
  match lastLabels with
  | [] => Ok nl
  | ls :: rest =>
      let! n := getitem nl ls in
      add_edges rest l (<[ls := n ∪ {[l]}]> nl)
  end.

(** [buildCFA] threads the dictionary [self.nextLabel] and returns the
    exit labels.  The lists and sets of labels it returns are only ever
    iterated to add edges, so they are sets here. *)
Fixpoint buildCFA (lastLabels : gset nat) (statment : ast_inter.Node)
    (nl : gmap nat (gset nat)) {struct statment}
    : result (gmap nat (gset nat) * gset nat) :=
  let l := ast_inter.get_label statment in
  let! nl := add_edges (elements lastLabels) l nl in
  let lastLabel : gset nat := {[l]} in
  match statment with
  | ast_inter.Statement _ children =>
      (fix children_loop (cs : list ast_inter.Node) (lastLabel : gset nat)
           (nl : gmap nat (gset nat)) :=
         match cs with
         | [] => Ok (nl, lastLabel)
         | c :: cs' =>
             let! (nl', lastLabel') := buildCFA lastLabel c nl in
             children_loop cs' lastLabel' nl'
         end) children lastLabel nl
  | ast_inter.Receive _ motion actions =>
      let! (nl, ls2) := buildCFA lastLabel motion nl in
      let! nl := add_edges (elements ls2) l nl in
      (fix actions_loop (acts : list ast_inter.Node) (acc : gset nat)
           (nl : gmap nat (gset nat)) :=
         match acts with
         | [] => Ok (nl, acc)
         | i :: acts' =>
             let! (nl', ls) := buildCFA lastLabel i nl in
             actions_loop acts' (acc ∪ ls) nl'
         end) actions ∅ nl
  | ast_inter.Action _ _ program => buildCFA lastLabel program nl
  | ast_inter.If _ if_list =>
      (fix if_loop (comps : list ast_inter.Node) (acc : gset nat)
           (nl : gmap nat (gset nat)) :=
         match comps with
         | [] => Ok (nl, acc)
         | i :: comps' =>
             let! (nl', ls) := buildCFA lastLabel i nl in
             if_loop comps' (acc ∪ ls) nl'
         end) if_list ∅ nl
  | ast_inter.IfComponent _ _ program => buildCFA lastLabel program nl
  | ast_inter.While _ _ program =>
      let! (nl, ls2) := buildCFA ∅ program nl in
      let! nl := add_edges (elements ls2) l nl in
      Ok (nl, lastLabel)
  | _ => Ok (nl, lastLabel)
  end.

(** [{ l for i in nodes for l in self.buildCFA(lastLabel, i) }], the
    comprehension of the [Receive] and [If] cases, with the union built
    so far in [acc]. *)
Fixpoint build_each (lastLabel : gset nat) (nodes : list ast_inter.Node)
    (acc : gset nat) (nl : gmap nat (gset nat))
    : result (gmap nat (gset nat) * gset nat) :=
  match nodes with
  | [] => Ok (nl, acc)
  | i :: nodes' =>
      let! (nl', ls) := buildCFA lastLabel i nl in
      build_each lastLabel nodes' (acc ∪ ls) nl'
  end.

(** [for i in range(0, len(statment.children))], the loop of the
    [Statement] case. *)
Fixpoint build_children (children : list ast_inter.Node) (lastLabel : gset nat)
    (nl : gmap nat (gset nat)) : result (gmap nat (gset nat) * gset nat) :=
  match children with
  | [] => Ok (nl, lastLabel)
  | c :: children' =>
      let! (nl', lastLabel') := buildCFA lastLabel c nl in
      build_children children' lastLabel' nl'
  end.

(** The [Receive] case as the specification words it: the motion is
    entered from the incoming predecessors. *)
Definition Receive_as_specified (lastLabels : gset nat) (l : nat)
    (motion : ast_inter.Node) (actions : list ast_inter.Node)
    (nl : gmap nat (gset nat)) : result (gmap nat (gset nat) * gset nat) :=
  let! nl := add_edges (elements lastLabels) l nl in
  let! (nl, ls2) := buildCFA lastLabels motion nl in
  let! nl := add_edges (elements ls2) l nl in
  build_each {[l]} actions ∅ nl.

(** Modelled from the spec: [label_as_root], the root-labelling pass of
    [ast_inter], is not part of the sources at hand.  Each node carries
    one label; the table maps the label of every node of the tree to that
    node. *)
Fixpoint label_as_root_aux (n : ast_inter.Node)
    (acc : gmap nat ast_inter.Node) {struct n} : gmap nat ast_inter.Node :=
  let acc := <[ast_inter.get_label n := n]> acc in
  let many :=
    fix many (cs : list ast_inter.Node) (acc : gmap nat ast_inter.Node) :=
      match cs with
      | [] => acc
      | c :: cs' => many cs' (label_as_root_aux c acc)
      end in
  match n with
  | ast_inter.Statement _ children => many children acc
  | ast_inter.Receive _ motion actions =>
      many actions (label_as_root_aux motion acc)
  | ast_inter.Action _ _ program => label_as_root_aux program acc
  | ast_inter.If _ if_list => many if_list acc
  | ast_inter.IfComponent _ _ program => label_as_root_aux program acc
  | ast_inter.While _ _ program => label_as_root_aux program acc
  | _ => acc
  end.

Definition label_as_root (n : ast_inter.Node) : gmap nat ast_inter.Node :=
  label_as_root_aux n ∅.

(** [Refinement.__init__]: the label table is the argument [labels]
    (what [program.label_as_root()] returned). *)
Definition init_with (program : ast_inter.Node)
    (labels : gmap nat ast_inter.Node) (projection : Projection)
    : result Refinement :=
  let nextLabel : gmap nat (gset nat) := (λ _, ∅) <$> labels in
  let! (nextLabel, _) := buildCFA ∅ program nextLabel in
  Ok {| program := program;
        projection := projection;
        state_to_node := mk_state_to_node projection;
        programLabels := labels;
        initLabel := ast_inter.get_label program;
        nextLabel := nextLabel |}.

Definition __init__ (program : ast_inter.Node) (projection : Projection)
    : result Refinement :=
  init_with program (label_as_root program) projection.

(** The dictionaries of a fresh instance. *)
Definition fresh : Store :=
  {| compat := ∅; cachedImplication := ∅; trace := [] |}.

End cfa.

(** ** The methods of [Refinement] *)

Section methods.
Context {names : Str} `{Sympy} (ord : SetOrder) (self : Refinement).

Definition implies (cond1 cond2 : Cond) : M bool := λ σ,
  match cachedImplication σ !! (cond1, cond2) with
  | Some res => (σ, Ok res)
  | None =>
      let f := simplify (And cond1 (Not cond2)) in
      let res := discharge f in
      (set_cache (<[(cond1, cond2) := res]> (cachedImplication σ)) σ, Ok res)
  end.

Definition _refines (statment : option nat) (node : nat) : M bool := λ σ,
  match statment with
  | None =>
      (σ, let! n := getitem (state_to_node self) node in Ok (ast_proj.is_End n))
  | Some l =>
      (σ, let! c := getitem (compat σ) l in Ok (bool_decide (node ∈ c)))
  end.

(** Line 88 builds the message of its exception from the left: the
    first addition is of the string with the set [n], and raises; the
    conversion of the label and the [raise] come after it. *)
Definition nextStatement (statment : nat) : M (option nat) :=
  log (EvNextStatement statment);;
  let* n := lift (getitem (nextLabel self) statment) in
  if decide (size n = 0) then ret None
  else if decide (1 < size n) then
    let* message := lift (str_add "ambiguous successors: " (an_object "set")) in
    raise (Exception (message +:+ " for " +:+ pretty statment))
  else ret (head (iter ord n)).

(** [mode.guarded_states], line 139: no assignment, parameter or import
    of the module binds the name [mode]. *)
Definition mode_guarded_states : M (list (Cond * nat)) := raise NameError.

(** [[case.program for case in if_list if case.condition == S.true]] *)
Fixpoint trivial_cases (cases : list ast_inter.Node)
    : result (list ast_inter.Node) :=
  match cases with
  | [] => Ok []
  | case :: cases' =>
      let! c := ast_inter.condition_of case in
      if decide (c = S_true) then
        let! p := ast_inter.program_of case in
        let! ps := trivial_cases cases' in
        Ok (p :: ps)
      else trivial_cases cases'
  end.

Definition compatible (statmentL nodeL : nat) : M bool :=
  log (EvCompatible statmentL nodeL);;
  let* statment := lift (getitem (programLabels self) statmentL) in
  let* node := lift (getitem (state_to_node self) nodeL) in
  match statment with
  | ast_inter.Motion _ value =>
      match node with
      | ast_proj.Motion motions end_state =>
          let* mp_name := lift (first motions) in
          if sameMpName value mp_name then
            let* nxt := nextStatement statmentL in
            let* e := lift (first end_state) in
            _refines nxt e
          else ret false
      | _ => ret false
      end
  | ast_inter.Assign _ =>
      let* nxt := nextStatement statmentL in _refines nxt nodeL
  | ast_inter.While _ condition program =>
      if decide (condition = S_true) then
        _refines (Some (ast_inter.get_label program)) nodeL
      else
        match node with
        | ast_proj.GuardedChoice guarded_states =>
            let* enter :=
              any (λ gs : Cond * nat,
                     let* i := implies condition gs.1 in
                     if i then _refines (Some (ast_inter.get_label program)) gs.2
                     else ret false) guarded_states in
            if enter then
              let* leave :=
                any (λ gs : Cond * nat,
                       let* i := implies (Not condition) gs.1 in
                       if i then
                         let* nxt := nextStatement statmentL in
                         _refines nxt gs.2
                       else ret false) guarded_states in
              if leave then ret true else ret false
            else ret false
        | _ => ret false
        end
  | ast_inter.If _ if_list =>
      match node with
      | ast_proj.GuardedChoice _ =>
          (fix for_ifComp (comps : list ast_inter.Node) : M bool :=
             match comps with
             | [] => ret true
             | ifComp :: comps' =>
                 let* found :=
                   (let* guarded_states := mode_guarded_states in
                    any (λ gs : Cond * nat,
                           let* c := lift (ast_inter.condition_of ifComp) in
                           let* i := implies c gs.1 in
                           if i then
                             let* p := lift (ast_inter.program_of ifComp) in
                             _refines (Some (ast_inter.get_label p)) gs.2
                           else ret false) guarded_states) in
                 if found then for_ifComp comps' else ret false
             end) if_list
      | _ =>
          let* trivial := lift (trivial_cases if_list) in
          any (λ s, _refines (Some (ast_inter.get_label s)) nodeL) trivial
      end
  | ast_inter.Send _ comp msg_type =>
      match node with
      | ast_proj.SendMessage receiver node_msg_type end_state =>
          if decide (comp = receiver) then
            if sameMsgName msg_type node_msg_type then
              let* nxt := nextStatement statmentL in
              let* e := lift (first end_state) in
              _refines nxt e
            else ret false
          else ret false
      | _ => ret false
      end
  | ast_inter.Receive _ motion actions =>
      match node with
      | ast_proj.ReceiveMessage _ _ =>
          any (λ rs, _refines (Some (ast_inter.get_label rs)) nodeL) actions
      | ast_proj.Motion _ _ =>
          _refines (Some (ast_inter.get_label motion)) nodeL
      | ast_proj.ExternalChoice end_state =>
          let findOne (ns : nat) : M bool :=
            let* m := _refines (Some (ast_inter.get_label motion)) ns in
            if m then ret true
            else any (λ r, _refines (Some (ast_inter.get_label r)) ns) actions in
          all findOne end_state
      | _ => ret false
      end
  | ast_inter.Action _ str_msg_type _ =>
      match node with
      | ast_proj.ReceiveMessage node_msg_type end_state =>
          if decide (str_msg_type = node_msg_type) then
            let* nxt := nextStatement statmentL in
            let* e := lift (first end_state) in
            _refines nxt e
          else ret false
      | _ => ret false
      end
  | ast_inter.Print _ | ast_inter.Skip _ | ast_inter.Statement _ _ =>
      let* nxt := nextStatement statmentL in _refines nxt nodeL
  | ast_inter.Exit _ => ret (ast_proj.is_End node)
  | ast_inter.IfComponent _ _ _ =>
      let* message := lift (str_add "unexpected: " (an_object "IfComponent")) in
      raise (Exception message)
  end.

(** [self.compat[l].discard(s)] *)
Definition discard (l s : nat) : M unit := λ σ,
  match compat σ !! l with
  | Some c => (set_compat (<[l := c ∖ {[s]}]> (compat σ)) σ, Ok tt)
  | None => (σ, Raise KeyError)
  end.

(** [for s in copy(self.compat[l])]: the copy is the list [states]. *)
Fixpoint for_states (l : nat) (states : list nat) (changed : bool) : M bool :=
  match states with
  | [] => ret changed
  | s :: states' =>
      let* ok := compatible l s in
      if ok then for_states l states' changed
      else
        log (EvNotCompatible l s);;
        discard l s;;
        for_states l states' true
  end.

(** [for l in allLabels] *)
Fixpoint for_labels (labels : list nat) (changed : bool) : M bool :=
  match labels with
  | [] => ret changed
  | l :: labels' =>
      let* c := (λ σ, (σ, getitem (compat σ) l)) in
      let* changed := for_states l (iter ord c) changed in
      for_labels labels' changed
  end.

(** One pass: the body of [while changed] after [changed = False]. *)
Definition pass (allLabels : gset nat) : M bool :=
  for_labels (iter ord allLabels) false.

(** [while changed]: one unit of [fuel] per pass.  [None] is not a
    Python outcome: it is what the embedding answers when the budget of
    passes is spent (shown below never to happen for [check]). *)
Fixpoint while_changed (fuel : nat) (allLabels : gset nat) (σ : Store)
    : option (Store * result unit) :=
  match fuel with
  | 0 => None
  | S fuel' =>
      match pass allLabels σ with
      | (σ', Ok changed) =>
          if changed then while_changed fuel' allLabels σ'
          else Some (σ', Ok tt)
      | (σ', Raise e) => Some (σ', Raise e)
      end
  end.

Definition universal (allLabels allState : gset nat) : gmap nat (gset nat) :=
  gset_to_gmap allState allLabels.

(** [return self.projection.start_state in self.compat[...]] *)
Definition verdict : M bool :=
  let* c := (λ σ, (σ, getitem (compat σ) (ast_inter.get_label (program self)))) in
  ret (bool_decide (start_state (projection self) ∈ c)).

Definition check_fuel (fuel : nat) (σ : Store) : option (Store * result bool) :=
  let allLabels := dom (programLabels self) in
  let allState := dom (state_to_node self) in
  let σ := set_compat (universal allLabels allState) σ in
  match while_changed fuel allLabels σ with
  | None => None
  | Some (σ', Ok _) => Some (verdict σ')
  | Some (σ', Raise e) => Some (σ', Raise e)
  end.

(** A pass that changes something removes a pair, and there are
    [|L| * |S|] pairs to begin with: this budget is never spent. *)
Definition budget : nat :=
  S (size (dom (programLabels self)) * size (dom (state_to_node self))).

Definition check (σ : Store) : option (Store * result bool) :=
  check_fuel budget σ.

End methods.

(** ** What a store answers

    [imp σ] is the answer [implies] gives in store [σ]: the cached one
    when the pair is cached, the decision procedure's otherwise.
    [compatible_on] is [compatible] read as a function of these answers
    and of the relation [compat]; it is related to [compatible] by
    [compatible_sim] below and serves the proofs only. *)

Section views.
Context {names : Str} `{Sympy} (ord : SetOrder) (self : Refinement).

Definition imp (σ : Store) (cond1 cond2 : Cond) : bool :=
  match cachedImplication σ !! (cond1, cond2) with
  | Some res => res
  | None => discharge (simplify (And cond1 (Not cond2)))
  end.

Fixpoint rany {A} (f : A → result bool) (xs : list A) : result bool :=
  match xs with
  | [] => Ok false
  | x :: xs' => let! b := f x in if b then Ok true else rany f xs'
  end.

Fixpoint rall {A} (f : A → result bool) (xs : list A) : result bool :=
  match xs with
  | [] => Ok true
  | x :: xs' => let! b := f x in if b then rall f xs' else Ok false
  end.

Definition refines_on (C : gmap nat (gset nat)) (statment : option nat)
    (node : nat) : result bool :=
  match statment with
  | None => let! n := getitem (state_to_node self) node in Ok (ast_proj.is_End n)
  | Some l => let! c := getitem C l in Ok (bool_decide (node ∈ c))
  end.

Definition next_on (statment : nat) : result (option nat) :=
  let! n := getitem (nextLabel self) statment in
  if decide (size n = 0) then Ok None
  else if decide (1 < size n) then
    let! message := str_add "ambiguous successors: " (an_object "set") in
    Raise (Exception (message +:+ " for " +:+ pretty statment))
  else Ok (head (iter ord n)).

Definition compatible_on (I : Cond → Cond → bool) (C : gmap nat (gset nat))
    (statmentL nodeL : nat) : result bool :=
  let! statment := getitem (programLabels self) statmentL in
  let! node := getitem (state_to_node self) nodeL in
  match statment with
  | ast_inter.Motion _ value =>
      match node with
      | ast_proj.Motion motions end_state =>
          let! mp_name := first motions in
          if sameMpName value mp_name then
            let! nxt := next_on statmentL in
            let! e := first end_state in
            refines_on C nxt e
          else Ok false
      | _ => Ok false
      end
  | ast_inter.Assign _ =>
      let! nxt := next_on statmentL in refines_on C nxt nodeL
  | ast_inter.While _ condition program =>
      if decide (condition = S_true) then
        refines_on C (Some (ast_inter.get_label program)) nodeL
      else
        match node with
        | ast_proj.GuardedChoice guarded_states =>
            let! enter :=
              rany (λ gs : Cond * nat,
                      let! i := Ok (I condition gs.1) in
                      if i then refines_on C (Some (ast_inter.get_label program)) gs.2
                      else Ok false) guarded_states in
            if enter then
              let! leave :=
                rany (λ gs : Cond * nat,
                        let! i := Ok (I (Not condition) gs.1) in
                        if i then
                          let! nxt := next_on statmentL in
                          refines_on C nxt gs.2
                        else Ok false) guarded_states in
              if leave then Ok true else Ok false
            else Ok false
        | _ => Ok false
        end
  | ast_inter.If _ if_list =>
      match node with
      | ast_proj.GuardedChoice _ =>
          match if_list with
          | [] => Ok true
          | _ :: _ => Raise NameError
          end
      | _ =>
          let! trivial := trivial_cases if_list in
          rany (λ s, refines_on C (Some (ast_inter.get_label s)) nodeL) trivial
      end
  | ast_inter.Send _ comp msg_type =>
      match node with
      | ast_proj.SendMessage receiver node_msg_type end_state =>
          if decide (comp = receiver) then
            if sameMsgName msg_type node_msg_type then
              let! nxt := next_on statmentL in
              let! e := first end_state in
              refines_on C nxt e
            else Ok false
          else Ok false
      | _ => Ok false
      end
  | ast_inter.Receive _ motion actions =>
      match node with
      | ast_proj.ReceiveMessage _ _ =>
          rany (λ rs, refines_on C (Some (ast_inter.get_label rs)) nodeL) actions
      | ast_proj.Motion _ _ =>
          refines_on C (Some (ast_inter.get_label motion)) nodeL
      | ast_proj.ExternalChoice end_state =>
          rall (λ ns,
                  let! m := refines_on C (Some (ast_inter.get_label motion)) ns in
                  if m then Ok true
                  else rany (λ r, refines_on C (Some (ast_inter.get_label r)) ns)
                         actions) end_state
      | _ => Ok false
      end
  | ast_inter.Action _ str_msg_type _ =>
      match node with
      | ast_proj.ReceiveMessage node_msg_type end_state =>
          if decide (str_msg_type = node_msg_type) then
            let! nxt := next_on statmentL in
            let! e := first end_state in
            refines_on C nxt e
          else Ok false
      | _ => Ok false
      end
  | ast_inter.Print _ | ast_inter.Skip _ | ast_inter.Statement _ _ =>
      let! nxt := next_on statmentL in refines_on C nxt nodeL
  | ast_inter.Exit _ => Ok (ast_proj.is_End node)
  | ast_inter.IfComponent _ _ _ =>
      let! message := str_add "unexpected: " (an_object "IfComponent") in
      Raise (Exception message)
  end.

(** Counting in a trace. *)

Definition is_call (e : Event) : bool :=
  match e with EvCompatible _ _ => true | _ => false end.

Definition is_removal (e : Event) : bool :=
  match e with EvNotCompatible _ _ => true | _ => false end.

Definition evaluations (evs : list Event) : nat :=
  length (filter (λ e, is_call e = true) evs).

Definition removals (evs : list Event) : nat :=
  length (filter (λ e, is_removal e = true) evs).

(** The relation as a set of pairs: sizes and inclusion. *)

Definition weight (C : gmap nat (gset nat)) (labels : list nat) : nat :=
  sum_list_with (λ l, size (C !!! l)) labels.

Definition total (C : gmap nat (gset nat)) : nat :=
  weight C (elements (dom C)).

Definition below (C C' : gmap nat (gset nat)) : Prop :=
  ∀ l X, C !! l = Some X → ∃ X', C' !! l = Some X' ∧ X ⊆ X'.

(** [C] relates program labels to projection states. *)
Definition inside (C : gmap nat (gset nat)) : Prop :=
  dom C = dom (programLabels self) ∧
  ∀ l X, C !! l = Some X → X ⊆ dom (state_to_node self).

(** [compatible(l, s)] returns [True] when [self.compat] is [C]. *)
Definition holds (σ : Store) (C : gmap nat (gset nat)) (l s : nat) : Prop :=
  (compatible ord self l s (set_compat C σ)).2 = Ok true.

(** Every pair of [C] passes [compatible] read on [C] itself. *)
Definition closed (σ : Store) (C : gmap nat (gset nat)) : Prop :=
  ∀ l X s, C !! l = Some X → s ∈ X → holds σ C l s.

(** The greatest such relation between labels and states. *)
Definition greatest_closed (σ : Store) (C : gmap nat (gset nat)) : Prop :=
  inside C ∧ closed σ C ∧ ∀ R, inside R → closed σ R → below R C.

End views.

(** * Notions used in the statements and proofs *)

Section notions.
Context {names : Str} `{Sympy} (ord : SetOrder) (self : Refinement) (I : Cond → Cond → bool).

(** Events that are neither a call of [compatible] nor a removal. *)
Definition silent (evs : list Event) : Prop :=
  Forall (λ e, is_call e = false ∧ is_removal e = false) evs.

(** The store holds the relation [C] and answers [implies] as [I]. *)
Definition agrees (I : Cond → Cond → bool) (C : gmap nat (gset nat))
    (σ : Store) : Prop :=
  compat σ = C ∧ ∀ a b, imp σ a b = I a b.

(** [m] answers [p] in every store that agrees with [I] and [C], keeps
    the agreement, only adds to the cache and logs no call of
    [compatible] and no removal. *)
Definition sim {A} (I : Cond → Cond → bool) (C : gmap nat (gset nat))
    (m : M A) (p : result A) : Prop :=
  ∀ σ, agrees I C σ →
    ∃ σ' evs, m σ = (σ', p) ∧ agrees I C σ' ∧
      cachedImplication σ ⊆ cachedImplication σ' ∧
      trace σ' = evs ++ trace σ ∧ silent evs.

(** [p'] returns whenever [p] does, and [True] when [p] returns [True];
    [keeps] asks the latter only. *)
Definition steady (p p' : result bool) : Prop :=
  ∀ b, p = Ok b → ∃ b', p' = Ok b' ∧ (b = true → b' = true).

Definition keeps (p p' : result bool) : Prop := p = Ok true → p' = Ok true.

(** The store answers [implies] as [I]. *)
Definition answers (σ : Store) : Prop := ∀ a b, imp σ a b = I a b.

(** [closed], read on [compatible_on]. *)
Definition closed_on (R : gmap nat (gset nat)) : Prop :=
  ∀ l X s, R !! l = Some X → s ∈ X → compatible_on ord self I R l s = Ok true.

(** What every piece of the loop does to the store: the answers stay,
    the cache and the trace grow, the relation shrinks by as many pairs as
    removals are logged, and no pair of a closed relation is lost. *)
Record step (σ σ' : Store) (evs : list Event) : Prop := {
  step_answers : answers σ';
  step_cache : cachedImplication σ ⊆ cachedImplication σ';
  step_trace : trace σ' = evs ++ trace σ;
  step_below : below (compat σ') (compat σ);
  step_dom : dom (compat σ') = dom (compat σ);
  step_total : removals evs + total (compat σ') = total (compat σ);
  step_closed : ∀ R, closed_on R → below R (compat σ) → below R (compat σ');
}.

(** Two stores with the same answers and the same relation, and two
    outcomes that agree and leave such stores. *)
Definition alike (σa σb : Store) : Prop :=
  answers σa ∧ answers σb ∧ compat σa = compat σb.

Definition same_run {A} (ra rb : Store * result A) : Prop :=
  ra.2 = rb.2 ∧ alike ra.1 rb.1.

(** The node kinds for which [compatible] asks for the successor. *)
Definition calls_next (statment : ast_inter.Node) : bool :=
  match statment with
  | ast_inter.Motion _ _ | ast_inter.Assign _ | ast_inter.While _ _ _
  | ast_inter.Send _ _ _ | ast_inter.Action _ _ _ | ast_inter.Print _
  | ast_inter.Skip _ | ast_inter.Statement _ _ => true
  | _ => false
  end.

(** The label has more than one fallthrough successor. *)
Definition ambiguous (l : nat) : Prop :=
  ∃ n, nextLabel self !! l = Some n ∧ 1 < size n.

(** Every logged call of [nextStatement] is on a label satisfying [P]
    and makes the run raise when that label has several successors; and
    the run raises the [TypeError] of line 88 only after such a call. *)
Definition next_ok (P : nat → Prop) {A} (evs : list Event) (r : result A) : Prop :=
  (∀ l, EvNextStatement l ∈ evs →
     P l ∧ (ambiguous l → r = Raise (TypeError "set"))) ∧
  (r = Raise (TypeError "set") → ∃ l, EvNextStatement l ∈ evs ∧ ambiguous l).

(** [m] only adds to the trace, and what it adds satisfies [next_ok]. *)
Definition traced (P : nat → Prop) {A} (m : M A) : Prop :=
  ∀ σ, ∃ evs, trace (m σ).1 = evs ++ trace σ ∧ next_ok P evs (m σ).2.

Definition unambiguous {A} (r : result A) : Prop :=
  r ≠ Raise (TypeError "set").

(** The node at [l] is of a kind for which [compatible] asks for the
    successor. *)
Definition caller (l : nat) : Prop :=
  ∃ node, programLabels self !! l = Some node ∧ calls_next node = true.

End notions.

(** * Programs and projections of the examples *)

(** Sets visited in increasing order, as CPython visits a set of small
    integers. *)
Definition ascending_iter (X : gset nat) : list nat :=
  merge_sort Nat.le (elements X).

Definition ascending : SetOrder :=
  {| iter := ascending_iter;
     iter_perm := λ X, merge_sort_Permutation Nat.le (elements X) |}.

Arguments iter : simpl never.

(** Names in ASCII: [lower] is [PyStr.lower]. *)
#[local] Instance ascii_names : Str := {|
  lower := PyStr.lower;
  lower_isascii := λ s _, eq_refl;
  lower_m_ := λ s, eq_refl;
  lower_msg_ := λ s, eq_refl
|}.

(** Conditions over one Boolean unknown, given by their two truth
    values; the verification condition holds when its formula has no
    model. *)
#[local] Instance one_var : Sympy := {|
  Cond := bool * bool;
  Cond_eq_dec := _;
  Cond_countable := _;
  S_true := (true, true);
  Not := λ c, (negb c.1, negb c.2);
  And := λ c d, (c.1 && d.1, c.2 && d.2);
  simplify := λ c, c;
  discharge := λ f, bool_decide (f = (false, false));
|}.

(** The instance that [__init__] returns, when it returns one. *)
Definition no_refinement : Refinement :=
  {| program := ast_inter.Exit 0;
     projection := {| start_state := 0; mk_state_to_node := ∅ |};
     state_to_node := ∅; programLabels := ∅; initLabel := 0; nextLabel := ∅ |}.

Definition force (r : result Refinement) : Refinement :=
  match r with Ok x => x | Raise _ => no_refinement end.

(** The store in which the first pass of [check] starts. *)
Definition at_entry (self : Refinement) : Store :=
  set_compat (universal (dom (programLabels self)) (dom (state_to_node self)))
    fresh.

(** An [If] with one branch against a guarded choice. *)
Definition if_program : ast_inter.Node :=
  ast_inter.If 0 [ast_inter.IfComponent 1 S_true (ast_inter.Exit 2)].

Definition if_projection : Projection :=
  {| start_state := 0;
     mk_state_to_node :=
       {[ 0 := ast_proj.GuardedChoice [(S_true, 1)]; 1 := ast_proj.End ]} |}.

Definition if_refinement : Refinement := force (__init__ if_program if_projection).

(** The row of the table for [If] against [GuardedChoice], following the
    words of the specification. *)
Definition If_GuardedChoice_row (σ : Store) (branches choiceBranches : list (Cond * nat))
    : bool :=
  forallb (λ b : Cond * nat,
    existsb (λ g : Cond * nat,
      imp σ b.1 g.1 && bool_decide (g.2 ∈ compat σ !!! b.2)) choiceBranches)
    branches.

(** A node object used twice in a sequence: label 1 is followed by 2 and
    by 3. *)
Definition shared_program : ast_inter.Node :=
  ast_inter.Statement 0
    [ast_inter.Skip 1; ast_inter.Skip 2; ast_inter.Skip 1; ast_inter.Exit 3].

Definition end_projection : Projection :=
  {| start_state := 0; mk_state_to_node := {[ 0 := ast_proj.End ]} |}.

Definition shared_refinement : Refinement :=
  force (__init__ shared_program end_projection).

(** A receive with its motion and one action, and the projection it
    implements. *)
Definition receive_program : ast_inter.Node :=
  ast_inter.Statement 0
    [ast_inter.Receive 1 (ast_inter.Motion 2 "m_idle"%string)
       [ast_inter.Action 3 "ok"%string (ast_inter.Skip 4)];
     ast_inter.Exit 5].

Definition receive_projection : Projection :=
  {| start_state := 0;
     mk_state_to_node :=
       {[ 0 := ast_proj.ExternalChoice [1; 2];
          1 := ast_proj.Motion ["Idle"%string] [0];
          2 := ast_proj.ReceiveMessage "ok"%string [3];
          3 := ast_proj.End ]} |}.

Definition receive_refinement : Refinement :=
  force (__init__ receive_program receive_projection).

(** The properties listed as testable in the specification: a lone
    [Exit]; a send followed by [Exit]; a loop against a guarded choice. *)
Definition exit_program : ast_inter.Node := ast_inter.Exit 0.

Definition send_program : ast_inter.Node :=
  ast_inter.Statement 0
    [ast_inter.Send 1 "P"%string "Go"%string; ast_inter.Exit 2].

Definition send_projection (msg_type : string) : Projection :=
  {| start_state := 0;
     mk_state_to_node :=
       {[ 0 := ast_proj.SendMessage "P"%string msg_type [1];
          1 := ast_proj.End ]} |}.

(** The unknown [x] and its negation. *)
Definition x_holds : Cond := (false, true).

Definition x_fails : Cond := (true, false).

Definition loop_program : ast_inter.Node :=
  ast_inter.Statement 0
    [ast_inter.While 1 x_holds (ast_inter.Skip 2); ast_inter.Exit 3].

Definition loop_projection (g1 g2 : Cond) : Projection :=
  {| start_state := 0;
     mk_state_to_node :=
       {[ 0 := ast_proj.GuardedChoice [(g1, 0); (g2, 1)];
          1 := ast_proj.End ]} |}.

Definition verdict_of (program : ast_inter.Node) (projection : Projection)
    : option (result bool) :=
  snd <$> check ascending (force (__init__ program projection)) fresh.

(** The [Receive] of [receive_program], entered from the label 0 of the
    sequence around it, over the automaton without edges. *)
Definition receive_node : ast_inter.Node :=
  ast_inter.Receive 1 (ast_inter.Motion 2 "m_idle"%string)
    [ast_inter.Action 3 "ok"%string (ast_inter.Skip 4)].

Definition no_edges : gmap nat (gset nat) :=
  (λ _, ∅) <$> label_as_root receive_program.

(** A sequence of [n] skips, labelled in order, and a projection with
    one state that idles forever. *)
Definition chain `{Sympy} (n : nat) : ast_inter.Node :=
  ast_inter.Statement 0 (ast_inter.Skip <$> seq 1 n).

Definition idle_projection `{Sympy} : Projection :=
  {| start_state := 0;
     mk_state_to_node := {[ 0 := ast_proj.Motion ["idle"%string] [0] ]} |}.

(** The nodes that [compatible] passes through to their successor. *)
Definition passes `{Sympy} (statment : ast_inter.Node) : bool :=
  match statment with
  | ast_inter.Statement _ _ | ast_inter.Skip _ | ast_inter.Print _
  | ast_inter.Assign _ => true
  | _ => false
  end.

(** What the proofs use of the instance built from [chain n]: labels 0
    to [n], each passed through to the next one, the last without
    successor, and one state that is not [End]. *)
Record chain_like `{Sympy} (n : nat) (self : Refinement) : Prop := {
  chain_labels : dom (programLabels self) = set_seq 0 (S n);
  chain_nodes : ∀ i, i ≤ n →
    ∃ node, programLabels self !! i = Some node ∧ passes node = true;
  chain_next : ∀ i, i < n → nextLabel self !! i = Some {[S i]};
  chain_last : nextLabel self !! n = Some ∅;
  chain_states : dom (state_to_node self) = {[0]};
  chain_state :
    ∃ node, state_to_node self !! 0 = Some node ∧ ast_proj.is_End node = false;
}.

(** All labels up to [n] are related to nothing from [k] on, and to the
    state 0 before [k]. *)
Definition chain_shape (n k : nat) (C : gmap nat (gset nat)) : Prop :=
  ∀ i, i ≤ n → C !! i = Some (if decide (i < k) then {[0]} else ∅).

(** * Notions for the control-flow automaton *)

(** The nodes of a tree, the root first, and the labels they carry. *)
Fixpoint subtrees `{Sympy} (n : ast_inter.Node) : list ast_inter.Node :=
  n :: match n with
       | ast_inter.Statement _ children => children ≫= subtrees
       | ast_inter.Receive _ motion actions =>
           subtrees motion ++ (actions ≫= subtrees)
       | ast_inter.Action _ _ program => subtrees program
       | ast_inter.If _ if_list => if_list ≫= subtrees
       | ast_inter.IfComponent _ _ program => subtrees program
       | ast_inter.While _ _ program => subtrees program
       | _ => []
       end.

Definition labels `{Sympy} (n : ast_inter.Node) : list nat :=
  ast_inter.get_label <$> subtrees n.

Definition branching `{Sympy} (n : ast_inter.Node) : bool :=
  match n with
  | ast_inter.If _ _ | ast_inter.Receive _ _ _ => true
  | _ => false
  end.

(** [nl'] has the keys of [nl], keeps every edge of [nl] and adds only
    edges into [T]. *)
Definition extends (T : list nat) (nl nl' : gmap nat (gset nat)) : Prop :=
  dom nl' = dom nl ∧
  ∀ p X', nl' !! p = Some X' →
    ∃ X, nl !! p = Some X ∧ X ⊆ X' ∧ ∀ x, x ∈ X' → x ∈ X ∨ x ∈ T.

(** What a successful call of [buildCFA] does to the automaton: the new
    edges lead into the tree, the exits are labels of the tree, and the
    labels outside the tree and the predecessors keep their successors. *)
Definition cfa_sound `{Sympy} (n : ast_inter.Node) : Prop :=
  ∀ L nl nl' exits,
    buildCFA L n nl = Ok (nl', exits) →
    extends (labels n) nl nl' ∧
    (∀ l, l ∈ exits → l ∈ labels n) ∧
    (∀ p, p ∉ L → p ∉ labels n → nl' !! p = nl !! p).

(** [buildCFA] returns on [n] when the predecessors and the labels of
    the tree are keys of the automaton. *)
Definition cfa_runs `{Sympy} (n : ast_inter.Node) : Prop :=
  ∀ L nl,
    (∀ p, p ∈ L → p ∈ dom nl) → (∀ l, l ∈ labels n → l ∈ dom nl) →
    ∃ nl' exits, buildCFA L n nl = Ok (nl', exits).

(** The labels of [T] have no successor yet. *)
Definition unlinked (T : list nat) (nl : gmap nat (gset nat)) : Prop :=
  ∀ l, l ∈ T → ∀ X, nl !! l = Some X → X = ∅.

(** Every node of [ns] other than a [Receive] or an [If] has at most one
    successor. *)
Definition linear `{Sympy} (ns : list ast_inter.Node)
    (nl : gmap nat (gset nat)) : Prop :=
  ∀ node, node ∈ ns → branching node = false →
    ∀ X, nl !! ast_inter.get_label node = Some X → size X ≤ 1.

(** On a tree with pairwise distinct labels that have no successor yet,
    [buildCFA] leaves its exits without successor and every other node
    with at most one, the [Receive]s and the [If]s apart. *)
Definition cfa_linear `{Sympy} (n : ast_inter.Node) : Prop :=
  ∀ L nl nl' exits,
    NoDup (labels n) → (∀ p, p ∈ L → p ∉ labels n) → unlinked (labels n) nl →
    buildCFA L n nl = Ok (nl', exits) →
    (∀ l, l ∈ exits → ∀ X, nl' !! l = Some X → X = ∅) ∧
    linear (subtrees n) nl'.

(** The answers of the decision procedure itself, and a cache that holds
    nothing else. *)
Definition oracle `{Sympy} (cond1 cond2 : Cond) : bool :=
  discharge (simplify (And cond1 (Not cond2))).

Definition sound_cache `{Sympy} (σ : Store) : Prop :=
  ∀ a b r, cachedImplication σ !! (a, b) = Some r → r = oracle a b.

(** A second visiting order: decreasing. *)
Definition descending_iter (X : gset nat) : list nat :=
  reverse (merge_sort Nat.le (elements X)).

Definition descending : SetOrder :=
  {| iter := descending_iter;
     iter_perm := λ X,
       perm_trans (reverse_Permutation (merge_sort Nat.le (elements X)))
         (merge_sort_Permutation Nat.le (elements X)) |}.

(** An [If] whose only branch is guarded by the unknown [x], against a
    projection that has ended; the instances built from the loop and from
    the send of the examples above. *)
Definition guarded_program : ast_inter.Node :=
  ast_inter.If 0 [ast_inter.IfComponent 1 x_holds (ast_inter.Exit 2)].

Definition guarded_refinement : Refinement :=
  force (__init__ guarded_program end_projection).

Definition loop_refinement : Refinement :=
  force (__init__ loop_program (loop_projection x_holds x_fails)).

(** Two stores whose cache holds one answer for the pair of [x] and
    [x]: the decision procedure's, and its opposite. *)
Definition warm : Store := set_cache {[ (x_holds, x_holds) := true ]} fresh.

Definition stale : Store := set_cache {[ (x_holds, x_holds) := false ]} fresh.

Definition send_refinement : Refinement :=
  force (__init__ send_program (send_projection "Go"%string)).

(** A loop under the literal [S.true]. *)
Definition forever_program : ast_inter.Node :=
  ast_inter.Statement 0
    [ast_inter.While 1 S_true (ast_inter.Skip 2); ast_inter.Exit 3].

Definition forever_refinement : Refinement :=
  force (__init__ forever_program (loop_projection x_holds x_fails)).

(** * Notions for the runs that return *)

(** Nodes other than [If] and [IfComponent]. *)
Definition no_If `{Sympy} (n : ast_inter.Node) : bool :=
  match n with
  | ast_inter.If _ _ | ast_inter.IfComponent _ _ _ => false
  | _ => true
  end.

(** Nodes on which [compatible] does not call [implies]: no [If], no
    [IfComponent], and no [While] but under the literal [S.true]. *)
Definition never_asks `{Sympy} (n : ast_inter.Node) : bool :=
  match n with
  | ast_inter.If _ _ | ast_inter.IfComponent _ _ _ => false
  | ast_inter.While _ c _ => bool_decide (c = S_true)
  | _ => true
  end.

(** [m] leaves the cache of implications as it finds it. *)
Definition keeps_cache `{Sympy} {A} (m : M A) : Prop :=
  ∀ σ, cachedImplication (m σ).1 = cachedImplication σ.

(** The states that [compatible] may read from a projection node are
    states of the projection, and the lists it takes the first element
    of are not empty. *)
Definition closed_node `{Sympy} (S : gmap nat ast_proj.Node)
    (node : ast_proj.Node) : bool :=
  match node with
  | ast_proj.Motion motions end_state =>
      match motions, end_state with
      | _ :: _, e :: _ => bool_decide (e ∈ dom S)
      | _, _ => false
      end
  | ast_proj.SendMessage _ _ end_state | ast_proj.ReceiveMessage _ end_state =>
      match end_state with
      | e :: _ => bool_decide (e ∈ dom S)
      | [] => false
      end
  | ast_proj.GuardedChoice guarded_states =>
      forallb (λ gs : Cond * nat, bool_decide (gs.2 ∈ dom S)) guarded_states
  | ast_proj.ExternalChoice _ | ast_proj.End => true
  end.

Definition closed_projection `{Sympy} (S : gmap nat ast_proj.Node) : Prop :=
  map_Forall (λ _ node, closed_node S node = true) S.

(** What [compatible] needs of an instance to return on every pair of a
    label and a state. *)
Record sane `{Sympy} (self : Refinement) : Prop := {
  sane_kinds : ∀ l node, programLabels self !! l = Some node → no_If node = true;
  sane_next : ∀ l node,
    programLabels self !! l = Some node → calls_next node = true →
    ∃ n, nextLabel self !! l = Some n ∧ size n ≤ 1 ∧
         ∀ x, x ∈ n → x ∈ dom (programLabels self);
  sane_while : ∀ l lbl c body,
    programLabels self !! l = Some (ast_inter.While lbl c body) →
    ast_inter.get_label body ∈ dom (programLabels self);
  sane_receive : ∀ l lbl motion actions,
    programLabels self !! l = Some (ast_inter.Receive lbl motion actions) →
    ast_inter.get_label motion ∈ dom (programLabels self) ∧
    ∀ a, a ∈ actions → ast_inter.get_label a ∈ dom (programLabels self);
  sane_states : closed_projection (state_to_node self);
  sane_root : ast_inter.get_label (program self) ∈ dom (programLabels self);
}.

(** On the pairs of a label of [L] and a state of [S], [compatible]
    passes or fails but does not raise, whatever relation over [L] it
    reads. *)
Definition returns_on {names : Str} `{Sympy} (ord : SetOrder) (self : Refinement)
    (I : Cond → Cond → bool) (L S : gset nat) : Prop :=
  ∀ C l s, dom C = L → l ∈ L → s ∈ S →
    is_verdict (compatible_on ord self I C l s).

(** * Proofs *)

(** ** Running the monad *)

Section monad_facts.
Context {names : Str} `{Sympy}.

Lemma bind_ok {A B} (m : M A) (f : A → M B) σ σ' a :
  m σ = (σ', Ok a) → bind m f σ = f a σ'.
Proof. unfold bind. by intros ->. Qed.

Lemma bind_raise {A B} (m : M A) (f : A → M B) σ σ' e :
  m σ = (σ', Raise e) → bind m f σ = (σ', Raise e).
Proof. unfold bind. by intros ->. Qed.

Lemma bind_log {B} (e : Event) (f : unit → M B) σ :
  bind (log e) f σ = f tt (push_event e σ).
Proof. done. Qed.

End monad_facts.

(** ** [compatible] and [compatible_on] *)

Section simulation.
Context {names : Str} `{Sympy} (ord : SetOrder) (self : Refinement).

Lemma silent_nil : silent [].
Proof. constructor. Qed.

Lemma silent_app evs1 evs2 : silent evs1 → silent evs2 → silent (evs1 ++ evs2).
Proof. apply Forall_app_2. Qed.

Lemma sim_lift {A} I C (r : result A) : sim I C (lift r) r.
Proof. intros σ Hσ. exists σ, []. repeat split; try apply Hσ; eauto using silent_nil. Qed.

Lemma sim_ret {A} I C (a : A) : sim I C (ret a) (Ok a).
Proof. apply (sim_lift I C (Ok a)). Qed.

Lemma sim_raise {A} I C e : sim I C (raise (A:=A) e) (Raise e).
Proof. apply (sim_lift I C (Raise e)). Qed.

Lemma sim_bind {A B} I C (m : M A) (f : A → M B) p q :
  sim I C m p → (∀ a, p = Ok a → sim I C (f a) (q a)) →
  sim I C (bind m f) (rbind p q).
Proof.
  intros Hm Hf σ Hσ.
  destruct (Hm σ Hσ) as (σ1 & evs1 & Hrun & Hσ1 & Hsub1 & Htr1 & Hs1).
  destruct p as [a|e]; simpl.
  - destruct (Hf a eq_refl σ1 Hσ1) as (σ2 & evs2 & Hrun2 & Hσ2 & Hsub2 & Htr2 & Hs2).
    exists σ2, (evs2 ++ evs1). rewrite (bind_ok _ _ _ _ _ Hrun).
    repeat split; try apply Hσ2; auto using silent_app.
    + by etrans.
    + by rewrite Htr2, Htr1, app_assoc.
  - exists σ1, evs1. by rewrite (bind_raise _ _ _ _ _ Hrun).
Qed.

Lemma sim_implies I C cond1 cond2 :
  sim I C (implies cond1 cond2) (Ok (I cond1 cond2)).
Proof.
  intros σ [HC HI]. unfold implies.
  destruct (cachedImplication σ !! (cond1, cond2)) as [res|] eqn:Hc.
  - exists σ, []. rewrite <- HI. unfold imp. rewrite Hc.
    repeat split; auto using silent_nil.
  - eexists _, []. rewrite <- HI. unfold imp at 1. rewrite Hc.
    repeat split; simpl; auto using silent_nil.
    + intros a b. rewrite <- HI. unfold imp; simpl.
      destruct (decide ((cond1, cond2) = (a, b))) as [Heq|Hne].
      * injection Heq as <- <-. by rewrite lookup_insert_eq, Hc.
      * by rewrite lookup_insert_ne.
    + by apply insert_subseteq.
Qed.

Lemma sim_refines I C statment node :
  sim I C (_refines self statment node) (refines_on self C statment node).
Proof.
  intros σ [HC HI]. exists σ, [].
  unfold _refines, refines_on. rewrite HC.
  destruct statment; repeat split; auto using silent_nil.
Qed.

Lemma sim_log_next I C l : sim I C (log (EvNextStatement l)) (Ok tt).
Proof.
  intros σ [HC HI]. exists (push_event (EvNextStatement l) σ), [EvNextStatement l].
  repeat split; auto. by repeat constructor.
Qed.

Lemma sim_next I C l : sim I C (nextStatement ord self l) (next_on ord self l).
Proof.
  unfold nextStatement, next_on.
  change (sim I C
    (bind (log (EvNextStatement l)) (λ _,
       bind (lift (getitem (nextLabel self) l)) (λ n,
         if decide (size n = 0) then ret None
         else if decide (1 < size n) then raise (TypeError "set")
         else ret (head (iter ord n)))))
    (rbind (Ok tt) (λ _, rbind (getitem (nextLabel self) l) (λ n,
         if decide (size n = 0) then Ok None
         else if decide (1 < size n) then Raise (TypeError "set")
         else Ok (head (iter ord n)))))).
  apply sim_bind; [apply sim_log_next|intros _ _].
  apply sim_bind; [apply sim_lift|intros n _].
  repeat case_decide; auto using sim_ret, sim_raise.
Qed.

Lemma sim_any {A} I C (f : A → M bool) g xs :
  (∀ x, sim I C (f x) (g x)) → sim I C (any f xs) (rany g xs).
Proof.
  intros Hf. induction xs as [|x xs IH]; simpl; [apply sim_ret|].
  apply sim_bind; [apply Hf|]. intros [] _; [apply sim_ret|apply IH].
Qed.

Lemma sim_all {A} I C (f : A → M bool) g xs :
  (∀ x, sim I C (f x) (g x)) → sim I C (all f xs) (rall g xs).
Proof.
  intros Hf. induction xs as [|x xs IH]; simpl; [apply sim_ret|].
  apply sim_bind; [apply Hf|]. intros [] _; [apply IH|apply sim_ret].
Qed.

End simulation.

Section compatible_simulation.
Context {names : Str} `{Sympy} (ord : SetOrder) (self : Refinement).

Local Ltac sim_step :=
  first
    [ apply sim_ret | apply sim_raise | apply sim_lift | apply sim_implies
    | apply sim_refines | apply sim_next
    | apply sim_bind; [|intros ? _]
    | apply sim_any; intros ?
    | apply sim_all; intros ?
    | case_decide
    | match goal with
      | |- sim _ _ (if ?b then _ else _) _ => destruct b
      | |- sim _ _ (match ?x with _ => _ end) _ => destruct x
      end ].

Lemma sim_for_ifComp I C comps :
  sim I C
    ((fix for_ifComp (comps : list ast_inter.Node) : M bool :=
        match comps with
        | [] => ret true
        | ifComp :: comps' =>
            let* found :=
              (let* guarded_states := mode_guarded_states in
               any (λ gs : Cond * nat,
                      let* c := lift (ast_inter.condition_of ifComp) in
                      let* i := implies c gs.1 in
                      if i then
                        let* p := lift (ast_inter.program_of ifComp) in
                        _refines self (Some (ast_inter.get_label p)) gs.2
                      else ret false) guarded_states) in
            if found then for_ifComp comps' else ret false
        end) comps)
    (match comps with [] => Ok true | _ :: _ => Raise NameError end).
Proof.
  destruct comps as [|c comps]; [apply sim_ret|].
  intros σ Hσ. exists σ, []. repeat split; try apply Hσ; auto using silent_nil.
Qed.

Lemma sim_compatible_body I C statmentL nodeL σ :
  agrees I C σ →
  ∃ σ' evs,
    compatible ord self statmentL nodeL σ
      = (σ', compatible_on ord self I C statmentL nodeL) ∧
    agrees I C σ' ∧
    cachedImplication σ ⊆ cachedImplication σ' ∧
    trace σ' = evs ++ EvCompatible statmentL nodeL :: trace σ ∧
    silent evs.
Proof.
  intros Hσ.
  assert (Hσ1 : agrees I C (push_event (EvCompatible statmentL nodeL) σ))
    by (split; apply Hσ).
  unfold compatible, compatible_on.
  match goal with
  | |- ∃ σ' evs, bind (log ?e) ?k σ = (σ', ?p) ∧ _ =>
      change (bind (log e) k σ) with (k tt (push_event e σ));
      cut (sim I C (k tt) p)
  end.
  { intros Hsim. destruct (Hsim _ Hσ1) as (σ' & evs & ? & ? & ? & ? & ?).
    by exists σ', evs. }
  cbv beta.
  apply sim_bind; [apply sim_lift|intros statment _].
  apply sim_bind; [apply sim_lift|intros node _].
  destruct statment; destruct node; try apply sim_for_ifComp; repeat sim_step.
Qed.

End compatible_simulation.

(** ** [compatible_on] grows with the relation

    [_refines] is the only reader of [compat] and occurs positively, so a
    verdict [True] survives when the relation is enlarged.  Under a
    generator the elements visited before the decisive one must also keep
    returning, which is [steady]. *)

Section monotone.
Context {names : Str} `{Sympy} (ord : SetOrder) (self : Refinement).

Lemma steady_keeps p p' : steady p p' → keeps p p'.
Proof. intros Hs Hp. destruct (Hs _ Hp) as (b' & -> & Hb). by rewrite Hb. Qed.

Lemma steady_refl p : steady p p.
Proof. intros b ->. eauto. Qed.

Lemma keeps_refl p : keeps p p.
Proof. by intros ?. Qed.

Lemma steady_refines C C' statment node :
  below C C' →
  steady (refines_on self C statment node) (refines_on self C' statment node).
Proof.
  intros Hb b. destruct statment as [l|]; simpl; [|by eauto].
  unfold getitem. destruct (C !! l) as [X|] eqn:HX; simpl; [|done].
  destruct (Hb _ _ HX) as (X' & -> & Hsub). simpl.
  intros [= <-]. eexists; split; [done|].
  rewrite !bool_decide_eq_true. set_solver.
Qed.

Lemma steady_bind_same {A} (m : result A) f f' :
  (∀ a, steady (f a) (f' a)) → steady (rbind m f) (rbind m f').
Proof. intros Hf. destruct m; simpl; auto using steady_refl. Qed.

Lemma keeps_bind_same {A} (m : result A) f f' :
  (∀ a, keeps (f a) (f' a)) → keeps (rbind m f) (rbind m f').
Proof. intros Hf. destruct m; simpl; auto using keeps_refl. Qed.

Lemma steady_rany {A} (f f' : A → result bool) xs :
  (∀ x, steady (f x) (f' x)) → steady (rany f xs) (rany f' xs).
Proof.
  intros Hf. induction xs as [|x xs IH]; simpl; [apply steady_refl|].
  intros b Hb. destruct (f x) as [bx|] eqn:Hx; simpl in Hb; try done.
  destruct (Hf x _ Hx) as (bx' & -> & Hbx). simpl.
  destruct bx.
  - rewrite Hbx by done. eauto.
  - destruct bx'; [eauto|]. by apply IH.
Qed.

Lemma keeps_and_then A A' B B' :
  keeps A A' → keeps B B' →
  keeps (rbind A (λ b : bool, if b then B else Ok false))
        (rbind A' (λ b : bool, if b then B' else Ok false)).
Proof.
  intros HA HB Hr. destruct A as [[]|]; simpl in Hr; try done.
  rewrite HA by done. simpl. by apply HB.
Qed.

Lemma keeps_or_else A A' B B' :
  steady A A' → keeps B B' →
  keeps (rbind A (λ b : bool, if b then Ok true else B))
        (rbind A' (λ b : bool, if b then Ok true else B')).
Proof.
  intros HA HB Hr. destruct A as [b|] eqn:HAeq; simpl in Hr; try done.
  destruct (HA _ eq_refl) as (b' & -> & Hb). simpl.
  destruct b; [by rewrite Hb|]. destruct b'; [done|]. by apply HB.
Qed.

Lemma keeps_rall {A} (f f' : A → result bool) xs :
  (∀ x, keeps (f x) (f' x)) → keeps (rall f xs) (rall f' xs).
Proof.
  intros Hf. induction xs as [|x xs IH]; simpl; [apply keeps_refl|].
  intros Hr. destruct (f x) as [[]|] eqn:Hx; simpl in Hr; try done.
  rewrite (Hf x Hx). simpl. by apply IH.
Qed.

Local Ltac steady_step :=
  first
    [ apply steady_refines; assumption
    | apply steady_refl
    | apply steady_bind_same; intros ?
    | apply steady_rany; intros ?
    | match goal with
      | |- steady (if ?b then _ else _) _ => destruct b
      end ].

Local Ltac keeps_step :=
  first
    [ apply keeps_refl
    | apply keeps_bind_same; intros ?
    | match goal with
      | |- keeps (rbind ?A ?k) (rbind ?A' ?k') =>
          first [ apply (keeps_and_then A A' (k true) (k' true))
                | apply (keeps_or_else A A' (k false) (k' false)) ]
      end
    | apply keeps_rall; intros ?
    | case_decide
    | match goal with
      | |- keeps (if ?b then _ else _) _ => destruct b
      | |- keeps (match ?x with _ => _ end) _ => destruct x
      end
    | apply steady_keeps ].

Lemma compatible_on_mono I C C' l s :
  below C C' →
  compatible_on ord self I C l s = Ok true →
  compatible_on ord self I C' l s = Ok true.
Proof.
  intros Hb. change (keeps (compatible_on ord self I C l s)
                           (compatible_on ord self I C' l s)).
  unfold compatible_on.
  apply keeps_bind_same; intros statment.
  apply keeps_bind_same; intros node.
  destruct statment; destruct node; repeat keeps_step; repeat steady_step.
Qed.

End monotone.

(** ** Counting events and pairs *)

Section counting.
Context {names : Str} `{Sympy}.

Lemma evaluations_app evs1 evs2 :
  evaluations (evs1 ++ evs2) = evaluations evs1 + evaluations evs2.
Proof. unfold evaluations. by rewrite filter_app, length_app. Qed.

Lemma removals_app evs1 evs2 :
  removals (evs1 ++ evs2) = removals evs1 + removals evs2.
Proof. unfold removals. by rewrite filter_app, length_app. Qed.

Lemma silent_evaluations evs : silent evs → evaluations evs = 0.
Proof.
  unfold evaluations. induction 1 as [|e evs [He _] _ IH]; [done|].
  rewrite filter_cons_False; [done|]. by rewrite He.
Qed.

Lemma silent_removals evs : silent evs → removals evs = 0.
Proof.
  unfold removals. induction 1 as [|e evs [_ He] _ IH]; [done|].
  rewrite filter_cons_False; [done|]. by rewrite He.
Qed.

Lemma weight_perm (C : gmap nat (gset nat)) ls ls' :
  ls ≡ₚ ls' → weight C ls = weight C ls'.
Proof.
  unfold weight. induction 1; simpl; lia.
Qed.

Lemma weight_insert_notin (C : gmap nat (gset nat)) l X ls :
  l ∉ ls → weight (<[l:=X]> C) ls = weight C ls.
Proof.
  unfold weight. induction ls as [|k ls IH]; simpl; [done|].
  intros Hl. apply not_elem_of_cons in Hl as [Hne Hl].
  by rewrite IH, lookup_total_insert_ne.
Qed.

Lemma weight_insert_in (C : gmap nat (gset nat)) l X ls :
  NoDup ls → l ∈ ls →
  weight (<[l:=X]> C) ls + size (C !!! l) = weight C ls + size X.
Proof.
  unfold weight. induction ls as [|k ls IH]; simpl; intros Hnd Hl.
  - by apply elem_of_nil in Hl.
  - apply NoDup_cons in Hnd as [Hk Hnd].
    destruct (decide (k = l)) as [->|Hne].
    + rewrite lookup_total_insert_eq.
      pose proof (weight_insert_notin C l X ls Hk) as Hw. unfold weight in Hw.
      rewrite Hw. lia.
    + apply elem_of_cons in Hl as [?|Hl]; [congruence|].
      rewrite lookup_total_insert_ne by done. specialize (IH Hnd Hl). lia.
Qed.

Lemma dom_insert_present (C : gmap nat (gset nat)) l X X' :
  C !! l = Some X → dom (<[l:=X']> C) = dom C.
Proof.
  intros HX%elem_of_dom_2. rewrite dom_insert_L.
  apply subseteq_union_1_L. by apply singleton_subseteq_l.
Qed.

Lemma total_insert (C : gmap nat (gset nat)) l X X' :
  C !! l = Some X → total (<[l:=X']> C) + size X = total C + size X'.
Proof.
  intros HX. unfold total. rewrite (dom_insert_present _ _ _ _ HX).
  rewrite <- (lookup_total_correct _ _ _ HX).
  apply weight_insert_in; [apply NoDup_elements|].
  apply elem_of_elements, elem_of_dom. eauto.
Qed.

Lemma total_universal (L S : gset nat) :
  total (universal L S) = size L * size S.
Proof.
  unfold total, universal, weight. rewrite dom_gset_to_gmap.
  assert (Hall : ∀ ls : list nat, (∀ l, l ∈ ls → l ∈ L) →
    sum_list_with (λ l, size (gset_to_gmap S L !!! l)) ls = length ls * size S).
  { induction ls as [|l ls IH]; simpl; [done|]. intros Hin.
    rewrite IH by (intros; apply Hin; by right).
    rewrite lookup_total_alt, lookup_gset_to_gmap.
    rewrite option_guard_True by (apply Hin; by left). done. }
  rewrite Hall by (intros l; apply elem_of_elements). done.
Qed.

Lemma weight_total (C : gmap nat (gset nat)) ls :
  ls ≡ₚ elements (dom C) → weight C ls = total C.
Proof. apply weight_perm. Qed.

Lemma weight_ext (C C' : gmap nat (gset nat)) ls :
  (∀ l, l ∈ ls → C' !! l = C !! l) → weight C' ls = weight C ls.
Proof.
  unfold weight. induction ls as [|l ls IH]; simpl; [done|]. intros Heq.
  rewrite IH by (intros; apply Heq; by right).
  by rewrite !lookup_total_alt, Heq by (by left).
Qed.

Lemma iter_elem_of (ord : SetOrder) (X : gset nat) s : s ∈ iter ord X ↔ s ∈ X.
Proof. by rewrite (iter_perm ord X), elem_of_elements. Qed.

Lemma iter_NoDup (ord : SetOrder) (X : gset nat) : NoDup (iter ord X).
Proof. rewrite (iter_perm ord X). apply NoDup_elements. Qed.

Lemma iter_length (ord : SetOrder) (X : gset nat) : length (iter ord X) = size X.
Proof. by rewrite (iter_perm ord X). Qed.

Lemma below_refl (C : gmap nat (gset nat)) : below C C.
Proof. intros l X HX. eauto. Qed.

Lemma below_trans (C1 C2 C3 : gmap nat (gset nat)) :
  below C1 C2 → below C2 C3 → below C1 C3.
Proof.
  intros H12 H23 l X HX. destruct (H12 _ _ HX) as (X2 & HX2 & ?).
  destruct (H23 _ _ HX2) as (X3 & HX3 & ?). exists X3. split; [done|set_solver].
Qed.

Lemma below_insert (C : gmap nat (gset nat)) l X X' :
  C !! l = Some X → X' ⊆ X → below (<[l:=X']> C) C.
Proof.
  intros HX Hsub k Y. destruct (decide (l = k)) as [<-|Hne].
  - rewrite lookup_insert_eq. intros [= <-]. eauto.
  - rewrite lookup_insert_ne by done. eauto.
Qed.

End counting.

(** ** One pass of the loop of [check]

    Throughout, [I] is what [implies] answers: the stores of one run all
    agree on it. *)

Section passes.
Context {names : Str} `{Sympy} (ord : SetOrder) (self : Refinement) (I : Cond → Cond → bool).

Lemma step_refl σ : answers I σ → step ord self I σ σ [].
Proof. intros Hσ. split; auto using below_refl. Qed.

Lemma step_trans σ σ1 σ2 evs1 evs2 :
  step ord self I σ σ1 evs1 → step ord self I σ1 σ2 evs2 → step ord self I σ σ2 (evs2 ++ evs1).
Proof.
  intros [] []. split; auto.
  - by etrans.
  - rewrite step_trace1, step_trace0. by rewrite app_assoc.
  - by eapply below_trans.
  - congruence.
  - rewrite removals_app. lia.
Qed.

Lemma compatible_run l s σ :
  answers I σ →
  ∃ σ' evs,
    compatible ord self l s σ = (σ', compatible_on ord self I (compat σ) l s) ∧
    compat σ' = compat σ ∧ step ord self I σ σ' evs ∧
    evaluations evs = 1 ∧ removals evs = 0.
Proof.
  intros Hσ.
  destruct (sim_compatible_body ord self I (compat σ) l s σ)
    as (σ' & evs & Hrun & [HC HI] & Hsub & Htr & Hs); [by split|].
  exists σ', (evs ++ [EvCompatible l s]).
  rewrite evaluations_app, removals_app.
  rewrite (silent_evaluations _ Hs), (silent_removals _ Hs).
  repeat split; auto.
  - by rewrite Htr, <- app_assoc.
  - rewrite HC. apply below_refl.
  - by rewrite HC.
  - rewrite HC. rewrite removals_app, (silent_removals _ Hs). done.
  - by rewrite HC.
Qed.

Lemma discard_run l s X σ :
  answers I σ → compat σ !! l = Some X → s ∈ X →
  compatible_on ord self I (compat σ) l s = Ok false →
  ∃ σ',
    (∀ B (k : M B),
       (log (EvNotCompatible l s);; discard l s;; k) σ = k σ') ∧
    compat σ' = <[l := X ∖ {[s]}]> (compat σ) ∧
    step ord self I σ σ' [EvNotCompatible l s].
Proof.
  intros Hσ HX Hs Hno.
  exists (set_compat (<[l := X ∖ {[s]}]> (compat σ))
            (push_event (EvNotCompatible l s) σ)).
  split; [|split].
  - intros B k. rewrite bind_log. unfold bind, discard. simpl. by rewrite HX.
  - done.
  - split; simpl; auto.
    + eapply below_insert; [done|]. apply subseteq_difference_l. done.
    + by eapply dom_insert_present.
    + pose proof (total_insert (compat σ) l X (X ∖ {[s]}) HX) as Ht.
      assert (size (X ∖ {[s]}) = size X - 1) as Hd.
      { rewrite size_difference by (by apply singleton_subseteq_l).
        by rewrite size_singleton. }
      assert (1 ≤ size X) as Hp.
      { rewrite <- (size_singleton (C:=gset nat) s).
        by apply subseteq_size, singleton_subseteq_l. }
      unfold removals. simpl. lia.
    + intros R HR Hbelow k Y HY. destruct (Hbelow _ _ HY) as (Y' & HY' & Hsub).
      destruct (decide (l = k)) as [<-|Hne].
      * rewrite lookup_insert_eq. eexists; split; [done|].
        assert (Y' = X) by congruence. subst Y'.
        assert (s ∉ Y); [|set_solver].
        intros HsY. pose proof (HR _ _ _ HY HsY) as Hyes.
        apply (compatible_on_mono _ _ _ _ _ _ _ Hbelow) in Hyes. congruence.
      * rewrite lookup_insert_ne by done. eauto.
Qed.

Lemma for_states_run l states : ∀ changed σ,
  answers I σ → NoDup states →
  (∀ s, s ∈ states → ∃ X, compat σ !! l = Some X ∧ s ∈ X) →
  ∃ σ' v evs,
    for_states ord self l states changed σ = (σ', v) ∧ step ord self I σ σ' evs ∧
    (∀ l', l' ≠ l → compat σ' !! l' = compat σ !! l') ∧
    evaluations evs ≤ length states ∧
    (v = Ok false →
       changed = false ∧ compat σ' = compat σ ∧
       ∀ s, s ∈ states → compatible_on ord self I (compat σ) l s = Ok true) ∧
    (v = Ok true → changed = true ∨ 0 < removals evs).
Proof.
  induction states as [|s states IH]; intros changed σ Hσ Hnd Hin.
  { exists σ, (Ok changed), []. simpl. split_and!; auto using step_refl.
    - intros [= ->]. split_and!; [done..|].
      intros s Hs. by apply elem_of_nil in Hs.
    - intros [= ->]. by left. }
  apply NoDup_cons in Hnd as [Hs Hnd].
  destruct (compatible_run l s σ Hσ) as (σ1 & evs1 & Hrun & HC1 & Hst1 & Hev1 & Hrm1).
  destruct (Hin s) as (X & HX & HsX); [by left|].
  simpl. destruct (compatible_on ord self I (compat σ) l s) as [[]|e] eqn:Hp.
  - rewrite (bind_ok _ _ _ _ _ Hrun).
    destruct (IH changed σ1) as (σ' & v & evs & Hrun' & Hst & Hoth & Hev & Hno & Hyes).
    { apply Hst1. } { done. }
    { intros s' Hs'. rewrite HC1. apply Hin. by right. }
    exists σ', v, (evs ++ evs1). rewrite Hrun'.
    split_and!.
    + done.
    + by eapply step_trans.
    + intros l' Hl'. rewrite Hoth by done. by rewrite HC1.
    + rewrite evaluations_app. simpl. lia.
    + intros Hv. destruct (Hno Hv) as (? & ? & Hall). split_and!; [done|congruence|].
      intros s' [->|Hs']%elem_of_cons; [done|].
      rewrite <- HC1. by apply Hall.
    + intros Hv. rewrite removals_app. destruct (Hyes Hv); [by left|right; lia].
  - rewrite (bind_ok _ _ _ _ _ Hrun).
    destruct (discard_run l s X σ1) as (σ2 & Hrun2 & HC2 & Hst2);
      [apply Hst1|by rewrite HC1|done|by rewrite HC1|].
    rewrite Hrun2.
    destruct (IH true σ2) as (σ' & v & evs & Hrun' & Hst & Hoth & Hev & Hno & Hyes).
    { apply Hst2. } { done. }
    { intros s' Hs'. rewrite HC2, HC1, lookup_insert_eq.
      destruct (Hin s') as (X' & HX' & HsX'); [by right|].
      assert (X' = X) by congruence. subst X'.
      eexists; split; [done|]. apply elem_of_difference. split; [done|].
      apply not_elem_of_singleton. intros ->. done. }
    exists σ', v, (evs ++ [EvNotCompatible l s] ++ evs1). rewrite Hrun'.
    split_and!.
    + done.
    + eapply step_trans; [|done]. by eapply step_trans.
    + intros l' Hl'. rewrite Hoth by done.
      by rewrite HC2, HC1, lookup_insert_ne.
    + rewrite !evaluations_app. unfold evaluations at 2. simpl. lia.
    + intros Hv. by destruct (Hno Hv).
    + intros Hv. right. rewrite !removals_app. unfold removals at 2. simpl. lia.
  - rewrite (bind_raise _ _ _ _ _ Hrun).
    exists σ1, (Raise e), evs1. split_and!; auto; try congruence.
    simpl. lia.
Qed.

Lemma for_labels_run labels : ∀ changed σ,
  answers I σ → NoDup labels →
  ∃ σ' v evs,
    for_labels ord self labels changed σ = (σ', v) ∧ step ord self I σ σ' evs ∧
    (∀ l', l' ∉ labels → compat σ' !! l' = compat σ !! l') ∧
    evaluations evs ≤ weight (compat σ) labels ∧
    (v = Ok false →
       changed = false ∧ compat σ' = compat σ ∧
       ∀ l X s, l ∈ labels → compat σ !! l = Some X → s ∈ X →
         compatible_on ord self I (compat σ) l s = Ok true) ∧
    (v = Ok true → changed = true ∨ 0 < removals evs).
Proof.
  induction labels as [|l labels IH]; intros changed σ Hσ Hnd.
  { exists σ, (Ok changed), []. simpl. split_and!; auto using step_refl.
    - intros [= ->]. split_and!; [done..|].
      intros l X s Hl. by apply elem_of_nil in Hl.
    - intros [= ->]. by left. }
  apply NoDup_cons in Hnd as [Hl Hnd]. simpl. unfold bind at 1.
  unfold getitem. destruct (compat σ !! l) as [X|] eqn:HX.
  2:{ exists σ, (Raise KeyError), []. split_and!; auto using step_refl; try congruence.
      change (evaluations []) with 0. lia. }
  destruct (for_states_run l (iter ord X) changed σ Hσ (iter_NoDup ord X))
    as (σ1 & v1 & evs1 & Hrun1 & Hst1 & Hoth1 & Hev1 & Hno1 & Hyes1).
  { intros s Hs%iter_elem_of. eauto. }
  rewrite iter_length in Hev1.
  destruct v1 as [changed1|e].
  2:{ rewrite (bind_raise _ _ _ _ _ Hrun1).
      exists σ1, (Raise e), evs1. split_and!; auto; try congruence.
      - intros l' Hl'. apply Hoth1. intros ->. apply Hl'. by left.
      - unfold weight; simpl. rewrite (lookup_total_correct _ _ _ HX). lia. }
  rewrite (bind_ok _ _ _ _ _ Hrun1).
  destruct (IH changed1 σ1) as (σ' & v & evs & Hrun & Hst & Hoth & Hev & Hno & Hyes);
    [apply Hst1|done|].
  assert (Hsame : ∀ k, k ∈ labels → compat σ1 !! k = compat σ !! k).
  { intros k Hk. apply Hoth1. intros ->. done. }
  exists σ', v, (evs ++ evs1). rewrite Hrun. split_and!.
  - done.
  - by eapply step_trans.
  - intros l' Hl'. apply not_elem_of_cons in Hl' as [Hne Hl'].
    rewrite Hoth by done. by apply Hoth1.
  - rewrite evaluations_app. rewrite (weight_ext _ _ _ Hsame) in Hev.
    unfold weight in *; simpl. rewrite (lookup_total_correct _ _ _ HX). lia.
  - intros Hv. destruct (Hno Hv) as (-> & HC & Hall).
    destruct (Hno1 eq_refl) as (-> & HC1 & Hall1).
    split_and!; [done|congruence|].
    intros k Y s [->|Hk]%elem_of_cons HY HsY.
    + assert (Y = X) by congruence. subst Y. by apply Hall1, iter_elem_of.
    + rewrite <- HC1. eapply Hall; [done| |done]. by rewrite HC1.
  - intros Hv. rewrite removals_app. destruct (Hyes Hv) as [->|?]; [|right; lia].
    destruct (Hyes1 eq_refl); [by left|right; lia].
Qed.

Lemma while_changed_run fuel allLabels : ∀ σ,
  answers I σ → dom (compat σ) = allLabels → total (compat σ) < fuel →
  ∃ σ' v evs,
    while_changed ord self fuel allLabels σ = Some (σ', v) ∧ step ord self I σ σ' evs ∧
    2 * evaluations evs ≤ total (compat σ) * (total (compat σ) + 1) ∧
    (v = Ok tt → closed_on ord self I (compat σ')).
Proof.
  induction fuel as [|fuel IH]; intros σ Hσ Hdom Hfuel; [lia|].
  simpl. unfold pass.
  destruct (for_labels_run (iter ord allLabels) false σ Hσ (iter_NoDup ord _))
    as (σ1 & v1 & evs1 & Hrun1 & Hst1 & _ & Hev1 & Hno1 & Hyes1).
  rewrite Hrun1.
  rewrite weight_total in Hev1 by (rewrite Hdom; apply iter_perm).
  destruct v1 as [[]|e].
  - destruct (Hyes1 eq_refl) as [?|Hrm]; [done|].
    pose proof (step_total _ _ _ _ _ _ Hst1) as Htot.
    destruct (IH σ1) as (σ' & v & evs & Hrun & Hst & Hev & Hclosed).
    { apply Hst1. } { by rewrite (step_dom _ _ _ _ _ _ Hst1). } { lia. }
    exists σ', v, (evs ++ evs1). split_and!; [done| |  |done].
    + by eapply step_trans.
    + rewrite evaluations_app. nia.
  - destruct (Hno1 eq_refl) as (_ & HC & Hall).
    exists σ1, (Ok tt), evs1. split_and!; [done|done|nia|].
    intros _ l X s HX Hs. rewrite HC in *. eapply Hall; [|done|done].
    apply iter_elem_of. rewrite <- Hdom. by eapply elem_of_dom_2.
  - exists σ1, (Raise e), evs1. split_and!; [done|done|nia|done].
Qed.

End passes.

(** ** The whole of [check] *)

Section check_facts.
Context {names : Str} `{Sympy} (ord : SetOrder) (self : Refinement).

Lemma holds_on I σ C l s :
  answers I σ →
  holds ord self σ C l s ↔ compatible_on ord self I C l s = Ok true.
Proof.
  intros Hσ. unfold holds.
  destruct (compatible_run ord self I l s (set_compat C σ) Hσ)
    as (σ' & evs & Hrun & _). rewrite Hrun. done.
Qed.

Lemma closed_closed_on I σ C :
  answers I σ → closed ord self σ C ↔ closed_on ord self I C.
Proof.
  intros Hσ. unfold closed, closed_on.
  split; intros Hc l X s HX Hs; apply (holds_on I σ); eauto.
Qed.

Lemma universal_lookup (L S : gset nat) l X :
  universal L S !! l = Some X ↔ l ∈ L ∧ X = S.
Proof.
  unfold universal. rewrite lookup_gset_to_gmap_Some.
  split; intros [? ?]; by split.
Qed.

Lemma inside_below C :
  inside self C →
  below C (universal (dom (programLabels self)) (dom (state_to_node self))).
Proof.
  intros [Hdom Hsub] l X HX. eexists. split.
  - apply universal_lookup. split; [|done]. rewrite <- Hdom. by eapply elem_of_dom_2.
  - by eapply Hsub.
Qed.

Lemma below_inside C :
  dom C = dom (programLabels self) →
  below C (universal (dom (programLabels self)) (dom (state_to_node self))) →
  inside self C.
Proof.
  intros Hdom Hb. split; [done|]. intros l X HX.
  destruct (Hb _ _ HX) as (X' & [_ ->]%universal_lookup & ?). done.
Qed.

Lemma check_run σ :
  let U := universal (dom (programLabels self)) (dom (state_to_node self)) in
  let N := size (dom (programLabels self)) * size (dom (state_to_node self)) in
  ∃ σ' v evs,
    check ord self σ = Some (σ', v) ∧
    step ord self (imp σ) (set_compat U σ) σ' evs ∧
    2 * evaluations evs ≤ N * (N + 1) ∧
    (∀ b, v = Ok b →
       closed_on ord self (imp σ) (compat σ') ∧
       ∃ X, compat σ' !! ast_inter.get_label (program self) = Some X ∧
            b = bool_decide (start_state (projection self) ∈ X)).
Proof.
  intros U N. unfold check, check_fuel. fold U.
  assert (Htot : total (compat (set_compat U σ)) = N) by apply total_universal.
  destruct (while_changed_run ord self (imp σ) (budget self)
              (dom (programLabels self)) (set_compat U σ))
    as (σ' & v & evs & Hrun & Hst & Hev & Hclosed).
  { done. } { apply dom_gset_to_gmap. } { rewrite Htot. unfold budget. lia. }
  rewrite Hrun, Htot in *. destruct v as [[]|e].
  - unfold verdict, bind, getitem.
    destruct (compat σ' !! ast_inter.get_label (program self)) as [X|] eqn:HX.
    + exists σ', (Ok (bool_decide (start_state (projection self) ∈ X))), evs.
      split_and!; [done..|]. intros b [= <-]. split; [by apply Hclosed|eauto].
    + exists σ', (Raise KeyError), evs. split_and!; [done..|]. congruence.
  - exists σ', (Raise e), evs. split_and!; [done..|]. congruence.
Qed.

End check_facts.

(** ** Two runs under the same answers *)

Section determinacy.
Context {names : Str} `{Sympy} (ord : SetOrder) (self : Refinement) (I : Cond → Cond → bool).

Lemma bind_alike {A B} (m : M A) (f : A → M B) σa σb :
  same_run I (m σa) (m σb) →
  (∀ a σa' σb', alike I σa' σb' → same_run I (f a σa') (f a σb')) →
  same_run I (bind m f σa) (bind m f σb).
Proof.
  unfold bind. destruct (m σa) as [σa' va], (m σb) as [σb' vb].
  intros [Hv Hab] Hf. simpl in Hv, Hab. subst vb.
  destruct va; [by apply Hf|done].
Qed.

Lemma compatible_alike l s σa σb :
  alike I σa σb →
  same_run I (compatible ord self l s σa) (compatible ord self l s σb).
Proof.
  intros (Ha & Hb & HC).
  destruct (compatible_run ord self I l s σa Ha) as (σa' & ? & -> & HCa & Hsa & _).
  destruct (compatible_run ord self I l s σb Hb) as (σb' & ? & -> & HCb & Hsb & _).
  split; simpl; [by rewrite HC|]. split_and!; [apply Hsa|apply Hsb|congruence].
Qed.

Lemma log_alike e σa σb : alike I σa σb → same_run I (log e σa) (log e σb).
Proof. by intros (? & ? & ?). Qed.

Lemma discard_alike l s σa σb :
  alike I σa σb → same_run I (discard l s σa) (discard l s σb).
Proof.
  intros (Ha & Hb & HC). unfold discard. rewrite HC.
  destruct (compat σb !! l); (split; [done|]); by split_and!.
Qed.

Lemma for_states_alike l states : ∀ changed σa σb,
  alike I σa σb →
  same_run I (for_states ord self l states changed σa)
           (for_states ord self l states changed σb).
Proof.
  induction states as [|s states IH]; intros changed σa σb Hab; [done|].
  simpl. apply bind_alike; [by apply compatible_alike|].
  intros [] σa' σb' Hab'; [by apply IH|].
  apply bind_alike; [by apply log_alike|]. intros _ σa2 σb2 Hab2.
  apply bind_alike; [by apply discard_alike|]. intros _ σa3 σb3 Hab3.
  by apply IH.
Qed.

Lemma for_labels_alike labels : ∀ changed σa σb,
  alike I σa σb →
  same_run I (for_labels ord self labels changed σa)
           (for_labels ord self labels changed σb).
Proof.
  induction labels as [|l labels IH]; intros changed σa σb Hab; [done|].
  simpl. apply bind_alike.
  { split; simpl; [|done]. destruct Hab as (_ & _ & ->). done. }
  intros X σa' σb' Hab'. apply bind_alike; [by apply for_states_alike|].
  intros changed' σa2 σb2 Hab2. by apply IH.
Qed.

Lemma while_changed_alike fuel allLabels : ∀ σa σb,
  alike I σa σb →
  match while_changed ord self fuel allLabels σa,
        while_changed ord self fuel allLabels σb with
  | Some ra, Some rb => same_run I ra rb
  | None, None => True
  | _, _ => False
  end.
Proof.
  induction fuel as [|fuel IH]; intros σa σb Hab; [done|].
  simpl. unfold pass.
  destruct (for_labels_alike (iter ord allLabels) false σa σb Hab) as [Hv Hab'].
  destruct (for_labels ord self (iter ord allLabels) false σa) as [σa' va].
  destruct (for_labels ord self (iter ord allLabels) false σb) as [σb' vb].
  simpl in Hv, Hab'. subst vb. destruct va as [[]|e]; [by apply IH|done|done].
Qed.

Lemma check_alike σa σb :
  answers I σa → answers I σb →
  match check ord self σa, check ord self σb with
  | Some ra, Some rb => ra.2 = rb.2
  | None, None => True
  | _, _ => False
  end.
Proof.
  intros Ha Hb. unfold check, check_fuel.
  pose proof (while_changed_alike (budget self) (dom (programLabels self))
    (set_compat (universal (dom (programLabels self)) (dom (state_to_node self))) σa)
    (set_compat (universal (dom (programLabels self)) (dom (state_to_node self))) σb))
    as Hw.
  specialize (Hw (conj Ha (conj Hb eq_refl))).
  destruct (while_changed _ _ _ _ (set_compat _ σa)) as [[σa' va]|];
  destruct (while_changed _ _ _ _ (set_compat _ σb)) as [[σb' vb]|];
    try done.
  destruct Hw as (Hv & _ & _ & HC). simpl in Hv, HC. subst vb.
  destruct va as [[]|e]; [|done].
  unfold verdict, bind. rewrite HC.
  destruct (getitem (compat σb') _); done.
Qed.

End determinacy.

(** ** The calls of [nextStatement] *)

Section calls.
Context {names : Str} `{Sympy} (ord : SetOrder) (self : Refinement).

Lemma next_ok_nil P {A} (r : result A) : unambiguous r → next_ok self P [] r.
Proof. intros Hr. split; [|done]. intros l Hl. by apply elem_of_nil in Hl. Qed.

Lemma next_ok_seq P {A B} evs1 evs2 (a : A) (r : result B) :
  next_ok self P evs1 (Ok a) → next_ok self P evs2 r → next_ok self P (evs2 ++ evs1) r.
Proof.
  intros [Hc1 _] [Hc2 Hr2]. split.
  - intros l [Hl|Hl]%elem_of_app; [by apply Hc2|].
    destruct (Hc1 l Hl) as [HP Hamb]. split; [done|].
    intros Ha. by specialize (Hamb Ha).
  - intros Hr. destruct (Hr2 Hr) as (l & Hl & Ha). exists l.
    split; [|done]. apply elem_of_app. by left.
Qed.

Lemma next_ok_raise P {A B} evs e :
  next_ok self P evs (Raise (A:=A) e) → next_ok self P evs (Raise (A:=B) e).
Proof.
  intros [Hc Hr]. split.
  - intros l Hl. destruct (Hc l Hl) as [HP Hamb]. split; [done|].
    intros Ha. specialize (Hamb Ha). congruence.
  - intros [= ->]. by apply Hr.
Qed.

Lemma next_ok_ok P {A B} evs (a : A) (b : B) :
  next_ok self P evs (Ok a) → next_ok self P evs (Ok b).
Proof.
  intros [Hc _]. split; [|done].
  intros l Hl. destruct (Hc l Hl) as [HP Hamb]. split; [done|].
  intros Ha. by specialize (Hamb Ha).
Qed.

Lemma traced_silent P {A} (m : M A) :
  (∀ σ, trace (m σ).1 = trace σ ∧ unambiguous (m σ).2) → traced self P m.
Proof.
  intros Hm σ. destruct (Hm σ). exists []. split; [done|by apply next_ok_nil].
Qed.

Lemma traced_ret P {A} (a : A) : traced self P (ret a).
Proof. by apply traced_silent. Qed.

Lemma traced_raise P {A} e :
  e ≠ TypeError "set" → traced self P (raise (A:=A) e).
Proof. intros He. apply traced_silent. split; [done|]. intros [=]. done. Qed.

Lemma traced_lift P {A} (r : result A) : unambiguous r → traced self P (lift r).
Proof. intros Hr. by apply traced_silent. Qed.

Lemma traced_implies P cond1 cond2 : traced self P (implies cond1 cond2).
Proof.
  apply traced_silent. intros σ. unfold implies.
  by destruct (cachedImplication σ !! (cond1, cond2)).
Qed.

Lemma getitem_unambiguous `{Countable K} {V} (d : gmap K V) k :
  unambiguous (getitem d k).
Proof. unfold getitem. by destruct (d !! k). Qed.

Lemma first_unambiguous {A} (xs : list A) : unambiguous (first xs).
Proof. by destruct xs. Qed.

Lemma condition_of_unambiguous n : unambiguous (ast_inter.condition_of n).
Proof. by destruct n. Qed.

Lemma program_of_unambiguous n : unambiguous (ast_inter.program_of n).
Proof. by destruct n. Qed.

Lemma trivial_cases_unambiguous cases : unambiguous (trivial_cases cases).
Proof.
  induction cases as [|c cases IH]; simpl; [done|].
  destruct c; simpl; try done; case_decide; simpl; try done;
    by destruct (trivial_cases cases).
Qed.

Lemma traced_refines P statment node : traced self P (_refines self statment node).
Proof.
  apply traced_silent. intros σ. split; [by destruct statment|].
  destruct statment as [l|]; simpl; unfold getitem.
  - by destruct (compat σ !! l).
  - by destruct (state_to_node self !! node).
Qed.

Lemma traced_discard P l s : traced self P (discard l s).
Proof.
  apply traced_silent. intros σ. unfold discard. by destruct (compat σ !! l).
Qed.

Lemma traced_log P e :
  (∀ l, e ≠ EvNextStatement l) → traced self P (log e).
Proof.
  intros He σ. exists [e]. split; [done|]. split; [|done].
  intros l [Heq|Hl]%elem_of_cons; [by destruct (He l)|by apply elem_of_nil in Hl].
Qed.

Lemma traced_bind P {A B} (m : M A) (f : A → M B) :
  traced self P m → (∀ a, traced self P (f a)) → traced self P (bind m f).
Proof.
  intros Hm Hf σ. destruct (Hm σ) as (evs1 & Htr1 & Hok1). unfold bind.
  destruct (m σ) as [σ1 [a|e]]; simpl in *.
  2:{ exists evs1. split; [done|]. by apply (next_ok_raise P (A:=A)). }
  destruct (Hf a σ1) as (evs2 & Htr2 & Hok2).
  exists (evs2 ++ evs1). split; [by rewrite Htr2, Htr1, app_assoc|].
  by eapply next_ok_seq.
Qed.

Lemma traced_bind_lift P {A B} (r : result A) (f : A → M B) :
  unambiguous r →
  (∀ a, r = Ok a → traced self P (f a)) → traced self P (bind (lift r) f).
Proof.
  intros Hr Hf σ. unfold bind, lift. destruct r as [a|e]; [by apply Hf|].
  exists []. split; [done|]. apply next_ok_nil. intros [= ->]. done.
Qed.

Lemma traced_weaken (P Q : nat → Prop) {A} (m : M A) :
  (∀ l, P l → Q l) → traced self P m → traced self Q m.
Proof.
  intros HPQ Hm σ. destruct (Hm σ) as (evs & Htr & Hc & Hr). exists evs.
  split; [done|]. split; [|done]. intros l Hl. destruct (Hc l Hl). auto.
Qed.

Lemma traced_next P l : P l → traced self P (nextStatement ord self l).
Proof.
  intros HP σ. exists [EvNextStatement l]. unfold nextStatement.
  rewrite bind_log. unfold bind, lift, getitem. simpl.
  destruct (nextLabel self !! l) as [n|] eqn:Hn; simpl.
  - split; [by repeat case_decide|]. split.
    + intros l' [[= <-]|Hl]%elem_of_cons; [|by apply elem_of_nil in Hl].
      split; [done|]. intros (n' & Hn' & Hsize).
      assert (n' = n) by congruence. subst n'.
      repeat case_decide; simpl; try done; lia.
    + intros Hr. exists l. split; [by left|]. exists n. split; [done|].
      repeat case_decide; simpl in Hr; try done.
  - split; [done|]. split; [|done].
    intros l' [[= <-]|Hl]%elem_of_cons; [|by apply elem_of_nil in Hl].
    split; [done|]. intros (n' & Hn' & _). congruence.
Qed.

Lemma traced_any P {A} (f : A → M bool) xs :
  (∀ x, traced self P (f x)) → traced self P (any f xs).
Proof.
  intros Hf. induction xs as [|x xs IH]; simpl; [apply traced_ret|].
  apply traced_bind; [done|]. intros []; [apply traced_ret|done].
Qed.

Lemma traced_all P {A} (f : A → M bool) xs :
  (∀ x, traced self P (f x)) → traced self P (all f xs).
Proof.
  intros Hf. induction xs as [|x xs IH]; simpl; [apply traced_ret|].
  apply traced_bind; [done|]. intros []; [done|apply traced_ret].
Qed.

End calls.

Section callers.
Context {names : Str} `{Sympy} (ord : SetOrder) (self : Refinement).

Local Ltac quiet :=
  first
    [ apply getitem_unambiguous | apply first_unambiguous
    | apply condition_of_unambiguous | apply program_of_unambiguous
    | apply trivial_cases_unambiguous | discriminate ].

Lemma traced_for_ifComp P comps :
  traced self P
    ((fix for_ifComp (comps : list ast_inter.Node) : M bool :=
        match comps with
        | [] => ret true
        | ifComp :: comps' =>
            let* found :=
              (let* guarded_states := mode_guarded_states in
               any (λ gs : Cond * nat,
                      let* c := lift (ast_inter.condition_of ifComp) in
                      let* i := implies c gs.1 in
                      if i then
                        let* p := lift (ast_inter.program_of ifComp) in
                        _refines self (Some (ast_inter.get_label p)) gs.2
                      else ret false) guarded_states) in
            if found then for_ifComp comps' else ret false
        end) comps).
Proof.
  induction comps as [|c comps IH]; [apply traced_ret|].
  apply traced_bind; [|intros []; [apply IH|apply traced_ret]].
  apply traced_bind; [by apply traced_raise|]. intros gss.
  apply traced_any. intros gs.
  apply traced_bind; [apply traced_lift; quiet|]. intros cnd.
  apply traced_bind; [apply traced_implies|]. intros []; [|apply traced_ret].
  apply traced_bind; [apply traced_lift; quiet|]. intros p. apply traced_refines.
Qed.

Local Ltac traced_step HP :=
  first
    [ apply traced_ret | apply traced_raise; quiet | apply traced_lift; quiet
    | apply traced_implies | apply traced_refines
    | apply traced_for_ifComp
    | apply traced_next; by apply HP
    | apply traced_bind; [|intros ?]
    | apply traced_any; intros ?
    | apply traced_all; intros ?
    | case_decide
    | match goal with
      | |- traced _ _ (if ?b then _ else _) => destruct b
      | |- traced _ _ (match ?x with _ => _ end) => destruct x
      end ].

Lemma compatible_traced (P : nat → Prop) l s :
  (∀ node, programLabels self !! l = Some node → calls_next node = true → P l) →
  traced self P (compatible ord self l s).
Proof.
  intros HP. unfold compatible.
  apply traced_bind; [by apply traced_log|]. intros _.
  apply traced_bind_lift; [quiet|]. intros statment Hst.
  apply traced_bind_lift; [quiet|]. intros node _.
  assert (HP' : calls_next statment = true → P l).
  { apply HP. unfold getitem in Hst. by destruct (programLabels self !! l) as [?|]; simplify_eq. }
  clear HP Hst.
  destruct statment; destruct node; simpl in HP'; repeat traced_step HP'.
Qed.

Lemma for_states_traced l states : ∀ changed,
  traced self (caller self) (for_states ord self l states changed).
Proof.
  induction states as [|s states IH]; intros changed; [apply traced_ret|].
  simpl. apply traced_bind.
  { apply compatible_traced. intros node ??. by exists node. }
  intros []; [apply IH|].
  apply traced_bind; [by apply traced_log|]. intros _.
  apply traced_bind; [apply traced_discard|]. intros _. apply IH.
Qed.

Lemma for_labels_traced labels : ∀ changed,
  traced self (caller self) (for_labels ord self labels changed).
Proof.
  induction labels as [|l labels IH]; intros changed; [apply traced_ret|].
  simpl. apply traced_bind.
  { apply traced_silent. intros σ. split; [done|]. simpl. quiet. }
  intros X.
  apply traced_bind; [apply for_states_traced|]. intros changed'. apply IH.
Qed.

Lemma while_changed_traced fuel allLabels : ∀ σ σ' v,
  while_changed ord self fuel allLabels σ = Some (σ', v) →
  ∃ evs, trace σ' = evs ++ trace σ ∧ next_ok self (caller self) evs v.
Proof.
  induction fuel as [|fuel IH]; intros σ σ' v; [done|].
  simpl. unfold pass.
  destruct (for_labels_traced (iter ord allLabels) false σ) as (evs1 & Htr1 & Hok1).
  destruct (for_labels ord self (iter ord allLabels) false σ) as [σ1 [[]|e]];
    simpl in *.
  - intros Hrun. destruct (IH _ _ _ Hrun) as (evs2 & Htr2 & Hok2).
    exists (evs2 ++ evs1). split; [by rewrite Htr2, Htr1, app_assoc|].
    by eapply next_ok_seq.
  - intros [= <- <-]. exists evs1. split; [done|]. by eapply next_ok_ok.
  - intros [= <- <-]. exists evs1. split; [done|].
    by apply (next_ok_raise _ (caller self) (A:=bool)).
Qed.

Lemma check_traced σ σ' v :
  check ord self σ = Some (σ', v) →
  ∃ evs, trace σ' = evs ++ trace σ ∧ next_ok self (caller self) evs v.
Proof.
  unfold check, check_fuel.
  destruct (while_changed _ _ _ _ _) as [[σ1 v1]|] eqn:Hrun; [|done].
  destruct (while_changed_traced _ _ _ _ _ Hrun) as (evs & Htr & Hok).
  destruct v1 as [[]|e].
  - unfold verdict, bind, getitem.
    destruct (compat σ1 !! _) as [X|];
      intros [= <- <-]; exists evs; (split; [done|]).
    + by eapply next_ok_ok.
    + destruct Hok as [Hc _]. split; [|done].
      intros l Hl. destruct (Hc l Hl) as [HP Hamb]. split; [done|].
      intros Ha. by specialize (Hamb Ha).
  - intros [= <- <-]. exists evs. split; [done|].
    by apply (next_ok_raise _ (caller self) (A:=unit)).
Qed.

End callers.

(** * Results *)

Section results.
Context {names : Str} `{Sympy} (ord : SetOrder) (self : Refinement).

(** C2.  [check] always returns or raises, and when it returns a verdict
    the relation [compat] it ends with is the greatest relation between
    program labels and projection states that is closed under
    [compatible]; the verdict is [True] exactly when the projection's
    start state is related to the root label of the program by it. *)
Theorem check_greatest_fixpoint σ :
  ∃ σ' v,
    check ord self σ = Some (σ', v) ∧
    ∀ b, v = Ok b →
      greatest_closed ord self σ' (compat σ') ∧
      (b = true ↔
       ∃ X, compat σ' !! ast_inter.get_label (program self) = Some X ∧
            start_state (projection self) ∈ X).
Proof.
  destruct (check_run ord self σ) as (σ' & v & evs & Hrun & Hst & _ & Hv).
  exists σ', v. split; [done|]. intros b Hb.
  destruct (Hv b Hb) as (Hclosed & X & HX & ->).
  pose proof (step_answers _ _ _ _ _ _ Hst) as Hσ'.
  pose proof (step_dom _ _ _ _ _ _ Hst) as Hdom. simpl in Hdom.
  unfold universal in Hdom. rewrite dom_gset_to_gmap in Hdom.
  split; [split_and!|].
  - apply below_inside; [done|]. apply (step_below _ _ _ _ _ _ Hst).
  - by apply (closed_closed_on ord self (imp σ)).
  - intros R HR HRc. apply (step_closed _ _ _ _ _ _ Hst).
    + by apply (closed_closed_on ord self (imp σ) σ').
    + by apply inside_below.
  - rewrite bool_decide_eq_true. split; [eauto|].
    intros (X' & HX' & ?). congruence.
Qed.

(** C3.  The loop of [check] ends within its budget of passes, the
    relation it ends with is included in the universal relation it
    started from, and at most [|L| * |S|] pairs are removed over all
    passes. *)
Theorem check_terminates σ :
  ∃ σ' v evs,
    check ord self σ = Some (σ', v) ∧
    trace σ' = evs ++ trace σ ∧
    below (compat σ')
      (universal (dom (programLabels self)) (dom (state_to_node self))) ∧
    removals evs
      ≤ size (dom (programLabels self)) * size (dom (state_to_node self)).
Proof.
  destruct (check_run ord self σ) as (σ' & v & evs & Hrun & Hst & _ & _).
  exists σ', v, evs. split_and!; [done|apply Hst|apply Hst|].
  pose proof (step_total _ _ _ _ _ _ Hst) as Ht. simpl in Ht.
  rewrite total_universal in Ht. lia.
Qed.

(** C4.  A pass never adds a pair: for every label [l], [compat[l]]
    after the pass is included in [compat[l]] before it, hence never a
    proper superset of it, and the labels stay the same. *)
Theorem pass_only_shrinks allLabels σ :
  dom (compat (pass ord self allLabels σ).1) = dom (compat σ) ∧
  ∀ l, compat (pass ord self allLabels σ).1 !!! l ⊆ compat σ !!! l ∧
       ¬ ((compat σ !!! l) ⊂ (compat (pass ord self allLabels σ).1 !!! l)).
Proof.
  unfold pass.
  destruct (for_labels_run ord self (imp σ) (iter ord allLabels) false σ)
    as (σ' & v & evs & Hrun & Hst & _); [done|apply iter_NoDup|].
  rewrite Hrun. simpl. split; [apply Hst|].
  assert (Hsub : ∀ l, compat σ' !!! l ⊆ compat σ !!! l).
  { intros l. rewrite !lookup_total_alt.
    destruct (compat σ' !! l) as [X'|] eqn:HX'; simpl; [|set_solver].
    destruct (step_below _ _ _ _ _ _ Hst _ _ HX') as (X & -> & ?). done. }
  intros l. split; [done|]. intros [_ Hnot]. by apply Hnot.
Qed.

(** C5, amended.  [check] evaluates [compatible] at most [N (N + 1) / 2]
    times, where [N = |L| * |S|]: a pass evaluates the pairs still
    related, and every pass but the last removes at least one. *)
Theorem check_evaluations_quadratic σ :
  ∃ σ' v evs,
    check ord self σ = Some (σ', v) ∧
    trace σ' = evs ++ trace σ ∧
    2 * evaluations evs
      ≤ (size (dom (programLabels self)) * size (dom (state_to_node self)))
        * (size (dom (programLabels self)) * size (dom (state_to_node self)) + 1).
Proof.
  destruct (check_run ord self σ) as (σ' & v & evs & Hrun & Hst & Hev & _).
  exists σ', v, evs. split_and!; [done|apply Hst|done].
Qed.

(** C6.  A label without successor has successor [None], which
    [_refines] takes for the end of the program (the state must be
    [End]).  On a label with more than one successor [nextStatement]
    does not reach its [raise]: building the message adds the set of
    successors to a string, and the call is left by the [TypeError] of
    that addition for every store, never by an [Exception] carrying the
    message about ambiguous successors; a run of [check] that asks for
    the successor of such a label ends with that [TypeError] and no
    verdict. *)
Theorem ambiguous_successor_raises_TypeError l n :
  nextLabel self !! l = Some n →
  (size n = 0 →
     ∀ σ, (nextStatement ord self l σ).2 = Ok None ∧
          ∀ s node, state_to_node self !! s = Some node →
            (_refines self None s σ).2 = Ok (ast_proj.is_End node)) ∧
  (1 < size n →
     (∀ σ, (nextStatement ord self l σ).2 = Raise (TypeError "set") ∧
           ∀ message, (nextStatement ord self l σ).2 ≠ Raise (Exception message)) ∧
     ∀ σ σ' v evs,
       check ord self σ = Some (σ', v) → trace σ' = evs ++ trace σ →
       EvNextStatement l ∈ evs →
       v = Raise (TypeError "set") ∧ ∀ message, v ≠ Raise (Exception message)).
Proof.
  intros Hn. split.
  - intros Hsize σ. split.
    + unfold nextStatement. rewrite bind_log.
      unfold bind, lift, getitem. simpl. rewrite Hn. by case_decide.
    + intros s node Hs. unfold _refines, getitem. simpl. by rewrite Hs.
  - intros Hsize.
    assert (∀ σ, (nextStatement ord self l σ).2 = Raise (TypeError "set")) as Hnext.
    { intros σ. unfold nextStatement. rewrite bind_log.
      unfold bind, lift, getitem. simpl. rewrite Hn.
      repeat case_decide; try done; lia. }
    split.
    + intros σ. split; [done|]. intros message. by rewrite Hnext.
    + intros σ σ' v evs Hrun Htr Hl.
      destruct (check_traced ord self _ _ _ Hrun) as (evs' & Htr' & Hc & _).
      rewrite Htr in Htr'. apply app_inv_tail in Htr'. subst evs'.
      assert (v = Raise (TypeError "set")) as ->.
      { apply (Hc l Hl). by exists n. }
      split; [done|]. by intros message.
Qed.

(** C9.  When the node at [l] is a [Receive] or an [If] (or any node
    outside the eight kinds of [calls_next]), [compatible(l, s)] makes no
    call of [nextStatement] and does not raise the exception of line 88, and
    no run of [check] asks for the successor of [l]; every call of
    [nextStatement] in a run of [check] is on a label whose node is a
    Motion, Assign, While, Send, Action, Print, Skip or Statement, and a
    run raises that exception only at such a label. *)
Theorem nextStatement_callers l node :
  programLabels self !! l = Some node → calls_next node = false →
  (∀ s σ, ∃ evs,
     trace (compatible ord self l s σ).1 = evs ++ trace σ ∧
     (∀ l', EvNextStatement l' ∉ evs) ∧
     (compatible ord self l s σ).2 ≠ Raise (TypeError "set")) ∧
  (∀ σ σ' v evs,
     check ord self σ = Some (σ', v) → trace σ' = evs ++ trace σ →
     (EvNextStatement l ∉ evs) ∧
     (∀ l', EvNextStatement l' ∈ evs → caller self l') ∧
     (v = Raise (TypeError "set") →
      ∃ l', EvNextStatement l' ∈ evs ∧ caller self l' ∧ ambiguous self l')).
Proof.
  intros Hnode Hkind. split.
  - intros s σ.
    destruct (compatible_traced ord self (λ _, False) l s) with (σ := σ)
      as (evs & Htr & Hc & Hr).
    { intros node' Hnode'. assert (node' = node) by congruence. subst.
      by rewrite Hkind. }
    exists evs. split_and!; [done| |].
    + intros l' Hl'. by destruct (Hc l' Hl').
    + intros Hamb. destruct (Hr Hamb) as (l' & Hl' & _). by destruct (Hc l' Hl').
  - intros σ σ' v evs Hrun Htr.
    destruct (check_traced ord self _ _ _ Hrun) as (evs' & Htr' & Hc & Hr).
    rewrite Htr in Htr'. apply app_inv_tail in Htr'. subst evs'. split_and!.
    + intros Hl. destruct (Hc l Hl) as [(node' & Hnode' & Hk) _].
      assert (node' = node) by congruence. subst. congruence.
    + intros l' Hl'. by destruct (Hc l' Hl').
    + intros Hv. destruct (Hr Hv) as (l' & Hl' & Ha). exists l'.
      split_and!; [done| |done]. by destruct (Hc l' Hl').
Qed.

(** C10.  [check] overwrites [compat] with the universal relation before
    it iterates: the loop starts in the store whose [compat] maps every
    label of the program to the set of all states of the projection, and
    no other label to anything, so the relation found at entry does not
    matter; a second call on the store left by the first gives the same
    verdict (or the same exception); the cache is kept from call to call
    and only grows. *)
Theorem check_twice σ :
  ∃ σ1 σ2 v U,
    check ord self σ = Some (σ1, v) ∧
    check ord self σ1 = Some (σ2, v) ∧
    cachedImplication σ ⊆ cachedImplication σ1 ∧
    cachedImplication σ1 ⊆ cachedImplication σ2 ∧
    (∀ C, check ord self (set_compat C σ) = check ord self σ) ∧
    (∀ l, U !! l = if decide (l ∈ dom (programLabels self))
                   then Some (dom (state_to_node self)) else None) ∧
    (∀ σ0, compat (set_compat U σ0) = U ∧
           cachedImplication (set_compat U σ0) = cachedImplication σ0 ∧
           check ord self σ0
           = match while_changed ord self (budget self)
                     (dom (programLabels self)) (set_compat U σ0) with
             | None => None
             | Some (σ', Ok _) => Some (verdict self σ')
             | Some (σ', Raise e) => Some (σ', Raise e)
             end).
Proof.
  destruct (check_run ord self σ) as (σ1 & v & evs & Hrun & Hst & _).
  destruct (check_run ord self σ1) as (σ2 & v2 & evs2 & Hrun2 & Hst2 & _).
  assert (v = v2) as <-.
  { pose proof (check_alike ord self (imp σ) σ σ1) as Hsame.
    rewrite Hrun, Hrun2 in Hsame. apply Hsame; [done|apply Hst]. }
  exists σ1, σ2, v,
    (universal (dom (programLabels self)) (dom (state_to_node self))).
  split_and!; [done|done|apply Hst|apply Hst2|done| |done].
  intros l. case_decide as Hl.
  - by apply universal_lookup.
  - destruct (universal _ _ !! l) as [X|] eqn:HX; [|done].
    apply universal_lookup in HX as [? _]. done.
Qed.

End results.

(** * Names *)

Section names.
Context {names : Str}.

Local Open Scope string_scope.

Lemma length_app s t :
  String.length (s ++ t) = String.length s + String.length t.
Proof. induction s as [|c s IH]; simpl; [done | by rewrite IH]. Qed.

Lemma sameMpName_spec n1 n2 :
  sameMpName n1 n2 = true ↔ lower n1 = lower n2 ∨ lower n1 = "m_" ++ lower n2.
Proof.
  unfold sameMpName. rewrite orb_true_iff, !bool_decide_eq_true. done.
Qed.

Lemma sameMsgName_spec n1 n2 :
  sameMsgName n1 n2 = true ↔ lower n1 = lower n2 ∨ lower n1 = "msg_" ++ lower n2.
Proof.
  unfold sameMsgName. rewrite orb_true_iff, !bool_decide_eq_true. done.
Qed.

(** On ASCII names the two methods are computed by [PyStr.lower]. *)
Lemma sameMpName_isascii n1 n2 :
  PyStr.isascii n1 = true → PyStr.isascii n2 = true →
  sameMpName n1 n2
  = bool_decide (PyStr.lower n1 = PyStr.lower n2)
    || bool_decide (PyStr.lower n1 = "m_" ++ PyStr.lower n2).
Proof. intros H1 H2. unfold sameMpName. by rewrite !lower_isascii. Qed.

Lemma sameMsgName_isascii n1 n2 :
  PyStr.isascii n1 = true → PyStr.isascii n2 = true →
  sameMsgName n1 n2
  = bool_decide (PyStr.lower n1 = PyStr.lower n2)
    || bool_decide (PyStr.lower n1 = "msg_" ++ PyStr.lower n2).
Proof. intros H1 H2. unfold sameMsgName. by rewrite !lower_isascii. Qed.

Example sameMpName_ex1 : sameMpName "m_Idle" "idle" = true.
Proof. by rewrite sameMpName_isascii. Qed.

Example sameMpName_ex2 : sameMpName "idle" "m_idle" = false.
Proof. by rewrite sameMpName_isascii. Qed.

Example sameMsgName_ex1 : sameMsgName "MSG_ok" "OK" = true.
Proof. by rewrite sameMsgName_isascii. Qed.

Lemma prefixed_differs (p s : string) : 0 < String.length p → s ≠ p ++ s.
Proof.
  intros Hp Heq. apply (f_equal String.length) in Heq.
  rewrite length_app in Heq. lia.
Qed.

(** C8, amended.  For all names, whatever their characters,
    [sameMpName n1 n2] holds exactly when the images of the two names
    under [str.lower()] are equal or the image of [n1] is ["m_"]
    followed by the image of [n2]; likewise [sameMsgName] with
    ["msg_"]; a name with the prefix is accepted for the name without
    it, never the other way round. *)
Theorem same_name_rules n1 n2 :
  (sameMpName n1 n2 = true ↔ lower n1 = lower n2 ∨ lower n1 = "m_" ++ lower n2) ∧
  (sameMsgName n1 n2 = true ↔ lower n1 = lower n2 ∨ lower n1 = "msg_" ++ lower n2) ∧
  sameMpName ("m_" ++ n2) n2 = true ∧ sameMpName n2 ("m_" ++ n2) = false ∧
  sameMsgName ("msg_" ++ n2) n2 = true ∧ sameMsgName n2 ("msg_" ++ n2) = false.
Proof.
  split_and!.
  - apply sameMpName_spec.
  - apply sameMsgName_spec.
  - apply sameMpName_spec. right. apply lower_m_.
  - apply not_true_is_false. rewrite sameMpName_spec, !lower_m_.
    intros [Heq|Heq]; revert Heq.
    + apply prefixed_differs. simpl. lia.
    + apply (prefixed_differs "m_m_"). simpl. lia.
  - apply sameMsgName_spec. right. apply lower_msg_.
  - apply not_true_is_false. rewrite sameMsgName_spec, !lower_msg_.
    intros [Heq|Heq]; revert Heq.
    + apply prefixed_differs. simpl. lia.
    + apply (prefixed_differs "msg_msg_"). simpl. lia.
Qed.

End names.

(** C8, as stated, fails: the prefixed form is compared after both names
    are put in lower case, so ["M_a"] is accepted for ["a"] although it
    is neither equal to it up to case nor equal to ["m_a"]. *)
Lemma sameMpName_prefix_ignores_case :
  (∀ names : Str, sameMpName "M_a" "a" = true) ∧
  (∀ names : Str, ¬ (lower "M_a" = lower "a" ∨ "M_a" = "m_" ++ "a")%string).
Proof.
  split; intros names.
  - by rewrite sameMpName_isascii.
  - rewrite !lower_isascii by done. intros [?|?]; discriminate.
Qed.

(** * Concrete runs *)

Example if_refinement_built :
  __init__ if_program if_projection = Ok if_refinement.
Proof. vm_compute. reflexivity. Qed.

Example shared_refinement_built :
  __init__ shared_program end_projection = Ok shared_refinement.
Proof. vm_compute. reflexivity. Qed.

Example receive_refinement_built :
  __init__ receive_program receive_projection = Ok receive_refinement.
Proof. vm_compute. reflexivity. Qed.

Example receive_refines :
  snd <$> check ascending receive_refinement fresh = Some (Ok true).
Proof. vm_compute. reflexivity. Qed.

Example receive_successors :
  nextLabel receive_refinement !! 1 = Some {[2; 3]}.
Proof. vm_compute. reflexivity. Qed.

Example last_label_has_no_successor :
  nextLabel shared_refinement !! 3 = Some ∅ ∧
  (nextStatement ascending shared_refinement 3 fresh).2 = Ok None.
Proof. split; vm_compute; reflexivity. Qed.

Example shared_fails :
  snd <$> check ascending shared_refinement fresh = Some (Raise (TypeError "set")).
Proof. vm_compute. reflexivity. Qed.

Example exit_refines_end : verdict_of exit_program end_projection = Some (Ok true).
Proof. vm_compute. reflexivity. Qed.

Example exit_refines_no_motion :
  verdict_of exit_program idle_projection = Some (Ok false).
Proof. vm_compute. reflexivity. Qed.

Example send_refines_go :
  verdict_of send_program (send_projection "Go") = Some (Ok true).
Proof. vm_compute. reflexivity. Qed.

Example send_refines_no_stop :
  verdict_of send_program (send_projection "Stop") = Some (Ok false).
Proof. vm_compute. reflexivity. Qed.

Example loop_refines :
  verdict_of loop_program (loop_projection x_holds x_fails) = Some (Ok true).
Proof. vm_compute. reflexivity. Qed.

Example loop_refines_not_swapped :
  verdict_of loop_program (loop_projection x_fails x_holds) = Some (Ok false).
Proof. vm_compute. reflexivity. Qed.

Lemma compatible_If_GuardedChoice_NameError {names : Str} `{Sympy} ord self σ l s lbl c cs gs :
  programLabels self !! l = Some (ast_inter.If lbl (c :: cs)) →
  state_to_node self !! s = Some (ast_proj.GuardedChoice gs) →
  (compatible ord self l s σ).2 = Raise NameError.
Proof.
  intros Hl Hs. unfold compatible. rewrite bind_log.
  unfold bind, lift, getitem. simpl. by rewrite Hl, Hs.
Qed.

(** C1.  At an [If] with one branch and a guarded choice that the table
    row accepts, [compatible] raises instead of returning: the name
    [mode] of line 139 is unbound.  The whole [check] ends with that
    exception. *)
Theorem If_GuardedChoice_raises :
  If_GuardedChoice_row (at_entry if_refinement) [(S_true, 2)] [(S_true, 1)] = true ∧
  (compatible ascending if_refinement 0 0 (at_entry if_refinement)).2
    = Raise NameError ∧
  snd <$> check ascending if_refinement fresh = Some (Raise NameError).
Proof. split_and!; vm_compute; reflexivity. Qed.

(** C6, at the sequence with a shared node: label 1 has the two
    successors 2 and 3. *)
Lemma ambiguous_successor_raises_TypeError_witness :
  nextLabel shared_refinement !! 1 = Some {[2; 3]} ∧
  1 < size ({[2; 3]} : gset nat) ∧
  (∀ σ, (nextStatement ascending shared_refinement 1 σ).2 = Raise (TypeError "set") ∧
        ∀ message,
          (nextStatement ascending shared_refinement 1 σ).2 ≠ Raise (Exception message)) ∧
  (∀ σ σ' v evs,
     check ascending shared_refinement σ = Some (σ', v) →
     trace σ' = evs ++ trace σ →
     EvNextStatement 1 ∈ evs →
     v = Raise (TypeError "set") ∧ ∀ message, v ≠ Raise (Exception message)).
Proof.
  assert (nextLabel shared_refinement !! 1 = Some {[2; 3]}) as Hn
    by (vm_compute; reflexivity).
  assert (1 < size ({[2; 3]} : gset nat)) as Hsize by (vm_compute; lia).
  split; [exact Hn|]. split; [exact Hsize|].
  exact (proj2 (ambiguous_successor_raises_TypeError
                  ascending shared_refinement 1 {[2; 3]} Hn) Hsize).
Defined.

(** C9, at the receive whose label has two successors. *)
Lemma nextStatement_callers_witness :
  programLabels receive_refinement !! 1 = Some receive_node ∧
  calls_next receive_node = false ∧
  (∀ s σ, ∃ evs,
     trace (compatible ascending receive_refinement 1 s σ).1 = evs ++ trace σ ∧
     (∀ l', EvNextStatement l' ∉ evs) ∧
     (compatible ascending receive_refinement 1 s σ).2
       ≠ Raise (TypeError "set")) ∧
  (∀ σ σ' v evs,
     check ascending receive_refinement σ = Some (σ', v) →
     trace σ' = evs ++ trace σ →
     (EvNextStatement 1 ∉ evs) ∧
     (∀ l', EvNextStatement l' ∈ evs → caller receive_refinement l') ∧
     (v = Raise (TypeError "set") →
      ∃ l', EvNextStatement l' ∈ evs ∧ caller receive_refinement l' ∧
            ambiguous receive_refinement l')).
Proof.
  split; [vm_compute; reflexivity|]. split; [reflexivity|].
  apply (nextStatement_callers ascending receive_refinement 1 receive_node);
    [vm_compute; reflexivity|reflexivity].
Defined.

(** C2, at the receive: the run returns [True] and ends with the greatest
    closed relation, which relates the start state to the root label. *)
Lemma check_greatest_fixpoint_witness :
  ∃ σ',
    check ascending receive_refinement fresh = Some (σ', Ok true) ∧
    greatest_closed ascending receive_refinement σ' (compat σ') ∧
    (true = true ↔
     ∃ X, compat σ' !! ast_inter.get_label (program receive_refinement) = Some X ∧
          start_state (projection receive_refinement) ∈ X).
Proof.
  destruct (check_greatest_fixpoint ascending receive_refinement fresh)
    as (σ' & v & Hrun & Hv).
  assert (Hverdict : snd <$> check ascending receive_refinement fresh
                     = Some (Ok true)) by (vm_compute; reflexivity).
  rewrite Hrun in Hverdict. simpl in Hverdict. injection Hverdict as ->.
  exists σ'. split; [done|]. by apply Hv.
Defined.

(** * The control-flow automaton of a [Receive] *)

Section cfa_facts.
Context {names : Str} `{Sympy}.

Lemma rbind_Ok {A B} (a : A) (f : A → result B) : rbind (Ok a) f = f a.
Proof. done. Qed.

Lemma rbind_ok {A B} (m : result A) (f : A → result B) b :
  rbind m f = Ok b → ∃ a, m = Ok a ∧ f a = Ok b.
Proof. destruct m as [a|e]; simpl; [eauto|done]. Qed.

(** Induction on syntax trees, with the hypothesis on every element of
    the lists of children. *)
Lemma Node_induction (P : ast_inter.Node → Prop) :
  (∀ l children, Forall P children → P (ast_inter.Statement l children)) →
  (∀ l motion actions, P motion → Forall P actions →
     P (ast_inter.Receive l motion actions)) →
  (∀ l t program, P program → P (ast_inter.Action l t program)) →
  (∀ l if_list, Forall P if_list → P (ast_inter.If l if_list)) →
  (∀ l c program, P program → P (ast_inter.IfComponent l c program)) →
  (∀ l c program, P program → P (ast_inter.While l c program)) →
  (∀ l v, P (ast_inter.Motion l v)) →
  (∀ l, P (ast_inter.Assign l)) →
  (∀ l c t, P (ast_inter.Send l c t)) →
  (∀ l, P (ast_inter.Print l)) →
  (∀ l, P (ast_inter.Skip l)) →
  (∀ l, P (ast_inter.Exit l)) →
  ∀ n, P n.
Proof.
  intros HStatement HReceive HAction HIf HIfComponent HWhile HMotion HAssign
    HSend HPrint HSkip HExit.
  fix IH 1. intros [l cs|l m acts|l t p|l cs|l c p|l c p|l v|l|l c t|l|l|l].
  - apply HStatement. induction cs as [|c cs IHcs]; constructor; [apply IH|done].
  - apply HReceive; [apply IH|].
    induction acts as [|c cs IHcs]; constructor; [apply IH|done].
  - apply HAction, IH.
  - apply HIf. induction cs as [|c cs IHcs]; constructor; [apply IH|done].
  - apply HIfComponent, IH.
  - apply HWhile, IH.
  - apply HMotion.
  - apply HAssign.
  - apply HSend.
  - apply HPrint.
  - apply HSkip.
  - apply HExit.
Qed.

Lemma add_edges_grows ls l : ∀ nl nl',
  add_edges ls l nl = Ok nl' →
  below nl nl' ∧ ∀ p, p ∈ ls → ∃ X, nl' !! p = Some X ∧ l ∈ X.
Proof.
  induction ls as [|p ls IH]; intros nl nl'; simpl.
  { intros [= <-]. split; [apply below_refl|]. intros p Hp. by apply elem_of_nil in Hp. }
  intros (n & Hn & Hrest)%rbind_ok. unfold getitem in Hn.
  destruct (nl !! p) as [X|] eqn:HX; simplify_eq.
  destruct (IH _ _ Hrest) as [Hb Hin].
  assert (Hstep : below nl (<[p := n ∪ {[l]}]> nl)).
  { intros k Y HY. destruct (decide (p = k)) as [<-|Hne].
    - rewrite lookup_insert_eq. eexists. split; [done|]. simplify_eq.
      apply union_subseteq_l.
    - rewrite lookup_insert_ne by done. eauto. }
  split; [by eapply below_trans|].
  intros q [->|Hq]%elem_of_cons; [|by apply Hin].
  destruct (Hb p (n ∪ {[l]})) as (X' & HX' & Hsub); [by rewrite lookup_insert_eq|].
  exists X'. split; [done|]. apply Hsub, elem_of_union_r. by apply elem_of_singleton.
Qed.

Lemma buildCFA_entry lastLabels statment nl :
  buildCFA lastLabels statment nl =
    let! nl := add_edges (elements lastLabels) (ast_inter.get_label statment) nl in
    buildCFA ∅ statment nl.
Proof.
  destruct (add_edges (elements lastLabels) (ast_inter.get_label statment) nl)
    as [nl1|e] eqn:Hadd.
  - destruct statment; simpl in *; rewrite Hadd; simpl; by rewrite elements_empty.
  - destruct statment; simpl in *; by rewrite Hadd.
Qed.

Lemma buildCFA_Statement l children nl :
  buildCFA ∅ (ast_inter.Statement l children) nl
    = build_children children {[l]} nl.
Proof.
  simpl. rewrite elements_empty. simpl. generalize ({[l]} : gset nat).
  revert nl. induction children as [|c cs IH]; intros nl last; simpl; [done|].
  destruct (buildCFA last c nl) as [[nl' last']|e]; simpl; [apply IH|done].
Qed.

Lemma each_loop_eq lastLabel nodes : ∀ acc nl,
  (fix loop (acts : list ast_inter.Node) (acc : gset nat)
       (nl : gmap nat (gset nat)) :=
     match acts with
     | [] => Ok (nl, acc)
     | i :: acts' =>
         let! (nl', ls) := buildCFA lastLabel i nl in
         loop acts' (acc ∪ ls) nl'
     end) nodes acc nl
  = build_each lastLabel nodes acc nl.
Proof.
  induction nodes as [|c cs IH]; intros acc nl; simpl; [done|].
  destruct (buildCFA lastLabel c nl) as [[nl' ls]|e]; simpl; [apply IH|done].
Qed.

Lemma Receive_after_entry l motion actions nl :
  buildCFA ∅ (ast_inter.Receive l motion actions) nl =
    let! (nl, ls2) := buildCFA {[l]} motion nl in
    let! nl := add_edges (elements ls2) l nl in
    build_each {[l]} actions ∅ nl.
Proof.
  simpl. rewrite elements_empty. simpl.
  destruct (buildCFA {[l]} motion nl) as [[nl1 ls2]|e]; simpl; [|done].
  destruct (add_edges (elements ls2) l nl1) as [nl2|e]; simpl; [|done].
  apply each_loop_eq.
Qed.

Lemma buildCFA_If l if_list nl :
  buildCFA ∅ (ast_inter.If l if_list) nl = build_each {[l]} if_list ∅ nl.
Proof. simpl. rewrite elements_empty. simpl. apply each_loop_eq. Qed.

Lemma buildCFA_grows statment : ∀ lastLabels nl nl' exits,
  buildCFA lastLabels statment nl = Ok (nl', exits) → below nl nl'.
Proof.
  induction statment as
    [l cs IH|l m acts IHm IH|l t p IH|l cs IH|l c p IH|l c p IH|l v|l|l c t|l|l|l]
    using Node_induction;
    intros lastLabels nl nl' exits; rewrite buildCFA_entry;
    intros (nl1 & [Hb1 _]%add_edges_grows & Hrest)%rbind_ok;
    (eapply below_trans; [exact Hb1|]); clear Hb1; revert Hrest.
  - rewrite buildCFA_Statement. generalize ({[l]} : gset nat).
    revert nl1. induction IH as [|c cs Hc _ IHcs]; intros nl1 last; simpl.
    { intros [= <- <-]. apply below_refl. }
    intros ([nl2 last2] & Hc2 & Hrest)%rbind_ok.
    eapply below_trans; [by eapply Hc|by eapply IHcs].
  - rewrite Receive_after_entry.
    intros ([nl2 ls2] & Hm & (nl3 & [Hb3 _]%add_edges_grows & Hrest)%rbind_ok)%rbind_ok.
    eapply below_trans; [by eapply IHm|]. eapply below_trans; [exact Hb3|].
    clear Hb3 Hm. revert Hrest. generalize (∅ : gset nat).
    revert nl3. induction IH as [|c cs Hc _ IHcs]; intros nl3 acc; simpl.
    { intros [= <- <-]. apply below_refl. }
    intros ([nl4 ls] & Hc4 & Hrest)%rbind_ok.
    eapply below_trans; [by eapply Hc|by eapply IHcs].
  - simpl. rewrite elements_empty. simpl. apply IH.
  - rewrite buildCFA_If. generalize (∅ : gset nat).
    revert nl1. induction IH as [|c cs Hc _ IHcs]; intros nl1 acc; simpl.
    { intros [= <- <-]. apply below_refl. }
    intros ([nl2 ls] & Hc2 & Hrest)%rbind_ok.
    eapply below_trans; [by eapply Hc|by eapply IHcs].
  - simpl. rewrite elements_empty. simpl. apply IH.
  - simpl. rewrite elements_empty. simpl.
    intros ([nl2 ls2] & Hp & (nl3 & [Hb3 _]%add_edges_grows & [= <- <-])%rbind_ok)%rbind_ok.
    eapply below_trans; [by eapply IH|done].
  - simpl. rewrite elements_empty. simpl. intros [= <- <-]. apply below_refl.
  - simpl. rewrite elements_empty. simpl. intros [= <- <-]. apply below_refl.
  - simpl. rewrite elements_empty. simpl. intros [= <- <-]. apply below_refl.
  - simpl. rewrite elements_empty. simpl. intros [= <- <-]. apply below_refl.
  - simpl. rewrite elements_empty. simpl. intros [= <- <-]. apply below_refl.
  - simpl. rewrite elements_empty. simpl. intros [= <- <-]. apply below_refl.
Qed.

Lemma buildCFA_connects lastLabels statment nl nl' exits :
  buildCFA lastLabels statment nl = Ok (nl', exits) →
  ∀ p, p ∈ lastLabels →
    ∃ X, nl' !! p = Some X ∧ ast_inter.get_label statment ∈ X.
Proof.
  rewrite buildCFA_entry.
  intros (nl1 & [_ Hin]%add_edges_grows & Hrest%buildCFA_grows)%rbind_ok p Hp.
  destruct (Hin p) as (X & HX & Hl); [by apply elem_of_elements|].
  destruct (Hrest _ _ HX) as (X' & HX' & Hsub). exists X'. split; [done|].
  by apply Hsub.
Qed.

Lemma build_each_grows lastLabel nodes : ∀ acc nl nl' exits,
  build_each lastLabel nodes acc nl = Ok (nl', exits) →
  below nl nl' ∧ acc ⊆ exits ∧
  ∀ i p, i ∈ nodes → p ∈ lastLabel →
    ∃ X, nl' !! p = Some X ∧ ast_inter.get_label i ∈ X.
Proof.
  induction nodes as [|c cs IH]; intros acc nl nl' exits; simpl.
  { intros [= <- <-]. split_and!; [apply below_refl|done|].
    intros i p Hi. by apply elem_of_nil in Hi. }
  intros ([nl1 ls] & Hc & Hrest)%rbind_ok.
  destruct (IH _ _ _ _ Hrest) as (Hb & Hacc & Hin).
  split_and!.
  - eapply below_trans; [by eapply buildCFA_grows|done].
  - etrans; [apply union_subseteq_l|done].
  - intros i p [->|Hi]%elem_of_cons Hp; [|by eapply Hin].
    destruct (buildCFA_connects _ _ _ _ _ Hc p Hp) as (X & HX & Hl).
    destruct (Hb _ _ HX) as (X' & HX' & Hsub). exists X'. split; [done|].
    by apply Hsub.
Qed.

End cfa_facts.

Section receive_cfa.
Context {names : Str} `{Sympy}.

(** C7, amended.  For [Receive(motion, actions)] with label [l],
    [buildCFA] connects the incoming predecessors to [l], recurses into
    the motion with [l] as sole predecessor, connects every exit label of
    the motion back to [l], recurses into each action with [l] as sole
    predecessor and returns the union of the actions' exit sets.  When it
    succeeds, the automaton has the edges from every predecessor to [l],
    from [l] to the entry of the motion and of each action, and from each
    exit of the motion to [l]. *)
Theorem buildCFA_Receive lastLabels l motion actions nl :
  buildCFA lastLabels (ast_inter.Receive l motion actions) nl =
    (let! nl := add_edges (elements lastLabels) l nl in
     let! (nl, ls2) := buildCFA {[l]} motion nl in
     let! nl := add_edges (elements ls2) l nl in
     build_each {[l]} actions ∅ nl) ∧
  ∀ nl' exits,
    buildCFA lastLabels (ast_inter.Receive l motion actions) nl = Ok (nl', exits) →
    ∃ nl1 nl2 ls2,
      add_edges (elements lastLabels) l nl = Ok nl1 ∧
      buildCFA {[l]} motion nl1 = Ok (nl2, ls2) ∧
      (∀ p, p ∈ lastLabels → ∃ X, nl' !! p = Some X ∧ l ∈ X) ∧
      (∃ X, nl' !! l = Some X ∧ ast_inter.get_label motion ∈ X ∧
            ∀ a, a ∈ actions → ast_inter.get_label a ∈ X) ∧
      (∀ e, e ∈ ls2 → ∃ X, nl' !! e = Some X ∧ l ∈ X).
Proof.
  assert (Heq : buildCFA lastLabels (ast_inter.Receive l motion actions) nl =
    (let! nl := add_edges (elements lastLabels) l nl in
     let! (nl, ls2) := buildCFA {[l]} motion nl in
     let! nl := add_edges (elements ls2) l nl in
     build_each {[l]} actions ∅ nl)).
  { rewrite buildCFA_entry. simpl ast_inter.get_label.
    destruct (add_edges (elements lastLabels) l nl) as [nl1|e]; simpl; [|done].
    apply Receive_after_entry. }
  split; [done|]. intros nl' exits Hrun.
  pose proof (buildCFA_connects _ _ _ _ _ Hrun) as Hpred. simpl in Hpred.
  rewrite Heq in Hrun.
  apply rbind_ok in Hrun as (nl1 & Hadd1 & Hrun).
  apply rbind_ok in Hrun as ([nl2 ls2] & Hmotion & Hrun).
  apply rbind_ok in Hrun as (nl3 & Hadd3 & Hacts).
  destruct (add_edges_grows _ _ _ _ Hadd3) as [Hb3 Hback].
  destruct (build_each_grows _ _ _ _ _ _ Hacts) as (Hb4 & _ & Hentry).
  exists nl1, nl2, ls2. split_and!; [done|done|done| |].
  - destruct (buildCFA_connects _ _ _ _ _ Hmotion l) as (X2 & HX2 & Hm2);
      [by apply elem_of_singleton|].
    destruct (Hb3 _ _ HX2) as (X3 & HX3 & Hsub3).
    destruct (Hb4 _ _ HX3) as (X4 & HX4 & Hsub4).
    exists X4. split_and!; [done|by apply Hsub4, Hsub3|].
    intros a Ha. destruct (Hentry a l Ha) as (X & HX & Hin);
      [by apply elem_of_singleton|]. congruence.
  - intros e He. destruct (Hback e) as (X3 & HX3 & Hl3); [by apply elem_of_elements|].
    destruct (Hb4 _ _ HX3) as (X4 & HX4 & Hsub4). exists X4.
    split; [done|by apply Hsub4].
Qed.

End receive_cfa.

(** C7, as stated, fails: the motion is entered from the label of the
    [Receive], not from the incoming predecessor.  The code leaves the
    predecessor 0 with the single successor 1 and gives 1 the successors
    2 (the motion) and 3 (the action); entering the motion from the
    predecessors would give 0 the successors 1 and 2. *)
Lemma Receive_motion_entered_from_own_label :
  (∃ nl' exits,
     buildCFA {[0]} receive_node no_edges = Ok (nl', exits) ∧
     nl' !! 0 = Some {[1]} ∧ nl' !! 1 = Some {[2; 3]} ∧ nl' !! 2 = Some {[1]} ∧
     exits = {[4]}) ∧
  (∃ nl' exits,
     Receive_as_specified {[0]} 1 (ast_inter.Motion 2 "m_idle"%string)
       [ast_inter.Action 3 "ok"%string (ast_inter.Skip 4)] no_edges
       = Ok (nl', exits) ∧
     nl' !! 0 = Some {[1; 2]} ∧ nl' !! 1 = Some {[3]}) ∧
  buildCFA {[0]} receive_node no_edges
    ≠ Receive_as_specified {[0]} 1 (ast_inter.Motion 2 "m_idle"%string)
        [ast_inter.Action 3 "ok"%string (ast_inter.Skip 4)] no_edges.
Proof.
  assert (Hcode : ∃ nl' exits,
     buildCFA {[0]} receive_node no_edges = Ok (nl', exits) ∧
     nl' !! 0 = Some {[1]} ∧ nl' !! 1 = Some {[2; 3]} ∧ nl' !! 2 = Some {[1]} ∧
     exits = {[4]}).
  { eexists _, _. split; [vm_compute; reflexivity|].
    split_and!; vm_compute; reflexivity. }
  assert (Hspec : ∃ nl' exits,
     Receive_as_specified {[0]} 1 (ast_inter.Motion 2 "m_idle"%string)
       [ast_inter.Action 3 "ok"%string (ast_inter.Skip 4)] no_edges
       = Ok (nl', exits) ∧
     nl' !! 0 = Some {[1; 2]} ∧ nl' !! 1 = Some {[3]}).
  { eexists _, _. split; [vm_compute; reflexivity|].
    split_and!; vm_compute; reflexivity. }
  split_and!; [done|done|].
  destruct Hcode as (nl1 & ex1 & -> & H0 & _).
  destruct Hspec as (nl2 & ex2 & -> & H0' & _).
  intros [= -> _]. rewrite H0 in H0'. vm_compute in H0'. discriminate.
Qed.

(** C7, at the receive of [receive_program]. *)
Lemma buildCFA_Receive_witness :
  (∃ nl' exits, buildCFA {[0]} receive_node no_edges = Ok (nl', exits)) ∧
  buildCFA {[0]} receive_node no_edges =
    (let! nl := add_edges (elements ({[0]} : gset nat)) 1 no_edges in
     let! (nl, ls2) := buildCFA {[1]} (ast_inter.Motion 2 "m_idle"%string) nl in
     let! nl := add_edges (elements ls2) 1 nl in
     build_each {[1]} [ast_inter.Action 3 "ok"%string (ast_inter.Skip 4)] ∅ nl) ∧
  ∀ nl' exits,
    buildCFA {[0]} receive_node no_edges = Ok (nl', exits) →
    ∃ nl1 nl2 ls2,
      add_edges (elements ({[0]} : gset nat)) 1 no_edges = Ok nl1 ∧
      buildCFA {[1]} (ast_inter.Motion 2 "m_idle"%string) nl1 = Ok (nl2, ls2) ∧
      (∀ p, p ∈ ({[0]} : gset nat) → ∃ X, nl' !! p = Some X ∧ 1 ∈ X) ∧
      (∃ X, nl' !! 1 = Some X ∧
            ast_inter.get_label (ast_inter.Motion 2 "m_idle"%string) ∈ X ∧
            ∀ a, a ∈ [ast_inter.Action 3 "ok"%string (ast_inter.Skip 4)] →
                 ast_inter.get_label a ∈ X) ∧
      (∀ e, e ∈ ls2 → ∃ X, nl' !! e = Some X ∧ 1 ∈ X).
Proof.
  split; [eexists _, _; vm_compute; reflexivity|].
  apply (buildCFA_Receive {[0]} 1 (ast_inter.Motion 2 "m_idle"%string)
           [ast_inter.Action 3 "ok"%string (ast_inter.Skip 4)] no_edges).
Defined.

(** * A family of slow runs

    A sequence of [n] [Skip]s against a projection that idles forever.
    The sequence does not implement it, and visiting the labels in
    increasing order finds this out one label per pass, from the last
    statement back to the first. *)

Section chain_built.
Context {names : Str} `{Sympy}.

Lemma label_skips m : ∀ a acc i,
  (fix many (cs : list ast_inter.Node) (acc : gmap nat ast_inter.Node) :=
     match cs with
     | [] => acc
     | c :: cs' => many cs' (label_as_root_aux c acc)
     end) (ast_inter.Skip <$> seq a m) acc !! i
  = if decide (a ≤ i < a + m) then Some (ast_inter.Skip i) else acc !! i.
Proof.
  induction m as [|m IH]; intros a acc i; simpl.
  { case_decide; [lia|done]. }
  rewrite IH. repeat case_decide; try done; try lia.
  - assert (i = a) as -> by lia. by rewrite lookup_insert_eq.
  - by rewrite lookup_insert_ne by lia.
Qed.

Lemma label_as_root_chain n i :
  label_as_root (chain n) !! i =
    if decide (i = 0) then Some (chain n)
    else if decide (i ≤ n) then Some (ast_inter.Skip i) else None.
Proof.
  unfold label_as_root, chain. simpl. rewrite label_skips.
  repeat case_decide; try done; try lia.
  - subst. by rewrite lookup_insert_eq.
  - by rewrite lookup_insert_ne.
Qed.

Lemma build_skips m : ∀ p nl,
  (∀ i, p ≤ i ≤ p + m → nl !! i = Some ∅) →
  ∃ nl',
    build_children (ast_inter.Skip <$> seq (S p) m) {[p]} nl = Ok (nl', {[p + m]}) ∧
    (∀ i, p ≤ i < p + m → nl' !! i = Some {[S i]}) ∧
    nl' !! (p + m) = Some ∅ ∧
    (∀ i, i < p → nl' !! i = nl !! i) ∧
    dom nl' = dom nl.
Proof.
  induction m as [|m IH]; intros p nl Hnl; simpl.
  { exists nl. rewrite Nat.add_0_r. split_and!; [done| |by apply Hnl; lia|done|done].
    intros i ?. lia. }
  rewrite elements_singleton. simpl. unfold getitem at 1.
  rewrite (Hnl p) by lia. simpl.
  destruct (IH (S p) (<[p := ∅ ∪ {[S p]}]> nl))
    as (nl' & Hrun & Hedges & Hlast & Hbelow & Hdom).
  { intros i Hi. rewrite lookup_insert_ne by lia. apply Hnl. lia. }
  exists nl'. replace (p + S m) with (S p + m) by lia.
  split_and!; [done| |done| |].
  - intros i Hi. destruct (decide (i = p)) as [->|Hne]; [|apply Hedges; lia].
    rewrite Hbelow by lia. rewrite lookup_insert_eq. f_equal.
    apply (left_id_L ∅ (∪)).
  - intros i Hi. rewrite Hbelow by lia. by rewrite lookup_insert_ne by lia.
  - rewrite Hdom. apply dom_insert_present with (X := ∅). apply Hnl. lia.
Qed.

Lemma init_chain n :
  ∃ self, __init__ (chain n) idle_projection = Ok self ∧ chain_like n self.
Proof.
  unfold __init__, init_with.
  destruct (build_skips n 0 ((λ _, ∅) <$> label_as_root (chain n)))
    as (nl' & Hrun & Hedges & Hlast & _ & Hdom).
  { intros i Hi. rewrite lookup_fmap, label_as_root_chain.
    repeat case_decide; try done; lia. }
  assert (Hb : buildCFA ∅ (chain n) ((λ _, ∅) <$> label_as_root (chain n))
                 = Ok (nl', {[0 + n]})).
  { unfold chain at 1. by rewrite buildCFA_Statement. }
  rewrite Hb. simpl.
  eexists. split; [done|]. split; simpl.
  - apply set_eq. intros i.
    rewrite elem_of_dom, label_as_root_chain, elem_of_union, elem_of_singleton,
      elem_of_set_seq.
    repeat case_decide; split; try (intros; lia); try (intros; by eauto);
      try (by intros [? [=]]).
  - intros i Hi. rewrite label_as_root_chain.
    repeat case_decide; try lia; eauto.
  - intros i Hi. apply Hedges. lia.
  - done.
  - by rewrite dom_singleton_L.
  - eexists. by rewrite lookup_singleton_eq.
Qed.

End chain_built.

Section chain_run.
Context {names : Str} `{Sympy} (n : nat) (self : Refinement) (Hchain : chain_like n self).
Context (I : Cond → Cond → bool).

Lemma iter_singleton (ord : SetOrder) x : iter ord {[x]} = [x].
Proof.
  apply Permutation_singleton_r. rewrite (iter_perm ord).
  by rewrite elements_singleton.
Qed.

Lemma iter_empty (ord : SetOrder) : iter ord ∅ = [].
Proof.
  apply Permutation_nil_r. rewrite (iter_perm ord). by rewrite elements_empty.
Qed.

Lemma Sorted_seq a m : Sorted Nat.le (seq a m).
Proof.
  revert a. induction m as [|m IH]; intros a; simpl; constructor; [apply IH|].
  destruct m; simpl; constructor. lia.
Qed.

Lemma ascending_set_seq m : iter ascending (set_seq 0 m) = seq 0 m.
Proof.
  unfold iter, ascending, ascending_iter.
  apply (Sorted_unique Nat.le).
  - apply (Sorted_merge_sort Nat.le).
  - apply Sorted_seq.
  - rewrite merge_sort_Permutation. apply NoDup_Permutation.
    + apply NoDup_elements.
    + apply NoDup_seq.
    + intros i. rewrite elem_of_elements, elem_of_set_seq, elem_of_seq. lia.
Qed.

Lemma compatible_on_chain ord C i :
  i ≤ n →
  compatible_on ord self I C i 0 =
    if decide (i < n) then refines_on self C (Some (S i)) 0 else Ok false.
Proof.
  intros Hi. unfold compatible_on.
  destruct (chain_nodes _ _ Hchain i Hi) as (node & Hnode & Hpass).
  destruct (chain_state _ _ Hchain) as (pnode & Hpnode & Hend).
  unfold getitem at 1 2. rewrite Hnode, Hpnode. simpl.
  assert (Hnext : next_on ord self i = Ok (if decide (i < n) then Some (S i) else None)).
  { unfold next_on, getitem. case_decide.
    - rewrite (chain_next _ _ Hchain i) by done. rewrite rbind_Ok.
      rewrite size_singleton, iter_singleton. repeat case_decide; (done || lia).
    - assert (i = n) as -> by lia. rewrite (chain_last _ _ Hchain), rbind_Ok.
      rewrite size_empty. by case_decide. }
  destruct node; try done; rewrite Hnext; simpl; case_decide; try done;
    simpl; unfold getitem; rewrite Hpnode; simpl; by rewrite Hend.
Qed.

Lemma for_labels_nothing ord labels : ∀ changed σ,
  (∀ l, l ∈ labels → compat σ !! l = Some ∅) →
  for_labels ord self labels changed σ = (σ, Ok changed).
Proof.
  induction labels as [|l labels IH]; intros changed σ Hempty; [done|].
  simpl. unfold bind at 1, getitem. rewrite (Hempty l) by (by left).
  rewrite iter_empty. simpl. unfold bind at 1. simpl. apply IH.
  intros l' Hl'. apply Hempty. by right.
Qed.

Lemma for_labels_chain k m : k ≤ n → ∀ a changed σ,
  a + m = S n → answers I σ →
  (a ≤ k ∧ chain_shape n (S k) (compat σ) ∧ changed = false) ∨
  (k < a ∧ chain_shape n k (compat σ) ∧ changed = true) →
  ∃ σ' evs,
    for_labels ascending self (seq a m) changed σ = (σ', Ok true) ∧
    answers I σ' ∧ chain_shape n k (compat σ') ∧
    trace σ' = evs ++ trace σ ∧ evaluations evs = S k - a.
Proof.
  intros Hk. induction m as [|m IH]; intros a changed σ Ham Hσ Hcase.
  { destruct Hcase as [(? & _ & _)|(? & Hshape & ->)]; [lia|].
    exists σ, []. split_and!; [done..|]. change (evaluations []) with 0. lia. }
  simpl. unfold bind at 1, getitem.
  destruct Hcase as [(Ha & Hshape & ->)|(Ha & Hshape & ->)].
  - rewrite (Hshape a) by lia. rewrite decide_True by lia.
    rewrite iter_singleton. simpl.
    destruct (compatible_run ascending self I a 0 σ Hσ)
      as (σ1 & evs1 & Hrun1 & HC1 & Hst1 & Hev1 & _).
    rewrite compatible_on_chain in Hrun1 by lia.
    destruct (decide (a = k)) as [->|Hne].
    + assert (Hfalse : (if decide (k < n)
                        then refines_on self (compat σ) (Some (S k)) 0
                        else Ok false) = Ok false).
      { case_decide; [|done]. simpl. unfold getitem.
        rewrite (Hshape (S k)) by lia. rewrite decide_False by lia. simpl.
        by rewrite bool_decide_eq_false_2 by set_solver. }
      rewrite Hfalse in Hrun1.
      destruct (discard_run ascending self I k 0 {[0]} σ1)
        as (σ2 & Hrun2 & HC2 & Hst2).
      { apply Hst1. }
      { rewrite HC1. rewrite (Hshape k) by lia. by rewrite decide_True by lia. }
      { set_solver. }
      { rewrite HC1, compatible_on_chain by lia. done. }
      unfold bind at 1. unfold bind at 1. rewrite Hrun1. rewrite Hrun2. simpl.
      destruct (IH (S k) true σ2) as (σ' & evs & Hrun & Hσ' & Hshape' & Htr & Hev).
      { lia. } { apply Hst2. }
      { right. split_and!; [lia| |done]. intros i Hi. rewrite HC2, HC1.
        destruct (decide (i = k)) as [->|Hik].
        - rewrite lookup_insert_eq, decide_False by lia. f_equal; set_solver.
        - rewrite lookup_insert_ne by done. rewrite (Hshape i) by done.
          repeat case_decide; try done; lia. }
      exists σ', (evs ++ [EvNotCompatible k 0] ++ evs1). rewrite Hrun.
      split_and!; [done..| |].
      * rewrite Htr, (step_trace _ _ _ _ _ _ Hst2), (step_trace _ _ _ _ _ _ Hst1).
        by rewrite <- !app_assoc.
      * rewrite !evaluations_app, Hev, Hev1. unfold evaluations at 1. simpl. lia.
    + assert (Htrue : (if decide (a < n)
                       then refines_on self (compat σ) (Some (S a)) 0
                       else Ok false) = Ok true).
      { rewrite decide_True by lia. simpl. unfold getitem.
        rewrite (Hshape (S a)) by lia. rewrite decide_True by lia. simpl.
        by rewrite bool_decide_eq_true_2 by set_solver. }
      rewrite Htrue in Hrun1.
      unfold bind at 1. unfold bind at 1. rewrite Hrun1. simpl.
      destruct (IH (S a) false σ1) as (σ' & evs & Hrun & Hσ' & Hshape' & Htr & Hev).
      { lia. } { apply Hst1. }
      { left. split_and!; [lia| |done]. by rewrite HC1. }
      exists σ', (evs ++ evs1). rewrite Hrun. split_and!; [done..| |].
      * rewrite Htr, (step_trace _ _ _ _ _ _ Hst1). by rewrite <- !app_assoc.
      * rewrite evaluations_app, Hev, Hev1. lia.
  - rewrite (Hshape a) by lia. rewrite decide_False by lia.
    rewrite iter_empty. simpl. unfold bind at 1. simpl.
    destruct (IH (S a) true σ) as (σ' & evs & Hrun & Hσ' & Hshape' & Htr & Hev).
    { lia. } { done. } { right. split_and!; [lia|done|done]. }
    exists σ', evs. rewrite Hrun. split_and!; [done..|]. lia.
Qed.

Lemma while_changed_chain k : ∀ fuel σ,
  k ≤ S n → k < fuel → answers I σ → chain_shape n k (compat σ) →
  ∃ σ' evs,
    while_changed ascending self fuel (set_seq 0 (S n)) σ = Some (σ', Ok tt) ∧
    trace σ' = evs ++ trace σ ∧ 2 * evaluations evs = k * (k + 1).
Proof.
  induction k as [|k IH]; intros [|fuel] σ Hk Hfuel Hσ Hshape; try lia.
  - cbn [while_changed]. unfold pass. rewrite ascending_set_seq.
    rewrite for_labels_nothing.
    + exists σ, []. done.
    + intros l Hl%elem_of_seq. rewrite (Hshape l) by lia. by rewrite decide_False by lia.
  - cbn [while_changed]. unfold pass. rewrite ascending_set_seq.
    destruct (for_labels_chain k (S n) ltac:(lia) 0 false σ)
      as (σ1 & evs1 & Hrun1 & Hσ1 & Hshape1 & Htr1 & Hev1);
      [lia|done|left; split_and!; [lia|done|done]|].
    rewrite Hrun1.
    destruct (IH fuel σ1) as (σ' & evs & Hrun & Htr & Hev); [lia|lia|done|done|].
    exists σ', (evs ++ evs1). rewrite Hrun. split_and!; [done| |].
    + by rewrite Htr, Htr1, app_assoc.
    + rewrite evaluations_app. nia.
Qed.

End chain_run.

Lemma chain_evaluations {names : Str} `{Sympy} n self σ σ' v evs :
  chain_like n self →
  check ascending self σ = Some (σ', v) → trace σ' = evs ++ trace σ →
  2 * evaluations evs = S n * S (S n).
Proof.
  intros Hchain. unfold check, check_fuel.
  rewrite (chain_labels _ _ Hchain), (chain_states _ _ Hchain).
  destruct (while_changed_chain n self Hchain (imp σ) (S n) (budget self)
    (set_compat (universal (set_seq 0 (S n)) {[0]}) σ))
    as (σ1 & evs1 & Hrun & Htr & Hev).
  { done. }
  { unfold budget. rewrite (chain_labels _ _ Hchain), (chain_states _ _ Hchain).
    rewrite size_set_seq, size_singleton. lia. }
  { done. }
  { intros i Hi. rewrite decide_True by lia.
    apply universal_lookup. split; [|done]. apply elem_of_set_seq. lia. }
  rewrite Hrun. unfold verdict, bind. simpl in Htr.
  destruct (getitem (compat σ1) _); intros [= <- <-] Htr';
    rewrite Htr' in Htr; apply app_inv_tail in Htr; subst; lia.
Qed.


Example chain_of_three :
  ∃ self σ',
    __init__ (chain 3) idle_projection = Ok self ∧
    check ascending self fresh = Some (σ', Ok false) ∧
    size (dom (programLabels self)) * size (dom (state_to_node self)) = 4 ∧
    evaluations (trace σ') = 10 ∧ removals (trace σ') = 4.
Proof.
  eexists _, _. split; [vm_compute; reflexivity|].
  split; [vm_compute; reflexivity|]. split_and!; vm_compute; reflexivity.
Qed.

(** C5, as stated, fails: no constant [c] bounds the number of
    evaluations of [compatible] by [c * |L| * |S| + c] over the instances
    that [__init__] builds.  On the sequence of [2 c + 1] skips, [|L|] is
    [2 c + 2], [|S|] is 1 and [check] evaluates [compatible]
    [(2 c + 2) (2 c + 3) / 2] times. *)
Lemma evaluations_not_linear :
  ¬ ∃ c, ∀ (sympy : Sympy) (ord : SetOrder) program projection self σ' v,
      __init__ program projection = Ok self →
      check (names := ascii_names) ord self fresh = Some (σ', v) →
      evaluations (trace σ')
        ≤ c * (size (dom (programLabels self)) * size (dom (state_to_node self)))
          + c.
Proof.
  intros [c Hc].
  destruct (init_chain (H := one_var) (2 * c + 1)) as (self & Hinit & Hchain).
  destruct (check_run ascending self fresh) as (σ' & v & evs & Hrun & Hst & _).
  pose proof (step_trace _ _ _ _ _ _ Hst) as Htr. simpl in Htr.
  pose proof (chain_evaluations _ _ _ _ _ _ Hchain Hrun Htr) as Hev.
  specialize (Hc one_var ascending _ _ self σ' v Hinit Hrun).
  rewrite (chain_labels _ _ Hchain), (chain_states _ _ Hchain) in Hc.
  rewrite size_set_seq, size_singleton in Hc.
  rewrite Htr, app_nil_r in Hc. nia.
Qed.

(** * More on the control-flow automaton *)

Section cfa_more.
Context {names : Str} `{Sympy}.

Lemma add_edges_lookup ls l : ∀ nl nl',
  add_edges ls l nl = Ok nl' →
  (∀ p, p ∈ ls → p ∈ dom nl) ∧
  ∀ p, nl' !! p =
    if decide (p ∈ ls) then (λ X, X ∪ {[l]}) <$> nl !! p else nl !! p.
Proof.
  induction ls as [|q ls IH]; intros nl nl'; simpl.
  { intros [= <-]. split; [by intros p Hp%elem_of_nil|].
    intros p. by repeat case_decide. }
  intros (n & Hn & Hrest)%rbind_ok. unfold getitem in Hn.
  destruct (nl !! q) as [X|] eqn:HX; simplify_eq.
  destruct (IH _ _ Hrest) as [Hdom Hlook]. split.
  - intros p [->|Hp]%elem_of_cons; [by eapply elem_of_dom_2|].
    specialize (Hdom p Hp). rewrite dom_insert in Hdom.
    apply elem_of_union in Hdom as [->%elem_of_singleton|]; [|done].
    by eapply elem_of_dom_2.
  - intros p. rewrite Hlook. destruct (decide (p = q)) as [->|Hne].
    + rewrite lookup_insert_eq, HX. rewrite (decide_True _ _ (list_elem_of_here q ls)).
      case_decide; simpl; [|done]. f_equal.
      by rewrite <- (assoc_L (∪)), (idemp_L (∪)).
    + rewrite lookup_insert_ne by done.
      destruct (decide (p ∈ ls)) as [Hp|Hp].
      * by rewrite decide_True by (by right).
      * rewrite decide_False; [done|].
        by intros [?|?]%elem_of_cons.
Qed.

Lemma add_edges_returns ls l : ∀ nl,
  (∀ p, p ∈ ls → p ∈ dom nl) → ∃ nl', add_edges ls l nl = Ok nl'.
Proof.
  induction ls as [|q ls IH]; intros nl Hdom; simpl; [eauto|].
  assert (is_Some (nl !! q)) as [X HX] by (apply elem_of_dom, Hdom; by left).
  unfold getitem. rewrite HX. simpl. apply IH.
  intros p Hp. rewrite dom_insert. apply elem_of_union_r, Hdom. by right.
Qed.

Lemma add_edges_KeyError ls l : ∀ nl p,
  p ∈ ls → p ∉ dom nl → add_edges ls l nl = Raise KeyError.
Proof.
  induction ls as [|q ls IH]; intros nl p Hp Hdom; [by apply elem_of_nil in Hp|].
  simpl. unfold getitem. destruct (nl !! q) as [X|] eqn:HX; [|done]. simpl.
  apply elem_of_cons in Hp as [->|Hp].
  { exfalso. apply Hdom. by eapply elem_of_dom_2. }
  apply (IH _ p Hp). rewrite dom_insert. intros [ ->%elem_of_singleton|?]%elem_of_union; [|done].
  apply Hdom. by eapply elem_of_dom_2.
Qed.

Lemma add_edges_dom ls l nl nl' : add_edges ls l nl = Ok nl' → dom nl' = dom nl.
Proof.
  intros [_ Hlook]%add_edges_lookup. apply set_eq. intros p.
  rewrite !elem_of_dom, Hlook. case_decide; [|done].
  by rewrite fmap_is_Some.
Qed.


Lemma extends_refl T nl : extends T nl nl.
Proof. split; [done|]. intros p X HX. exists X. split_and!; auto. Qed.

Lemma extends_trans T1 T2 T nl1 nl2 nl3 :
  extends T1 nl1 nl2 → extends T2 nl2 nl3 →
  (∀ x, x ∈ T1 → x ∈ T) → (∀ x, x ∈ T2 → x ∈ T) →
  extends T nl1 nl3.
Proof.
  intros [Hd1 H1] [Hd2 H2] HT1 HT2. split; [congruence|].
  intros p X3 HX3. destruct (H2 _ _ HX3) as (X2 & HX2 & Hsub2 & Hnew2).
  destruct (H1 _ _ HX2) as (X1 & HX1 & Hsub1 & Hnew1).
  exists X1. split_and!; [done|by etrans|].
  intros x Hx. destruct (Hnew2 x Hx) as [Hx2|?]; [|auto].
  destruct (Hnew1 x Hx2); auto.
Qed.

Lemma add_edges_extends ls l nl nl' :
  add_edges ls l nl = Ok nl' → extends [l] nl nl'.
Proof.
  intros Hadd. split; [by eapply add_edges_dom|].
  destruct (add_edges_lookup _ _ _ _ Hadd) as [_ Hlook].
  intros p X'. rewrite Hlook. case_decide.
  - destruct (nl !! p) as [X|]; simpl; [|done]. intros [= <-].
    exists X. split_and!; [done|apply union_subseteq_l|].
    intros x [?| ->%elem_of_singleton]%elem_of_union; [by left|right; by left].
  - intros HX. exists X'. split_and!; auto.
Qed.

Lemma fmap_bind_list {A B C} (f : A → list B) (g : B → C) (l : list A) :
  g <$> (l ≫= f) = l ≫= (λ x, g <$> f x).
Proof.
  induction l as [|x l IH]; [done|].
  by rewrite !bind_cons, fmap_app, IH.
Qed.

Lemma labels_root n : ast_inter.get_label n ∈ labels n.
Proof. unfold labels. destruct n; simpl; by left. Qed.

Lemma labels_Statement l cs :
  labels (ast_inter.Statement l cs) = l :: (cs ≫= labels).
Proof. unfold labels. simpl. by rewrite fmap_bind_list. Qed.

Lemma labels_If l cs :
  labels (ast_inter.If l cs) = l :: (cs ≫= labels).
Proof. unfold labels. simpl. by rewrite fmap_bind_list. Qed.

Lemma labels_Receive l m acts :
  labels (ast_inter.Receive l m acts) = l :: labels m ++ (acts ≫= labels).
Proof. unfold labels. simpl. by rewrite fmap_app, fmap_bind_list. Qed.

Lemma build_each_sound L nodes : ∀ acc nl nl' exits,
  Forall cfa_sound nodes →
  build_each L nodes acc nl = Ok (nl', exits) →
  extends (nodes ≫= labels) nl nl' ∧
  (∀ l, l ∈ exits → l ∈ acc ∨ l ∈ nodes ≫= labels) ∧
  (∀ p, p ∉ L → p ∉ nodes ≫= labels → nl' !! p = nl !! p).
Proof.
  induction nodes as [|c cs IH]; intros acc nl nl' exits Hall; cbn [build_each].
  { intros [= <- <-]. split_and!; [apply extends_refl|auto|done]. }
  apply Forall_cons in Hall as [Hc Hcs].
  intros ([nl1 ls] & Hrun & Hrest)%rbind_ok.
  destruct (Hc _ _ _ _ Hrun) as (Hext1 & Hex1 & Hfr1).
  destruct (IH _ _ _ _ Hcs Hrest) as (Hext & Hex & Hfr).
  rewrite bind_cons. split_and!.
  - eapply extends_trans; [done|done|..]; intros x Hx; apply elem_of_app; auto.
  - intros l Hl. destruct (Hex l Hl) as [[?|?]%elem_of_union|?];
      rewrite elem_of_app; auto.
  - intros p HL Hp. rewrite elem_of_app in Hp.
    rewrite Hfr, Hfr1; auto.
Qed.

Lemma build_children_sound cs : ∀ L nl nl' exits,
  Forall cfa_sound cs →
  build_children cs L nl = Ok (nl', exits) →
  extends (cs ≫= labels) nl nl' ∧
  (∀ l, l ∈ exits → l ∈ L ∨ l ∈ cs ≫= labels) ∧
  (∀ p, p ∉ L → p ∉ cs ≫= labels → nl' !! p = nl !! p).
Proof.
  induction cs as [|c cs IH]; intros L nl nl' exits Hall; cbn [build_children].
  { intros [= <- <-]. split_and!; [apply extends_refl|auto|done]. }
  apply Forall_cons in Hall as [Hc Hcs].
  intros ([nl1 ls] & Hrun & Hrest)%rbind_ok.
  destruct (Hc _ _ _ _ Hrun) as (Hext1 & Hex1 & Hfr1).
  destruct (IH _ _ _ _ Hcs Hrest) as (Hext & Hex & Hfr).
  rewrite bind_cons. split_and!.
  - eapply extends_trans; [done|done|..]; intros x Hx; apply elem_of_app; auto.
  - intros l Hl. right. apply elem_of_app. destruct (Hex l Hl); auto.
  - intros p HL Hp. rewrite elem_of_app in Hp.
    rewrite Hfr, Hfr1; auto.
Qed.

Lemma buildCFA_sound n : cfa_sound n.
Proof.
  induction n as
    [l cs IH|l m acts IHm IH|l t p IH|l cs IH|l c p IH|l c p IH|l v|l|l c t|l|l|l]
    using Node_induction;
    intros L nl nl' exits; rewrite buildCFA_entry;
    intros (nl1 & Hadd & Hrest)%rbind_ok;
    pose proof (add_edges_extends _ _ _ _ Hadd) as Hext1;
    destruct (add_edges_lookup _ _ _ _ Hadd) as [_ Hlook1];
    simpl ast_inter.get_label in *.
  - rewrite buildCFA_Statement in Hrest.
    destruct (build_children_sound _ _ _ _ _ IH Hrest) as (Hext & Hex & Hfr).
    rewrite labels_Statement. split_and!.
    + eapply extends_trans; [done|done|..]; intros x Hx.
      * apply list_elem_of_singleton in Hx as ->. by left.
      * by right.
    + intros x Hx. destruct (Hex x Hx) as [ ->%elem_of_singleton|?]; [by left|by right].
    + intros p HL Hp. apply not_elem_of_cons in Hp as [Hne Hp].
      rewrite Hfr; [|by rewrite elem_of_singleton|done].
      rewrite Hlook1. rewrite decide_False; [done|]. by rewrite elem_of_elements.
  - rewrite Receive_after_entry in Hrest.
    apply rbind_ok in Hrest as ([nl2 ls2] & Hm & Hrest).
    apply rbind_ok in Hrest as (nl3 & Hadd3 & Hrest).
    destruct (IHm _ _ _ _ Hm) as (Hext2 & Hex2 & Hfr2).
    pose proof (add_edges_extends _ _ _ _ Hadd3) as Hext3.
    destruct (add_edges_lookup _ _ _ _ Hadd3) as [_ Hlook3].
    destruct (build_each_sound _ _ _ _ _ _ IH Hrest) as (Hext & Hex & Hfr).
    rewrite labels_Receive. split_and!.
    + eapply extends_trans; [|exact Hext| |].
      * eapply extends_trans; [|exact Hext3|intros x Hx; exact Hx|].
        -- eapply extends_trans; [exact Hext1|exact Hext2|..]; intros x Hx.
           ++ apply list_elem_of_singleton in Hx as ->. by left.
           ++ right. apply elem_of_app. by left.
        -- intros x ->%list_elem_of_singleton. by left.
      * intros x Hx; exact Hx.
      * intros x Hx. right. apply elem_of_app. by right.
    + intros x Hx. destruct (Hex x Hx) as [Hx'|?].
      * by apply elem_of_empty in Hx'.
      * right. apply elem_of_app. by right.
    + intros p HL Hp. apply not_elem_of_cons in Hp as [Hne Hp].
      rewrite elem_of_app in Hp.
      rewrite Hfr; [|by rewrite elem_of_singleton|auto].
      rewrite Hlook3. rewrite decide_False.
      2:{ rewrite elem_of_elements. intros Hin. apply Hp. left. by apply Hex2. }
      rewrite Hfr2; [|by rewrite elem_of_singleton|auto].
      rewrite Hlook1. rewrite decide_False; [done|]. by rewrite elem_of_elements.
  - simpl in Hrest. rewrite elements_empty in Hrest. simpl in Hrest.
    destruct (IH _ _ _ _ Hrest) as (Hext & Hex & Hfr).
    change (labels (ast_inter.Action l t p)) with (l :: labels p). split_and!.
    + eapply extends_trans; [done|done|..]; intros x Hx.
      * apply list_elem_of_singleton in Hx as ->. by left.
      * by right.
    + intros x Hx. right. by apply Hex.
    + intros q HL Hq. apply not_elem_of_cons in Hq as [Hne Hq].
      rewrite Hfr; [|by rewrite elem_of_singleton|done].
      rewrite Hlook1. rewrite decide_False; [done|]. by rewrite elem_of_elements.
  - rewrite buildCFA_If in Hrest.
    destruct (build_each_sound _ _ _ _ _ _ IH Hrest) as (Hext & Hex & Hfr).
    rewrite labels_If. split_and!.
    + eapply extends_trans; [done|done|..]; intros x Hx.
      * apply list_elem_of_singleton in Hx as ->. by left.
      * by right.
    + intros x Hx. destruct (Hex x Hx) as [Hx'|?]; [by apply elem_of_empty in Hx'|by right].
    + intros p HL Hp. apply not_elem_of_cons in Hp as [Hne Hp].
      rewrite Hfr; [|by rewrite elem_of_singleton|done].
      rewrite Hlook1. rewrite decide_False; [done|]. by rewrite elem_of_elements.
  - simpl in Hrest. rewrite elements_empty in Hrest. simpl in Hrest.
    destruct (IH _ _ _ _ Hrest) as (Hext & Hex & Hfr).
    change (labels (ast_inter.IfComponent l c p)) with (l :: labels p). split_and!.
    + eapply extends_trans; [done|done|..]; intros x Hx.
      * apply list_elem_of_singleton in Hx as ->. by left.
      * by right.
    + intros x Hx. right. by apply Hex.
    + intros q HL Hq. apply not_elem_of_cons in Hq as [Hne Hq].
      rewrite Hfr; [|by rewrite elem_of_singleton|done].
      rewrite Hlook1. rewrite decide_False; [done|]. by rewrite elem_of_elements.
  - simpl in Hrest. rewrite elements_empty in Hrest. simpl in Hrest.
    apply rbind_ok in Hrest as ([nl2 ls2] & Hp & Hrest).
    apply rbind_ok in Hrest as (nl3 & Hadd3 & [= <- <-]).
    destruct (IH _ _ _ _ Hp) as (Hext2 & Hex2 & Hfr2).
    pose proof (add_edges_extends _ _ _ _ Hadd3) as Hext3.
    destruct (add_edges_lookup _ _ _ _ Hadd3) as [_ Hlook3].
    change (labels (ast_inter.While l c p)) with (l :: labels p). split_and!.
    + eapply extends_trans; [|exact Hext3|intros x Hx; exact Hx|].
      * eapply extends_trans; [exact Hext1|exact Hext2|..]; intros x Hx.
        -- apply list_elem_of_singleton in Hx as ->. by left.
        -- by right.
      * intros x ->%list_elem_of_singleton. by left.
    + intros x ->%elem_of_singleton. by left.
    + intros q HL Hq. apply not_elem_of_cons in Hq as [Hne Hq].
      rewrite Hlook3. rewrite decide_False.
      2:{ rewrite elem_of_elements. intros Hin. apply Hq. by apply Hex2. }
      rewrite Hfr2; [|by apply not_elem_of_empty|done].
      rewrite Hlook1. rewrite decide_False; [done|]. by rewrite elem_of_elements.
  - simpl in Hrest. rewrite elements_empty in Hrest. simpl in Hrest.
    injection Hrest as <- <-. split_and!.
    + eapply extends_trans; [exact Hext1|apply extends_refl|..]; intros x Hx; exact Hx.
    + intros x ->%elem_of_singleton. by left.
    + intros q HL Hq. rewrite Hlook1. rewrite decide_False; [done|]. by rewrite elem_of_elements.
  - simpl in Hrest. rewrite elements_empty in Hrest. simpl in Hrest.
    injection Hrest as <- <-. split_and!.
    + eapply extends_trans; [exact Hext1|apply extends_refl|..]; intros x Hx; exact Hx.
    + intros x ->%elem_of_singleton. by left.
    + intros q HL Hq. rewrite Hlook1. rewrite decide_False; [done|]. by rewrite elem_of_elements.
  - simpl in Hrest. rewrite elements_empty in Hrest. simpl in Hrest.
    injection Hrest as <- <-. split_and!.
    + eapply extends_trans; [exact Hext1|apply extends_refl|..]; intros x Hx; exact Hx.
    + intros x ->%elem_of_singleton. by left.
    + intros q HL Hq. rewrite Hlook1. rewrite decide_False; [done|]. by rewrite elem_of_elements.
  - simpl in Hrest. rewrite elements_empty in Hrest. simpl in Hrest.
    injection Hrest as <- <-. split_and!.
    + eapply extends_trans; [exact Hext1|apply extends_refl|..]; intros x Hx; exact Hx.
    + intros x ->%elem_of_singleton. by left.
    + intros q HL Hq. rewrite Hlook1. rewrite decide_False; [done|]. by rewrite elem_of_elements.
  - simpl in Hrest. rewrite elements_empty in Hrest. simpl in Hrest.
    injection Hrest as <- <-. split_and!.
    + eapply extends_trans; [exact Hext1|apply extends_refl|..]; intros x Hx; exact Hx.
    + intros x ->%elem_of_singleton. by left.
    + intros q HL Hq. rewrite Hlook1. rewrite decide_False; [done|]. by rewrite elem_of_elements.
  - simpl in Hrest. rewrite elements_empty in Hrest. simpl in Hrest.
    injection Hrest as <- <-. split_and!.
    + eapply extends_trans; [exact Hext1|apply extends_refl|..]; intros x Hx; exact Hx.
    + intros x ->%elem_of_singleton. by left.
    + intros q HL Hq. rewrite Hlook1. rewrite decide_False; [done|]. by rewrite elem_of_elements.
Qed.


Lemma build_each_runs L nodes : ∀ acc nl,
  Forall cfa_runs nodes →
  (∀ p, p ∈ L → p ∈ dom nl) → (∀ l, l ∈ nodes ≫= labels → l ∈ dom nl) →
  ∃ nl' exits, build_each L nodes acc nl = Ok (nl', exits).
Proof.
  induction nodes as [|c cs IH]; intros acc nl Hall HL Hdom; cbn [build_each];
    [eauto|].
  apply Forall_cons in Hall as [Hc Hcs]. rewrite bind_cons in Hdom.
  destruct (Hc L nl) as (nl1 & ls & Hrun); [done|..].
  { intros l Hl. apply Hdom, elem_of_app. by left. }
  rewrite Hrun. simpl.
  destruct (buildCFA_sound c _ _ _ _ Hrun) as ([Hd1 _] & _ & _).
  apply IH; [done|..]; rewrite Hd1; [done|].
  intros l Hl. apply Hdom, elem_of_app. by right.
Qed.

Lemma build_children_runs cs : ∀ L nl,
  Forall cfa_runs cs →
  (∀ p, p ∈ L → p ∈ dom nl) → (∀ l, l ∈ cs ≫= labels → l ∈ dom nl) →
  ∃ nl' exits, build_children cs L nl = Ok (nl', exits).
Proof.
  induction cs as [|c cs IH]; intros L nl Hall HL Hdom; cbn [build_children];
    [eauto|].
  apply Forall_cons in Hall as [Hc Hcs]. rewrite bind_cons in Hdom.
  destruct (Hc L nl) as (nl1 & ls & Hrun); [done|..].
  { intros l Hl. apply Hdom, elem_of_app. by left. }
  rewrite Hrun. simpl.
  destruct (buildCFA_sound c _ _ _ _ Hrun) as ([Hd1 _] & Hex1 & _).
  apply IH; [done|..]; rewrite Hd1.
  - intros p Hp. apply Hdom, elem_of_app. left. by apply Hex1.
  - intros l Hl. apply Hdom, elem_of_app. by right.
Qed.

Lemma buildCFA_runs n : cfa_runs n.
Proof.
  induction n as
    [l cs IH|l m acts IHm IH|l t p IH|l cs IH|l c p IH|l c p IH|l v|l|l c t|l|l|l]
    using Node_induction;
    intros L nl HL Hdom; rewrite buildCFA_entry;
    match goal with
    | |- context [add_edges (elements L) ?l' nl] =>
        destruct (add_edges_returns (elements L) l' nl) as [nl1 Hadd];
          [by intros q Hq%elem_of_elements; apply HL|]
    end;
    rewrite Hadd; rewrite rbind_Ok;
    pose proof (add_edges_dom _ _ _ _ Hadd) as Hd1;
    simpl ast_inter.get_label in *.
  - rewrite buildCFA_Statement. rewrite labels_Statement in Hdom.
    apply build_children_runs; [done|..]; rewrite Hd1.
    + intros p ->%elem_of_singleton. apply Hdom. by left.
    + intros x Hx. apply Hdom. by right.
  - rewrite Receive_after_entry. rewrite labels_Receive in Hdom.
    destruct (IHm {[l]} nl1) as (nl2 & ls2 & Hm); rewrite ?Hd1.
    { intros p ->%elem_of_singleton. apply Hdom. by left. }
    { intros x Hx. apply Hdom. right. apply elem_of_app. by left. }
    rewrite Hm, rbind_Ok.
    destruct (buildCFA_sound m _ _ _ _ Hm) as ([Hd2 _] & Hex2 & _).
    destruct (add_edges_returns (elements ls2) l nl2) as [nl3 Hadd3].
    { intros p Hp%elem_of_elements. rewrite Hd2, Hd1. apply Hdom. right.
      apply elem_of_app. left. by apply Hex2. }
    rewrite Hadd3, rbind_Ok. pose proof (add_edges_dom _ _ _ _ Hadd3) as Hd3.
    apply build_each_runs; [done|..]; rewrite Hd3, Hd2, Hd1.
    + intros p ->%elem_of_singleton. apply Hdom. by left.
    + intros x Hx. apply Hdom. right. apply elem_of_app. by right.
  - simpl. rewrite elements_empty. simpl.
    apply IH; rewrite Hd1.
    + intros q ->%elem_of_singleton. apply Hdom. by left.
    + intros x Hx. apply Hdom. by right.
  - rewrite buildCFA_If. rewrite labels_If in Hdom.
    apply build_each_runs; [done|..]; rewrite Hd1.
    + intros p ->%elem_of_singleton. apply Hdom. by left.
    + intros x Hx. apply Hdom. by right.
  - simpl. rewrite elements_empty. simpl.
    apply IH; rewrite Hd1.
    + intros q ->%elem_of_singleton. apply Hdom. by left.
    + intros x Hx. apply Hdom. by right.
  - simpl. rewrite elements_empty. simpl.
    destruct (IH ∅ nl1) as (nl2 & ls2 & Hp); rewrite ?Hd1.
    { by intros q Hq%elem_of_empty. }
    { intros x Hx. apply Hdom. by right. }
    rewrite Hp. simpl.
    destruct (buildCFA_sound p _ _ _ _ Hp) as ([Hd2 _] & Hex2 & _).
    destruct (add_edges_returns (elements ls2) l nl2) as [nl3 Hadd3].
    { intros q Hq%elem_of_elements. rewrite Hd2, Hd1. apply Hdom. right.
      by apply Hex2. }
    rewrite Hadd3. simpl. eauto.
  - simpl. rewrite elements_empty. simpl. eauto.
  - simpl. rewrite elements_empty. simpl. eauto.
  - simpl. rewrite elements_empty. simpl. eauto.
  - simpl. rewrite elements_empty. simpl. eauto.
  - simpl. rewrite elements_empty. simpl. eauto.
  - simpl. rewrite elements_empty. simpl. eauto.
Qed.


Lemma all_sound (ns : list ast_inter.Node) : Forall cfa_sound ns.
Proof. apply Forall_forall. intros n _. apply buildCFA_sound. Qed.

(** The predecessors gain the entry of the tree as successor. *)
Lemma buildCFA_pred n L nl nl' exits :
  buildCFA L n nl = Ok (nl', exits) →
  ∀ p, p ∉ labels n →
    nl' !! p = if decide (p ∈ L)
               then (λ X, X ∪ {[ast_inter.get_label n]}) <$> nl !! p
               else nl !! p.
Proof.
  rewrite buildCFA_entry. intros (nl1 & Hadd & Hrest)%rbind_ok p Hp.
  destruct (add_edges_lookup _ _ _ _ Hadd) as [_ Hlook1].
  destruct (buildCFA_sound n _ _ _ _ Hrest) as (_ & _ & Hfr).
  rewrite Hfr; [|by apply not_elem_of_empty|done].
  rewrite Hlook1. destruct (decide (p ∈ L)).
  - by rewrite decide_True by (by apply elem_of_elements).
  - by rewrite decide_False by (by rewrite elem_of_elements).
Qed.

Lemma subtrees_labels n node :
  node ∈ subtrees n → ast_inter.get_label node ∈ labels n.
Proof. apply list_elem_of_fmap_2. Qed.

Lemma size_one_more (X : gset nat) l : X = ∅ → size (X ∪ {[l]}) ≤ 1.
Proof. intros ->. by rewrite (left_id_L ∅ (∪)), size_singleton. Qed.

(** Linking the exits [ls] of a tree keeps it linear. *)
Lemma linear_linked ns (ls : gset nat) l nl nl' :
  add_edges (elements ls) l nl = Ok nl' →
  (∀ p, p ∈ ls → ∀ X, nl !! p = Some X → X = ∅) →
  linear ns nl → linear ns nl'.
Proof.
  intros [_ Hlook]%add_edges_lookup Hempty Hlin node Hnode Hkind X.
  rewrite Hlook. case_decide as Hin.
  - apply elem_of_elements in Hin.
    destruct (nl !! ast_inter.get_label node) as [X0|] eqn:HX0; simpl; [|done].
    intros [= <-]. apply size_one_more. by eapply Hempty.
  - by apply Hlin.
Qed.

Lemma build_each_linear L nodes : ∀ acc nl nl' exits,
  Forall cfa_linear nodes →
  NoDup (nodes ≫= labels) → (∀ p, p ∈ L → p ∉ nodes ≫= labels) →
  unlinked (nodes ≫= labels) nl →
  (∀ l, l ∈ acc →
     (∀ X, nl !! l = Some X → X = ∅) ∧ (l ∉ L) ∧ (l ∉ nodes ≫= labels)) →
  build_each L nodes acc nl = Ok (nl', exits) →
  (∀ l, l ∈ exits → ∀ X, nl' !! l = Some X → X = ∅) ∧
  linear (nodes ≫= subtrees) nl'.
Proof.
  induction nodes as [|c cs IH]; intros acc nl nl' exits Hall Hnd HL Hun Hacc;
    cbn [build_each].
  { intros [= <- <-]. split; [intros l Hl; by apply Hacc|].
    intros node Hnode. by apply elem_of_nil in Hnode. }
  apply Forall_cons in Hall as [Hc Hcs]. rewrite bind_cons in *.
  apply NoDup_app in Hnd as (Hnd1 & Hdisj & Hnd2).
  intros ([nl1 ls] & Hrun & Hrest)%rbind_ok.
  destruct (buildCFA_sound c _ _ _ _ Hrun) as (_ & Hex1 & Hfr1).
  destruct (Hc L nl nl1 ls) as [Hd1 He1]; [done|..|done|].
  { intros p Hp Hin. apply (HL p Hp), elem_of_app. by left. }
  { intros l Hl. apply Hun, elem_of_app. by left. }
  destruct (build_each_sound _ _ _ _ _ _ (all_sound cs) Hrest)
    as (_ & _ & Hfr).
  destruct (IH (acc ∪ ls) nl1 nl' exits) as [Hd He]; [done|done|..|done|].
  { intros p Hp Hin. apply (HL p Hp), elem_of_app. by right. }
  { intros l Hl X. rewrite Hfr1.
    - apply Hun, elem_of_app. by right.
    - intros HlL. apply (HL l HlL), elem_of_app. by right.
    - intros Hlc. by apply (Hdisj l). }
  { intros l [Hl|Hl]%elem_of_union.
    - destruct (Hacc l Hl) as (Hempty & HlL & Hlab).
      rewrite bind_cons, elem_of_app in Hlab. split_and!; [|done|auto].
      intros X. rewrite Hfr1; auto.
    - split_and!; [by apply Hd1| |by apply Hdisj, Hex1].
      intros HlL. apply (HL l HlL), elem_of_app. left. by apply Hex1. }
  split; [done|]. intros node [Hnode|Hnode]%elem_of_app Hkind X.
  - pose proof (subtrees_labels _ _ Hnode) as Hlab. rewrite Hfr.
    + by apply He1.
    + intros HlL. apply (HL _ HlL), elem_of_app. by left.
    + by apply Hdisj.
  - by apply He.
Qed.

Lemma build_children_linear cs : ∀ L nl nl' exits,
  Forall cfa_linear cs →
  NoDup (cs ≫= labels) → (∀ p, p ∈ L → p ∉ cs ≫= labels) →
  unlinked (cs ≫= labels) nl →
  (∀ l, l ∈ L → ∀ X, nl !! l = Some X → X = ∅) →
  build_children cs L nl = Ok (nl', exits) →
  (∀ l, l ∈ exits → ∀ X, nl' !! l = Some X → X = ∅) ∧
  linear (cs ≫= subtrees) nl' ∧
  (∀ l, l ∈ L → ∀ X, nl' !! l = Some X → size X ≤ 1).
Proof.
  induction cs as [|c cs IH]; intros L nl nl' exits Hall Hnd HL Hun HLe;
    cbn [build_children].
  { intros [= <- <-]. split_and!; [done| |].
    - intros node Hnode. by apply elem_of_nil in Hnode.
    - intros l Hl X HX. rewrite (HLe l Hl X HX). rewrite size_empty. lia. }
  apply Forall_cons in Hall as [Hc Hcs]. rewrite bind_cons in *.
  apply NoDup_app in Hnd as (Hnd1 & Hdisj & Hnd2).
  intros ([nl1 ls] & Hrun & Hrest)%rbind_ok.
  destruct (buildCFA_sound c _ _ _ _ Hrun) as (_ & Hex1 & Hfr1).
  pose proof (buildCFA_pred _ _ _ _ _ Hrun) as Hpred.
  destruct (Hc L nl nl1 ls) as [Hd1 He1]; [done|..|done|].
  { intros p Hp Hin. apply (HL p Hp), elem_of_app. by left. }
  { intros l Hl. apply Hun, elem_of_app. by left. }
  destruct (build_children_sound _ _ _ _ _ (all_sound cs) Hrest)
    as (_ & _ & Hfr).
  destruct (IH ls nl1 nl' exits) as (Hd & He & Hf); [done|done|..|done|].
  { intros p Hp. by apply Hdisj, Hex1. }
  { intros l Hl X. rewrite Hfr1.
    - apply Hun, elem_of_app. by right.
    - intros HlL. apply (HL l HlL), elem_of_app. by right.
    - intros Hlc. by apply (Hdisj l). }
  { done. }
  split_and!; [done| |].
  - intros node [Hnode|Hnode]%elem_of_app Hkind X; [|by apply He].
    pose proof (subtrees_labels _ _ Hnode) as Hlab.
    destruct (decide (ast_inter.get_label node ∈ ls)) as [Hin|Hout].
    + by apply Hf.
    + rewrite Hfr; [by apply He1|done|by apply Hdisj].
  - intros l Hl X.
    assert (l ∉ labels c) as Hlc.
    { intros Hin. apply (HL l Hl), elem_of_app. by left. }
    rewrite Hfr.
    + rewrite Hpred by done. rewrite decide_True by done.
      destruct (nl !! l) as [X0|] eqn:HX0; simpl; [|done].
      intros [= <-]. apply size_one_more. by eapply HLe.
    + intros Hin. by apply Hlc, Hex1.
    + intros Hin. apply (HL l Hl), elem_of_app. by right.
Qed.


Lemma linear_leaf n nl :
  subtrees n = [n] → (∀ X, nl !! ast_inter.get_label n = Some X → X = ∅) →
  linear (subtrees n) nl.
Proof.
  intros -> Hempty node ->%list_elem_of_singleton _ X HX.
  rewrite (Hempty X HX), size_empty. lia.
Qed.

Lemma buildCFA_linear n : cfa_linear n.
Proof.
  induction n as
    [l cs IH|l m acts IHm IH|l t p IH|l cs IH|l c p IH|l c p IH|l v|l|l c t|l|l|l]
    using Node_induction;
    intros L nl nl' exits Hnd HL Hun; rewrite buildCFA_entry;
    intros (nl1 & Hadd & Hrest)%rbind_ok;
    destruct (add_edges_lookup _ _ _ _ Hadd) as [_ Hlook1];
    simpl ast_inter.get_label in *;
    (assert (Hun1 : unlinked
       (labels ltac:(match type of Hrest with buildCFA _ ?n _ = _ => exact n end)) nl1);
     [intros q Hq X; rewrite Hlook1; rewrite decide_False;
        [by apply Hun|rewrite elem_of_elements; intros HqL; by apply (HL q HqL)]|]);
    clear Hun Hlook1 Hadd nl.
  - rewrite buildCFA_Statement in Hrest. rewrite labels_Statement in *.
    apply NoDup_cons in Hnd as [Hl Hnd].
    destruct (build_children_linear cs {[l]} nl1 nl' exits) as (Hd & He & Hf);
      [done|done|..|done|].
    { by intros q ->%elem_of_singleton. }
    { intros q Hq. apply Hun1. by right. }
    { intros q ->%elem_of_singleton. apply Hun1. by left. }
    split; [done|]. intros node [->|Hnode]%elem_of_cons Hkind X.
    + apply Hf. by apply elem_of_singleton.
    + by apply He.
  - rewrite Receive_after_entry in Hrest. rewrite labels_Receive in *.
    apply NoDup_cons in Hnd as [Hl Hnd].
    apply NoDup_app in Hnd as (Hnd1 & Hdisj & Hnd2).
    rewrite not_elem_of_app in Hl. destruct Hl as [Hlm Hla].
    apply rbind_ok in Hrest as ([nl2 ls2] & Hm & Hrest).
    apply rbind_ok in Hrest as (nl3 & Hadd3 & Hrest).
    destruct (buildCFA_sound m _ _ _ _ Hm) as (_ & Hex2 & Hfr2).
    destruct (IHm {[l]} nl1 nl2 ls2) as [Hd2 He2]; [done|..|done|].
    { by intros q ->%elem_of_singleton. }
    { intros q Hq. apply Hun1. right. apply elem_of_app. by left. }
    pose proof (linear_linked _ _ _ _ _ Hadd3 Hd2 He2) as He3.
    destruct (add_edges_lookup _ _ _ _ Hadd3) as [_ Hlook3].
    destruct (build_each_sound _ _ _ _ _ _
                (all_sound acts) Hrest)
      as (_ & _ & Hfr).
    destruct (build_each_linear {[l]} acts ∅ nl3 nl' exits) as [Hd He];
      [done|done|..|done|].
    { by intros q ->%elem_of_singleton. }
    { intros q Hq X. rewrite Hlook3. rewrite decide_False.
      2:{ rewrite elem_of_elements. intros Hin. apply (Hdisj q); [by apply Hex2|done]. }
      rewrite Hfr2.
      - apply Hun1. right. apply elem_of_app. by right.
      - rewrite elem_of_singleton. by intros ->.
      - intros Hin. by apply (Hdisj q). }
    { by intros q Hq%elem_of_empty. }
    split; [done|].
    intros node [->|[Hnode|Hnode]%elem_of_app]%elem_of_cons Hkind X;
      [done| |by apply He].
    pose proof (subtrees_labels _ _ Hnode) as Hlab. rewrite Hfr.
    + by apply He3.
    + rewrite elem_of_singleton. by intros <-.
    + by apply Hdisj.
  - simpl in Hrest. rewrite elements_empty in Hrest. simpl in Hrest.
    change (labels (ast_inter.Action l t p)) with (l :: labels p) in *.
    apply NoDup_cons in Hnd as [Hl Hnd].
    pose proof (buildCFA_pred _ _ _ _ _ Hrest l Hl) as Hpred.
    rewrite decide_True in Hpred by (by apply elem_of_singleton).
    destruct (IH {[l]} nl1 nl' exits) as [Hd He]; [done|..|done|].
    { by intros q ->%elem_of_singleton. }
    { intros q Hq. apply Hun1. by right. }
    split; [done|]. intros node [->|Hnode]%elem_of_cons Hkind X; [|by apply He].
    simpl. rewrite Hpred.
    destruct (nl1 !! l) as [X0|] eqn:HX0; simpl; [|done].
    intros [= <-]. apply size_one_more. eapply Hun1; [by left|done].
  - rewrite buildCFA_If in Hrest. rewrite labels_If in *.
    apply NoDup_cons in Hnd as [Hl Hnd].
    destruct (build_each_linear {[l]} cs ∅ nl1 nl' exits) as [Hd He];
      [done|done|..|done|].
    { by intros q ->%elem_of_singleton. }
    { intros q Hq. apply Hun1. by right. }
    { by intros q Hq%elem_of_empty. }
    split; [done|]. intros node [->|Hnode]%elem_of_cons Hkind X; [done|by apply He].
  - simpl in Hrest. rewrite elements_empty in Hrest. simpl in Hrest.
    change (labels (ast_inter.IfComponent l c p)) with (l :: labels p) in *.
    apply NoDup_cons in Hnd as [Hl Hnd].
    pose proof (buildCFA_pred _ _ _ _ _ Hrest l Hl) as Hpred.
    rewrite decide_True in Hpred by (by apply elem_of_singleton).
    destruct (IH {[l]} nl1 nl' exits) as [Hd He]; [done|..|done|].
    { by intros q ->%elem_of_singleton. }
    { intros q Hq. apply Hun1. by right. }
    split; [done|]. intros node [->|Hnode]%elem_of_cons Hkind X; [|by apply He].
    simpl. rewrite Hpred.
    destruct (nl1 !! l) as [X0|] eqn:HX0; simpl; [|done].
    intros [= <-]. apply size_one_more. eapply Hun1; [by left|done].
  - simpl in Hrest. rewrite elements_empty in Hrest. simpl in Hrest.
    change (labels (ast_inter.While l c p)) with (l :: labels p) in *.
    apply NoDup_cons in Hnd as [Hl Hnd].
    apply rbind_ok in Hrest as ([nl2 ls2] & Hp & Hrest).
    apply rbind_ok in Hrest as (nl3 & Hadd3 & [= <- <-]).
    destruct (buildCFA_sound p _ _ _ _ Hp) as (_ & Hex2 & Hfr2).
    destruct (IH ∅ nl1 nl2 ls2) as [Hd2 He2]; [done|..|done|].
    { by intros q Hq%elem_of_empty. }
    { intros q Hq. apply Hun1. by right. }
    pose proof (linear_linked _ _ _ _ _ Hadd3 Hd2 He2) as He3.
    destruct (add_edges_lookup _ _ _ _ Hadd3) as [_ Hlook3].
    assert (Hown : ∀ X, nl3 !! l = Some X → X = ∅).
    { intros X. rewrite Hlook3. rewrite decide_False.
      2:{ rewrite elem_of_elements. intros Hin. by apply Hl, Hex2. }
      rewrite Hfr2; [|by apply not_elem_of_empty|done].
      apply Hun1. by left. }
    split; [by intros q ->%elem_of_singleton|].
    intros node [->|Hnode]%elem_of_cons Hkind X; [|by apply He3].
    simpl. intros HX. rewrite (Hown X HX), size_empty. lia.
  - simpl in Hrest. rewrite elements_empty in Hrest. simpl in Hrest.
    injection Hrest as <- <-.
    assert (Hown : ∀ X, nl1 !! l = Some X → X = ∅) by (apply Hun1; by left).
    split; [by intros q ->%elem_of_singleton|by apply linear_leaf].
  - simpl in Hrest. rewrite elements_empty in Hrest. simpl in Hrest.
    injection Hrest as <- <-.
    assert (Hown : ∀ X, nl1 !! l = Some X → X = ∅) by (apply Hun1; by left).
    split; [by intros q ->%elem_of_singleton|by apply linear_leaf].
  - simpl in Hrest. rewrite elements_empty in Hrest. simpl in Hrest.
    injection Hrest as <- <-.
    assert (Hown : ∀ X, nl1 !! l = Some X → X = ∅) by (apply Hun1; by left).
    split; [by intros q ->%elem_of_singleton|by apply linear_leaf].
  - simpl in Hrest. rewrite elements_empty in Hrest. simpl in Hrest.
    injection Hrest as <- <-.
    assert (Hown : ∀ X, nl1 !! l = Some X → X = ∅) by (apply Hun1; by left).
    split; [by intros q ->%elem_of_singleton|by apply linear_leaf].
  - simpl in Hrest. rewrite elements_empty in Hrest. simpl in Hrest.
    injection Hrest as <- <-.
    assert (Hown : ∀ X, nl1 !! l = Some X → X = ∅) by (apply Hun1; by left).
    split; [by intros q ->%elem_of_singleton|by apply linear_leaf].
  - simpl in Hrest. rewrite elements_empty in Hrest. simpl in Hrest.
    injection Hrest as <- <-.
    assert (Hown : ∀ X, nl1 !! l = Some X → X = ∅) by (apply Hun1; by left).
    split; [by intros q ->%elem_of_singleton|by apply linear_leaf].
Qed.

End cfa_more.

Section cfa_results.
Context {names : Str} `{Sympy}.

(** X1.  When the incoming labels and every label of the tree are keys of
    [nextLabel], [buildCFA] returns (no [KeyError]); it keeps the keys,
    keeps every edge, adds only edges that lead to labels of the tree,
    returns exit labels that are labels of the tree, and leaves alone the
    labels that are neither incoming nor in the tree. *)
Theorem buildCFA_returns lastLabels statment nl :
  (∀ p, p ∈ lastLabels → p ∈ dom nl) →
  (∀ l, l ∈ labels statment → l ∈ dom nl) →
  ∃ nl' exits,
    buildCFA lastLabels statment nl = Ok (nl', exits) ∧
    dom nl' = dom nl ∧
    (∀ l, l ∈ exits → l ∈ labels statment) ∧
    (∀ p X', nl' !! p = Some X' →
       ∃ X, nl !! p = Some X ∧ X ⊆ X' ∧
            ∀ x, x ∈ X' → x ∈ X ∨ x ∈ labels statment) ∧
    (∀ p, p ∉ lastLabels → p ∉ labels statment → nl' !! p = nl !! p).
Proof.
  intros HL Hdom.
  destruct (buildCFA_runs statment lastLabels nl HL Hdom) as (nl' & exits & Hrun).
  destruct (buildCFA_sound statment _ _ _ _ Hrun) as ([Hd Hext] & Hex & Hfr).
  exists nl', exits. by split_and!.
Qed.

(** X2.  An incoming label that is not a key of [nextLabel] makes
    [buildCFA] raise [KeyError], whatever the statement. *)
Theorem buildCFA_missing_predecessor lastLabels statment nl p :
  p ∈ lastLabels → p ∉ dom nl →
  buildCFA lastLabels statment nl = Raise KeyError.
Proof.
  intros Hp Hdom. rewrite buildCFA_entry.
  rewrite (add_edges_KeyError _ _ _ p); [done| |done]. by apply elem_of_elements.
Qed.

(** X3.  On a tree whose labels are pairwise distinct and have no
    successor yet, [buildCFA([], program)] gives at most one successor to
    every node that is neither a [Receive] nor an [If], and none to the
    exit labels it returns. *)
Theorem buildCFA_single_successor program nl nl' exits :
  NoDup (labels program) →
  (∀ l, l ∈ labels program → ∀ X, nl !! l = Some X → X = ∅) →
  buildCFA ∅ program nl = Ok (nl', exits) →
  (∀ node, node ∈ subtrees program → branching node = false →
     ∀ X, nl' !! ast_inter.get_label node = Some X → size X ≤ 1) ∧
  (∀ l, l ∈ exits → ∀ X, nl' !! l = Some X → X = ∅).
Proof.
  intros Hnd Hun Hrun.
  by destruct (buildCFA_linear program ∅ nl nl' exits) as [Hd He].
Qed.

(** X4.  [__init__] returns when the label table has a key for every
    label of the program.  The automaton it builds has the keys of the
    table, every successor in it is a label of the program, and a key
    that labels no node of the program has no successor. *)
Theorem init_with_returns program labs projection :
  (∀ l, l ∈ labels program → l ∈ dom labs) →
  ∃ self,
    init_with program labs projection = Ok self ∧
    programLabels self = labs ∧
    state_to_node self = mk_state_to_node projection ∧
    initLabel self = ast_inter.get_label program ∧
    dom (nextLabel self) = dom labs ∧
    (∀ l X, nextLabel self !! l = Some X → ∀ x, x ∈ X → x ∈ labels program) ∧
    (∀ l, l ∈ dom labs → l ∉ labels program → nextLabel self !! l = Some ∅).
Proof.
  intros Hdom. unfold init_with.
  destruct (buildCFA_runs program ∅ ((λ _, ∅) <$> labs)) as (nl' & exits & Hrun).
  { by intros p Hp%elem_of_empty. }
  { intros l Hl. rewrite dom_fmap. by apply Hdom. }
  destruct (buildCFA_sound program _ _ _ _ Hrun) as ([Hd Hext] & Hex & Hfr).
  rewrite Hrun. simpl. eexists. split; [done|]. simpl.
  split_and!; try done.
  - by rewrite Hd, dom_fmap_L.
  - intros l X HX x Hx. destruct (Hext _ _ HX) as (X0 & HX0 & _ & Hnew).
    rewrite lookup_fmap in HX0. destruct (labs !! l); simplify_eq/=.
    destruct (Hnew x Hx) as [Hin|?]; [|done]. by apply elem_of_empty in Hin.
  - intros l [node Hl]%elem_of_dom Hout.
    rewrite Hfr; [|by apply not_elem_of_empty|done].
    by rewrite lookup_fmap, Hl.
Qed.

(** X5.  For an instance built by [__init__] from a program with pairwise
    distinct labels and a table that maps labels to the nodes carrying
    them, no label for which [compatible] asks the successor has several
    successors, and no run of [check] raises the ambiguity error. *)
Theorem distinct_labels_never_ambiguous program labs projection self :
  init_with program labs projection = Ok self →
  NoDup (labels program) →
  (∀ l node, labs !! l = Some node →
     node ∈ subtrees program ∧ ast_inter.get_label node = l) →
  (∀ l, caller self l → ¬ ambiguous self l) ∧
  ∀ ord σ σ' v, check ord self σ = Some (σ', v) → v ≠ Raise (TypeError "set").
Proof.
  intros Hinit Hnd Hlabs. unfold init_with in Hinit.
  apply rbind_ok in Hinit as ([nl' exits] & Hrun & [= <-]).
  destruct (buildCFA_linear program ∅ ((λ _, ∅) <$> labs) nl' exits) as [_ Hlin];
    [done|by intros p Hp%elem_of_empty| |done|].
  { intros l _ X. rewrite lookup_fmap. by destruct (labs !! l); intros [= <-]. }
  assert (Hone : ∀ l, caller
    {| program := program; projection := projection;
       state_to_node := mk_state_to_node projection; programLabels := labs;
       initLabel := ast_inter.get_label program; nextLabel := nl' |} l →
    ¬ ambiguous
    {| program := program; projection := projection;
       state_to_node := mk_state_to_node projection; programLabels := labs;
       initLabel := ast_inter.get_label program; nextLabel := nl' |} l).
  { intros l (node & Hnode & Hkind) (n & Hn & Hsize). simpl in *.
    destruct (Hlabs _ _ Hnode) as [Hsub <-].
    assert (size n ≤ 1); [|lia]. apply (Hlin node Hsub); [|done].
    by destruct node. }
  split; [done|]. intros ord σ σ' v Hcheck ->.
  destruct (check_traced _ _ _ _ _ Hcheck) as (evs & _ & Hc & Hr).
  destruct (Hr eq_refl) as (l & Hl & Hamb).
  destruct (Hc l Hl) as [Hcaller _]. by apply (Hone l).
Qed.

(** The table of [label_as_root] names nodes of the tree by their own
    label. *)
Lemma label_as_root_aux_sound n : ∀ acc l node,
  label_as_root_aux n acc !! l = Some node →
  (node ∈ subtrees n ∧ ast_inter.get_label node = l) ∨ acc !! l = Some node.
Proof.
  assert (Hmany : ∀ cs, Forall (λ n, ∀ acc l node,
      label_as_root_aux n acc !! l = Some node →
      (node ∈ subtrees n ∧ ast_inter.get_label node = l) ∨ acc !! l = Some node) cs →
    ∀ acc l node,
      (fix many (cs : list ast_inter.Node) (acc : gmap nat ast_inter.Node) :=
         match cs with
         | [] => acc
         | c :: cs' => many cs' (label_as_root_aux c acc)
         end) cs acc !! l = Some node →
      (node ∈ cs ≫= subtrees ∧ ast_inter.get_label node = l) ∨ acc !! l = Some node).
  { intros cs Hall. induction Hall as [|c cs Hc _ IH]; intros acc l node; [by right|].
    intros [[Hin Hl]|Hacc]%IH.
    - left. split; [|done]. rewrite bind_cons. apply elem_of_app. by right.
    - destruct (Hc _ _ _ Hacc) as [[Hin Hl]|?]; [|by right].
      left. split; [|done]. rewrite bind_cons. apply elem_of_app. by left. }
  assert (Hroot : ∀ (n : ast_inter.Node) (acc : gmap nat ast_inter.Node) l node,
    <[ast_inter.get_label n := n]> acc !! l = Some node →
    (node = n ∧ ast_inter.get_label node = l) ∨ acc !! l = Some node).
  { intros n0 acc l node. destruct (decide (ast_inter.get_label n0 = l)) as [<-|Hne].
    - rewrite lookup_insert_eq. intros [= <-]. by left.
    - rewrite lookup_insert_ne by done. by right. }
  induction n as
    [l cs IH|l m acts IHm IH|l t p IH|l cs IH|l c p IH|l c p IH|l v|l|l c t|l|l|l]
    using Node_induction; intros acc k node; cbn [label_as_root_aux subtrees].
  - intros [[Hin Hl]|[[-> Hl]|?]%Hroot]%(Hmany _ IH); [| |by right].
    + left. split; [by right|done].
    + left. split; [by left|done].
  - intros [[Hin Hl]|[[Hin Hl]|[[-> Hl]|?]%Hroot]%IHm]%(Hmany _ IH); [| | |by right].
    + left. split; [|done]. right. apply elem_of_app. by right.
    + left. split; [|done]. right. apply elem_of_app. by left.
    + left. split; [by left|done].
  - intros [[Hin Hl]|[[-> Hl]|?]%Hroot]%IH; [| |by right].
    + left. split; [by right|done].
    + left. split; [by left|done].
  - intros [[Hin Hl]|[[-> Hl]|?]%Hroot]%(Hmany _ IH); [| |by right].
    + left. split; [by right|done].
    + left. split; [by left|done].
  - intros [[Hin Hl]|[[-> Hl]|?]%Hroot]%IH; [| |by right].
    + left. split; [by right|done].
    + left. split; [by left|done].
  - intros [[Hin Hl]|[[-> Hl]|?]%Hroot]%IH; [| |by right].
    + left. split; [by right|done].
    + left. split; [by left|done].
  - intros [[-> Hl]|?]%Hroot; [left; split; [by left|done]|by right].
  - intros [[-> Hl]|?]%Hroot; [left; split; [by left|done]|by right].
  - intros [[-> Hl]|?]%Hroot; [left; split; [by left|done]|by right].
  - intros [[-> Hl]|?]%Hroot; [left; split; [by left|done]|by right].
  - intros [[-> Hl]|?]%Hroot; [left; split; [by left|done]|by right].
  - intros [[-> Hl]|?]%Hroot; [left; split; [by left|done]|by right].
Qed.

Lemma label_as_root_sound program l node :
  label_as_root program !! l = Some node →
  node ∈ subtrees program ∧ ast_inter.get_label node = l.
Proof.
  intros [?|Hempty]%label_as_root_aux_sound; [done|].
  by rewrite lookup_empty in Hempty.
Qed.

End cfa_results.

(** * More on [check] *)

Section check_more.
Context {names : Str} `{Sympy} (self : Refinement).

Lemma next_on_order ord1 ord2 l : next_on ord1 self l = next_on ord2 self l.
Proof.
  unfold next_on. destruct (getitem (nextLabel self) l) as [n|e]; simpl; [|done].
  repeat case_decide; try done.
  assert (size n = 1) as [x Hx%leibniz_equiv]%size_1_elem_of by lia.
  subst n. by rewrite !iter_singleton.
Qed.

Lemma compatible_on_order ord1 ord2 I C l s :
  compatible_on ord1 self I C l s = compatible_on ord2 self I C l s.
Proof.
  unfold compatible_on. by rewrite (next_on_order ord1 ord2).
Qed.

Lemma below_antisym (C1 C2 : gmap nat (gset nat)) :
  below C1 C2 → below C2 C1 → C1 = C2.
Proof.
  intros H12 H21. apply map_eq. intros l.
  destruct (C1 !! l) as [X1|] eqn:H1, (C2 !! l) as [X2|] eqn:H2; try done.
  - destruct (H12 _ _ H1) as (X2' & ? & Hsub1).
    destruct (H21 _ _ H2) as (X1' & ? & Hsub2). simplify_eq.
    f_equal. apply set_eq. intros x. split; auto.
  - destruct (H12 _ _ H1) as (? & ? & _). congruence.
  - destruct (H21 _ _ H2) as (? & ? & _). congruence.
Qed.

End check_more.

Section more_results.
Context {names : Str} `{Sympy} (ord : SetOrder) (self : Refinement).

Lemma closed_on_order ord1 ord2 I R :
  closed_on ord1 self I R → closed_on ord2 self I R.
Proof.
  intros Hc l X s HX Hs. rewrite (compatible_on_order self ord2 ord1). by eapply Hc.
Qed.

(** X6.  The verdict does not depend on the order in which the sets are
    visited: two runs of [check] from the same store that both return a
    verdict return the same one and end with the same relation. *)
Theorem verdict_order_independent ord1 ord2 σ σ1 σ2 b1 b2 :
  check ord1 self σ = Some (σ1, Ok b1) →
  check ord2 self σ = Some (σ2, Ok b2) →
  b1 = b2 ∧ compat σ1 = compat σ2.
Proof.
  intros H1 H2.
  destruct (check_run ord1 self σ) as (σ1' & v1 & evs1 & Hrun1 & Hst1 & _ & Hv1).
  destruct (check_run ord2 self σ) as (σ2' & v2 & evs2 & Hrun2 & Hst2 & _ & Hv2).
  rewrite H1 in Hrun1. rewrite H2 in Hrun2. simplify_eq.
  destruct (Hv1 b1 eq_refl) as (Hc1 & X1 & HX1 & ->).
  destruct (Hv2 b2 eq_refl) as (Hc2 & X2 & HX2 & ->).
  assert (compat σ1' = compat σ2') as Heq.
  { apply below_antisym.
    - apply (step_closed _ _ _ _ _ _ Hst2); [by eapply closed_on_order|].
      apply (step_below _ _ _ _ _ _ Hst1).
    - apply (step_closed _ _ _ _ _ _ Hst1); [by eapply closed_on_order|].
      apply (step_below _ _ _ _ _ _ Hst2). }
  split; [|done]. rewrite Heq in HX1. by simplify_eq.
Qed.

(** X7.  [compatible] is monotone in [compat]: a pair that passes with
    a relation passes with every larger one, under the same cache. *)
Theorem compatible_monotone l s σ C C' :
  below C C' →
  (compatible ord self l s (set_compat C σ)).2 = Ok true →
  (compatible ord self l s (set_compat C' σ)).2 = Ok true.
Proof.
  intros Hb Hyes.
  apply (holds_on ord self (imp σ) σ C' l s); [done|].
  apply (compatible_on_mono ord self _ C C'); [done|].
  by apply (holds_on ord self (imp σ) σ C l s).
Qed.

(** X8.  [compatible] leaves [compat] as it is and only adds to the
    cache, without changing what [implies] answers; asked again on the
    store it leaves, it gives the same result. *)
Theorem compatible_observes l s σ :
  ∃ σ' r,
    compatible ord self l s σ = (σ', r) ∧
    compat σ' = compat σ ∧
    cachedImplication σ ⊆ cachedImplication σ' ∧
    (∀ a b, imp σ' a b = imp σ a b) ∧
    (compatible ord self l s σ').2 = r.
Proof.
  destruct (compatible_run ord self (imp σ) l s σ)
    as (σ' & evs & Hrun & HC & Hst & _); [done|].
  destruct (compatible_run ord self (imp σ) l s σ')
    as (σ2 & evs2 & Hrun2 & _); [apply Hst|].
  eexists _, _. split_and!; [done|done|apply Hst|apply Hst|].
  rewrite Hrun2. simpl. by rewrite HC.
Qed.

(** X9.  [implies] answers from the cache when the pair is cached and
    asks the decision procedure otherwise; afterwards the pair is cached
    with the answer given, nothing else has changed, and a second call
    gives the same answer and leaves the store as it is. *)
Theorem implies_caches cond1 cond2 σ :
  ∃ σ' res,
    implies cond1 cond2 σ = (σ', Ok res) ∧
    res = default (oracle cond1 cond2) (cachedImplication σ !! (cond1, cond2)) ∧
    cachedImplication σ' = <[(cond1, cond2) := res]> (cachedImplication σ) ∧
    compat σ' = compat σ ∧
    implies cond1 cond2 σ' = (σ', Ok res).
Proof.
  unfold implies. destruct (cachedImplication σ !! (cond1, cond2)) as [res|] eqn:Hc.
  - exists σ, res. rewrite Hc. split_and!; try done.
    by rewrite insert_id.
  - eexists _, _. split_and!; try done. simpl. by rewrite lookup_insert_eq.
Qed.

(** X10.  When every cached answer is the decision procedure's, [check]
    leaves a cache with the same property and returns what it returns
    with an empty cache. *)
Theorem check_cache_transparent σ :
  sound_cache σ →
  ∃ σ' v,
    check ord self σ = Some (σ', v) ∧ sound_cache σ' ∧
    snd <$> check ord self (set_cache ∅ σ) = Some v.
Proof.
  intros Hsound.
  assert (Hσ : answers oracle σ).
  { intros a b. unfold imp.
    destruct (cachedImplication σ !! (a, b)) as [r|] eqn:Hr; [by apply Hsound|done]. }
  destruct (check_run ord self σ) as (σ' & v & evs & Hrun & Hst & _).
  exists σ', v. split_and!; [done| |].
  - intros a b r Hr. pose proof (step_answers _ _ _ _ _ _ Hst a b) as Ha.
    unfold imp at 1 in Ha. rewrite Hr in Ha. by rewrite Ha, Hσ.
  - pose proof (check_alike ord self oracle σ (set_cache ∅ σ) Hσ) as Hsame.
    rewrite Hrun in Hsame.
    destruct (check ord self (set_cache ∅ σ)) as [[σ2 v2]|]; simpl in *.
    + f_equal. symmetry. by apply Hsame.
    + by destruct Hsame.
Qed.

(** X11.  A pass reports [changed] exactly when it has removed a pair:
    when it returns [False] the relation is unchanged and [compatible]
    holds of every pair it relates; when it returns [True] at least one
    pair was removed. *)
Theorem pass_reports_removals allLabels σ :
  ∃ σ' v evs,
    pass ord self allLabels σ = (σ', v) ∧ trace σ' = evs ++ trace σ ∧
    (v = Ok false →
       compat σ' = compat σ ∧ removals evs = 0 ∧
       ∀ l X s, l ∈ allLabels → compat σ !! l = Some X → s ∈ X →
         (compatible ord self l s σ).2 = Ok true) ∧
    (v = Ok true → 0 < removals evs ∧ total (compat σ') < total (compat σ)).
Proof.
  unfold pass.
  destruct (for_labels_run ord self (imp σ) (iter ord allLabels) false σ)
    as (σ' & v & evs & Hrun & Hst & _ & _ & Hno & Hyes); [done|apply iter_NoDup|].
  pose proof (step_total _ _ _ _ _ _ Hst) as Htot.
  exists σ', v, evs. split_and!; [done|apply Hst| |].
  - intros Hv. destruct (Hno Hv) as (_ & HC & Hall). rewrite HC in *.
    split_and!; [done|lia|].
    intros l X s Hl HX Hs.
    destruct (compatible_run ord self (imp σ) l s σ) as (? & ? & -> & _); [done|].
    simpl. eapply Hall; [by apply iter_elem_of|done|done].
  - intros Hv. destruct (Hyes Hv) as [?|?]; [done|]. lia.
Qed.

(** X12.  [nextStatement] only reads: it raises [KeyError] exactly when
    the label is not a key of [nextLabel], returns [None] exactly when the
    label has no successor, and returns [x] exactly when [x] is its only
    successor, whatever the visiting order. *)
Theorem nextStatement_result l σ :
  ∃ r,
    nextStatement ord self l σ = (push_event (EvNextStatement l) σ, r) ∧
    (r = Raise KeyError ↔ nextLabel self !! l = None) ∧
    (r = Ok None ↔ nextLabel self !! l = Some ∅) ∧
    (∀ x, r = Ok (Some x) ↔ nextLabel self !! l = Some {[x]}).
Proof.
  assert (Hne : ∀ x, Some (∅ : gset nat) ≠ Some {[x]}).
  { intros x Hx. apply (inj Some) in Hx. symmetry in Hx.
    by apply non_empty_singleton_L in Hx. }
  unfold nextStatement. rewrite bind_log. unfold bind, lift, getitem.
  destruct (nextLabel self !! l) as [n|] eqn:Hn; cbn [fst snd].
  2:{ eexists. split; [done|]. split_and!; [done|done|]. intros x. done. }
  destruct (decide (size n = 0)) as [H0|H0].
  { apply size_empty_inv, leibniz_equiv in H0. subst n.
    eexists. split; [done|]. split_and!; [done|done|].
    intros x. split; [done|]. intros Hx. by destruct (Hne x). }
  destruct (decide (1 < size n)) as [H1|H1].
  { eexists. split; [done|]. split_and!; [done| |].
    - split; [done|]. intros Hx. apply (inj Some) in Hx. subst n.
      by rewrite size_empty in H0.
    - intros x. split; [done|]. intros Hx. apply (inj Some) in Hx. subst n.
      rewrite size_singleton in H1. lia. }
  assert (size n = 1) as [x Hx%leibniz_equiv]%size_1_elem_of by lia. subst n.
  rewrite iter_singleton. cbn [head].
  eexists. split; [done|]. split_and!; [done| |].
  - split; [done|]. intros Hx. symmetry in Hx. by destruct (Hne x).
  - intros y. split; [by intros [= ->]|]. intros Hy. apply (inj Some) in Hy.
    do 2 f_equal.
    assert (y ∈ ({[x]} : gset nat)) as Hin by (rewrite Hy; by apply elem_of_singleton).
    by apply elem_of_singleton in Hin.
Qed.

End more_results.

Section first_pass.
Context {names : Str} `{Sympy} (ord : SetOrder) (self : Refinement) (I : Cond → Cond → bool).

(** A loop over states that returns has had [compatible] return on each
    of them. *)
Lemma for_states_evaluated l states : ∀ changed σ σ' b,
  answers I σ →
  for_states ord self l states changed σ = (σ', Ok b) →
  ∀ s, s ∈ states → ∃ C, is_verdict (compatible_on ord self I C l s).
Proof.
  induction states as [|s states IH]; intros changed σ σ' b Hσ Hrun s' Hs'.
  { by apply elem_of_nil in Hs'. }
  destruct (compatible_run ord self I l s σ Hσ) as (σ1 & evs1 & Hc & HC1 & Hst1 & _).
  cbn [for_states] in Hrun.
  destruct (compatible_on ord self I (compat σ) l s) as [[]|e] eqn:Hp.
  - rewrite (bind_ok _ _ _ _ _ Hc) in Hrun.
    apply elem_of_cons in Hs' as [->|Hs'].
    + exists (compat σ). by rewrite Hp.
    + eapply (IH _ σ1); [apply Hst1|done|done].
  - rewrite (bind_ok _ _ _ _ _ Hc) in Hrun. rewrite bind_log in Hrun.
    unfold bind at 1 in Hrun. unfold discard at 1 in Hrun.
    destruct (compat (push_event (EvNotCompatible l s) σ1) !! l) as [c|]; [|done].
    apply elem_of_cons in Hs' as [->|Hs'].
    + exists (compat σ). by rewrite Hp.
    + eapply IH; [|exact Hrun|done]. exact (step_answers _ _ _ _ _ _ Hst1).
  - by rewrite (bind_raise _ _ _ _ _ Hc) in Hrun.
Qed.


Lemma for_labels_evaluated labels : ∀ changed σ σ' b,
  answers I σ → NoDup labels →
  for_labels ord self labels changed σ = (σ', Ok b) →
  ∀ l X s, l ∈ labels → compat σ !! l = Some X → s ∈ X →
    ∃ C, is_verdict (compatible_on ord self I C l s).
Proof.
  induction labels as [|l0 labels IH]; intros changed σ σ' b Hσ Hnd Hrun l X s Hl HX Hs.
  { by apply elem_of_nil in Hl. }
  apply NoDup_cons in Hnd as [Hl0 Hnd].
  cbn [for_labels] in Hrun. unfold bind at 1, getitem in Hrun.
  destruct (compat σ !! l0) as [X0|] eqn:HX0; [|done].
  destruct (for_states_run ord self I l0 (iter ord X0) changed σ Hσ (iter_NoDup ord X0))
    as (σ1 & v1 & evs1 & Hrun1 & Hst1 & Hoth1 & _).
  { intros s' Hs'%iter_elem_of. eauto. }
  destruct v1 as [changed1|e]; [|by rewrite (bind_raise _ _ _ _ _ Hrun1) in Hrun].
  rewrite (bind_ok _ _ _ _ _ Hrun1) in Hrun.
  apply elem_of_cons in Hl as [->|Hl].
  - assert (X = X0) by congruence. subst X.
    eapply for_states_evaluated; [done|exact Hrun1|]. by apply iter_elem_of.
  - eapply (IH _ σ1); [apply Hst1|done|exact Hrun|done| |done].
    rewrite Hoth1; [done|]. by intros ->.
Qed.

End first_pass.

Section fatal.
Context {names : Str} `{Sympy} (ord : SetOrder) (self : Refinement).

Lemma check_verdict_pairs σ σ' b :
  check ord self σ = Some (σ', Ok b) →
  ∀ l s, l ∈ dom (programLabels self) → s ∈ dom (state_to_node self) →
    ∃ C, is_verdict (compatible_on ord self (imp σ) C l s).
Proof.
  unfold check, check_fuel, budget. cbn [while_changed]. unfold pass.
  set (U := universal (dom (programLabels self)) (dom (state_to_node self))).
  destruct (for_labels ord self (iter ord (dom (programLabels self))) false
              (set_compat U σ)) as [σ1 [changed|e]] eqn:Hpass; [|done].
  intros _ l s Hl Hs.
  eapply (for_labels_evaluated ord self (imp σ) _ _ (set_compat U σ));
    [done|apply iter_NoDup|exact Hpass|by apply iter_elem_of| |exact Hs].
  by apply universal_lookup.
Qed.

(** X13.  The first pass evaluates every pair of a label and a state:
    if [compatible] raises on one of them whatever [compat] holds, [check]
    raises and returns no verdict. *)
Theorem check_raises_where_compatible_raises l s σ :
  l ∈ dom (programLabels self) → s ∈ dom (state_to_node self) →
  (∀ C, ¬ is_verdict (compatible ord self l s (set_compat C σ)).2) →
  ∃ σ' e, check ord self σ = Some (σ', Raise e).
Proof.
  intros Hl Hs Hfatal.
  destruct (check_run ord self σ) as (σ' & v & _ & Hrun & _).
  destruct v as [b|e]; [|eauto]. exfalso.
  destruct (check_verdict_pairs σ σ' b Hrun l s Hl Hs) as [C HC].
  apply (Hfatal C).
  destruct (compatible_run ord self (imp σ) l s (set_compat C σ)) as (? & ? & -> & _);
    done.
Qed.

(** X14.  When the label table holds an [If] with at least one branch
    and the projection a guarded choice, every run of [check] ends with
    an exception: the pair is evaluated in the first pass and line 139
    raises. *)
Theorem check_fails_on_If_with_GuardedChoice l lbl c cs s gs σ :
  programLabels self !! l = Some (ast_inter.If lbl (c :: cs)) →
  state_to_node self !! s = Some (ast_proj.GuardedChoice gs) →
  ∃ σ' e, check ord self σ = Some (σ', Raise e).
Proof.
  intros Hl Hs.
  destruct (check_run ord self σ) as (σ' & v & _ & Hrun & _).
  destruct v as [b|e]; [|eauto]. exfalso.
  destruct (check_verdict_pairs σ σ' b Hrun l s) as [C HC];
    [by eapply elem_of_dom_2..|].
  destruct (compatible_run ord self (imp σ) l s (set_compat C σ)) as (? & ? & Hc & _);
    [done|].
  pose proof (compatible_If_GuardedChoice_NameError ord self (set_compat C σ)
                l s lbl c cs gs Hl Hs) as Hraise.
  rewrite Hc in Hraise. simpl in Hraise. by rewrite Hraise in HC.
Qed.

End fatal.

Section edges.
Context {names : Str} `{Sympy} (ord : SetOrder) (self : Refinement).

(** X15.  [check] answers [True] only for a start state that is a state
    of the projection; it returns no verdict when the label of the
    program is not in the label table; and on a projection without states
    it calls [compatible] not once and answers [False]. *)
Theorem check_edge_cases σ :
  ∃ σ' v evs,
    check ord self σ = Some (σ', v) ∧ trace σ' = evs ++ trace σ ∧
    (v = Ok true →
       start_state (projection self) ∈ dom (state_to_node self) ∧
       ast_inter.get_label (program self) ∈ dom (programLabels self)) ∧
    (ast_inter.get_label (program self) ∉ dom (programLabels self) →
       ¬ is_verdict v) ∧
    (dom (state_to_node self) = ∅ →
       evs = [] ∧
       (ast_inter.get_label (program self) ∈ dom (programLabels self) →
        v = Ok false)).
Proof.
  destruct (check_run ord self σ) as (σ' & v & evs & Hrun & Hst & _ & Hv).
  exists σ', v, evs.
  pose proof (step_dom _ _ _ _ _ _ Hst) as Hdom. simpl in Hdom.
  unfold universal in Hdom. rewrite dom_gset_to_gmap in Hdom.
  split_and!; [done|apply Hst| | |].
  - intros ->. destruct (Hv true eq_refl) as (_ & X & HX & Hb).
    symmetry in Hb. apply bool_decide_eq_true in Hb. split.
    + destruct (step_below _ _ _ _ _ _ Hst _ _ HX) as (X' & [_ ->]%universal_lookup & Hsub).
      by apply Hsub.
    + rewrite <- Hdom. by eapply elem_of_dom_2.
  - intros Hroot Hverdict. destruct v as [b|e]; [|done].
    destruct (Hv b eq_refl) as (_ & X & HX & _).
    apply Hroot. rewrite <- Hdom. by eapply elem_of_dom_2.
  - intros Hempty. revert Hrun. unfold check, check_fuel, budget.
    cbn [while_changed]. unfold pass. rewrite for_labels_nothing.
    2:{ intros l Hl%iter_elem_of. simpl. apply universal_lookup. by rewrite Hempty. }
    unfold verdict, bind, getitem. simpl.
    destruct (universal _ _ !! _) as [X|] eqn:HX.
    + apply universal_lookup in HX as [_ ->].
      intros [= <- <-]. pose proof (step_trace _ _ _ _ _ _ Hst) as Htr. simpl in Htr.
      split.
      * symmetry. apply (app_inv_tail (trace σ)). by rewrite <- Htr.
      * intros _. rewrite Hempty. by rewrite bool_decide_eq_false_2.
    + intros [= <- <-]. pose proof (step_trace _ _ _ _ _ _ Hst) as Htr. simpl in Htr.
      split.
      * symmetry. apply (app_inv_tail (trace σ)). by rewrite <- Htr.
      * intros Hroot. exfalso.
        assert (is_Some (universal (dom (programLabels self)) (dom (state_to_node self))
                  !! ast_inter.get_label (program self))) as [X' HX'].
        { eexists. by apply universal_lookup. }
        congruence.
Qed.

(** An [If] whose branches all carry a guard other than the literal
    [S.true]. *)
Lemma trivial_cases_none cases :
  (∀ c, c ∈ cases → ast_inter.condition_of c ≠ Ok S_true) →
  trivial_cases cases = Ok [] ∨ ∃ e, trivial_cases cases = Raise e.
Proof.
  induction cases as [|c cases IH]; intros Hall; [by left|].
  simpl. destruct (ast_inter.condition_of c) as [cnd|e] eqn:Hc; simpl; [|eauto].
  case_decide as Heq.
  - subst cnd. exfalso. apply (Hall c); [by left|done].
  - apply IH. intros c' Hc'. apply Hall. by right.
Qed.

Lemma trivial_cases_nil cases :
  (∀ c, c ∈ cases → ast_inter.condition_of c ≠ Ok S_true) →
  (∀ c, c ∈ cases → is_verdict (ast_inter.condition_of c)) →
  trivial_cases cases = Ok [].
Proof.
  induction cases as [|c cases IH]; intros Hall Hcond; [done|].
  simpl. pose proof (Hcond c (list_elem_of_here _ _)) as Hc.
  destruct (ast_inter.condition_of c) as [cnd|e] eqn:Hcnd; [|done]. simpl.
  case_decide as Heq.
  - subst cnd. exfalso. apply (Hall c); [by left|done].
  - apply IH; intros c' Hc'; [apply Hall|apply Hcond]; by right.
Qed.

(** X16.  An [If] with at least one branch, none guarded by the literal
    [S.true], is compatible with no state: [compatible] never returns
    [True] for its label.  Against a guarded choice it raises at line
    139; against a state of any other kind it returns [False] when
    every branch has a condition, since [trivial] is empty. *)
Theorem guarded_If_refines_nothing l lbl c cs :
  programLabels self !! l = Some (ast_inter.If lbl (c :: cs)) →
  (∀ i, i ∈ c :: cs → ast_inter.condition_of i ≠ Ok S_true) →
  ∀ s σ,
    (compatible ord self l s σ).2 ≠ Ok true ∧
    (∀ gs, state_to_node self !! s = Some (ast_proj.GuardedChoice gs) →
       (compatible ord self l s σ).2 = Raise NameError) ∧
    (∀ node, state_to_node self !! s = Some node →
       (∀ gs, node ≠ ast_proj.GuardedChoice gs) →
       (∀ i, i ∈ c :: cs → is_verdict (ast_inter.condition_of i)) →
       (compatible ord self l s σ).2 = Ok false).
Proof.
  intros Hl Hguards s σ.
  destruct (compatible_run ord self (imp σ) l s σ) as (σ' & evs & Hrun & _); [done|].
  rewrite Hrun. cbn [snd]. split_and!.
  - unfold compatible_on, getitem. rewrite Hl. cbn -[trivial_cases].
    destruct (state_to_node self !! s) as [node|]; cbn -[trivial_cases]; [|done].
    destruct (trivial_cases_none (c :: cs) Hguards) as [Hnone|[e He]];
      destruct node; try done; rewrite ?Hnone, ?He; done.
  - intros gs Hs. unfold compatible_on, getitem. by rewrite Hl, Hs.
  - intros node Hs Hkind Hcond.
    unfold compatible_on, getitem. rewrite Hl, Hs. cbn -[trivial_cases].
    rewrite (trivial_cases_nil (c :: cs) Hguards Hcond).
    destruct node; try done. by destruct (Hkind guarded_states).
Qed.

End edges.

Section counts.
Context {names : Str} `{Sympy} (ord : SetOrder) (self : Refinement).

(** X17.  The removals account for the pairs that are missing at the
    end: their number plus the size of the final relation is
    [|L| * |S|], when [check] returns and when it raises. *)
Theorem check_removals_exact σ :
  ∃ σ' v evs,
    check ord self σ = Some (σ', v) ∧ trace σ' = evs ++ trace σ ∧
    dom (compat σ') = dom (programLabels self) ∧
    removals evs + total (compat σ')
      = size (dom (programLabels self)) * size (dom (state_to_node self)).
Proof.
  destruct (check_run ord self σ) as (σ' & v & evs & Hrun & Hst & _ & _).
  exists σ', v, evs. split_and!; [done|apply Hst| |].
  - pose proof (step_dom _ _ _ _ _ _ Hst) as Hdom. simpl in Hdom.
    unfold universal in Hdom. by rewrite dom_gset_to_gmap in Hdom.
  - pose proof (step_total _ _ _ _ _ _ Hst) as Ht. simpl in Ht.
    by rewrite total_universal in Ht.
Qed.

End counts.

(** * Instances *)

Lemma no_edges_keys l : l ∈ labels receive_program → l ∈ dom no_edges.
Proof.
  change (labels receive_program) with [0; 1; 2; 3; 4; 5].
  intros Hl. apply elem_of_dom.
  repeat (apply elem_of_cons in Hl as [->|Hl]; [eexists; vm_compute; reflexivity|]).
  by apply elem_of_nil in Hl.
Qed.

Lemma receive_labels_distinct : NoDup (labels receive_program).
Proof. apply (bool_decide_unpack _). vm_compute. exact I. Qed.

Lemma no_edges_unlinked l X : no_edges !! l = Some X → X = ∅.
Proof.
  unfold no_edges. rewrite lookup_fmap.
  destruct (label_as_root receive_program !! l); [|done]. by intros [= <-].
Qed.

(** X1, at the receive of [receive_program]. *)
Lemma buildCFA_returns_witness :
  (∀ p, p ∈ ({[0]} : gset nat) → p ∈ dom no_edges) ∧
  (∀ l, l ∈ labels receive_node → l ∈ dom no_edges) ∧
  ∃ nl' exits,
    buildCFA {[0]} receive_node no_edges = Ok (nl', exits) ∧
    dom nl' = dom no_edges ∧
    (∀ l, l ∈ exits → l ∈ labels receive_node) ∧
    (∀ p X', nl' !! p = Some X' →
       ∃ X, no_edges !! p = Some X ∧ X ⊆ X' ∧
            ∀ x, x ∈ X' → x ∈ X ∨ x ∈ labels receive_node) ∧
    (∀ p, p ∉ ({[0]} : gset nat) → p ∉ labels receive_node →
       nl' !! p = no_edges !! p).
Proof.
  assert (H0 : ∀ p, p ∈ ({[0]} : gset nat) → p ∈ dom no_edges).
  { intros p ->%elem_of_singleton. apply no_edges_keys. by left. }
  assert (H1 : ∀ l, l ∈ labels receive_node → l ∈ dom no_edges).
  { intros l Hl. apply no_edges_keys.
    change (labels receive_program) with (0 :: labels receive_node ++ [5]).
    right. apply elem_of_app. by left. }
  split_and!; [done|done|].
  apply (buildCFA_returns {[0]} receive_node no_edges H0 H1).
Defined.

(** X2, with a predecessor that labels nothing. *)
Lemma buildCFA_missing_predecessor_witness :
  7 ∈ ({[7]} : gset nat) ∧ (7 ∉ dom no_edges) ∧
  buildCFA {[7]} receive_node no_edges = Raise KeyError.
Proof.
  assert (H0 : 7 ∈ ({[7]} : gset nat)) by (by apply elem_of_singleton).
  assert (H1 : 7 ∉ dom no_edges).
  { rewrite elem_of_dom. intros [X HX]. vm_compute in HX. discriminate. }
  split_and!; [done|done|].
  apply (buildCFA_missing_predecessor {[7]} receive_node no_edges 7 H0 H1).
Defined.

(** X3, at [receive_program]. *)
Lemma buildCFA_single_successor_witness :
  ∃ nl' exits,
    NoDup (labels receive_program) ∧
    (∀ l, l ∈ labels receive_program → ∀ X, no_edges !! l = Some X → X = ∅) ∧
    buildCFA ∅ receive_program no_edges = Ok (nl', exits) ∧
    (∀ node, node ∈ subtrees receive_program → branching node = false →
       ∀ X, nl' !! ast_inter.get_label node = Some X → size X ≤ 1) ∧
    (∀ l, l ∈ exits → ∀ X, nl' !! l = Some X → X = ∅).
Proof.
  destruct (buildCFA ∅ receive_program no_edges) as [[nl' exits]|e] eqn:Hrun;
    [|vm_compute in Hrun; discriminate].
  exists nl', exits.
  assert (H1 : ∀ l, l ∈ labels receive_program →
                 ∀ X, no_edges !! l = Some X → X = ∅).
  { intros l _. apply no_edges_unlinked. }
  split_and!; [apply receive_labels_distinct|done|done|..];
    apply (buildCFA_single_successor receive_program no_edges nl' exits
             receive_labels_distinct H1 Hrun).
Defined.

(** X4, at [receive_program]. *)
Lemma init_with_returns_witness :
  (∀ l, l ∈ labels receive_program → l ∈ dom (label_as_root receive_program)) ∧
  ∃ self,
    init_with receive_program (label_as_root receive_program) receive_projection
      = Ok self ∧
    programLabels self = label_as_root receive_program ∧
    state_to_node self = mk_state_to_node receive_projection ∧
    initLabel self = ast_inter.get_label receive_program ∧
    dom (nextLabel self) = dom (label_as_root receive_program) ∧
    (∀ l X, nextLabel self !! l = Some X →
       ∀ x, x ∈ X → x ∈ labels receive_program) ∧
    (∀ l, l ∈ dom (label_as_root receive_program) → l ∉ labels receive_program →
       nextLabel self !! l = Some ∅).
Proof.
  assert (H0 : ∀ l, l ∈ labels receive_program →
                 l ∈ dom (label_as_root receive_program)).
  { intros l Hl. rewrite <- (dom_fmap_L (λ _, ∅ : gset nat)). by apply no_edges_keys. }
  split; [done|].
  apply (init_with_returns receive_program (label_as_root receive_program)
           receive_projection H0).
Defined.

(** X5, at [receive_program]. *)
Lemma distinct_labels_never_ambiguous_witness :
  init_with receive_program (label_as_root receive_program) receive_projection
    = Ok receive_refinement ∧
  NoDup (labels receive_program) ∧
  (∀ l node, label_as_root receive_program !! l = Some node →
     node ∈ subtrees receive_program ∧ ast_inter.get_label node = l) ∧
  (∀ l, caller receive_refinement l → ¬ ambiguous receive_refinement l) ∧
  ∀ ord σ σ' v,
    check ord receive_refinement σ = Some (σ', v) → v ≠ Raise (TypeError "set").
Proof.
  assert (H0 : init_with receive_program (label_as_root receive_program)
                 receive_projection = Ok receive_refinement)
    by apply receive_refinement_built.
  split_and!; [done|apply receive_labels_distinct|apply label_as_root_sound|..];
    apply (distinct_labels_never_ambiguous receive_program
             (label_as_root receive_program) receive_projection receive_refinement
             H0 receive_labels_distinct (label_as_root_sound receive_program)).
Defined.

(** X6, at the loop, visited in increasing and in decreasing order. *)
Lemma verdict_order_independent_witness :
  ∃ σ1 σ2,
    check ascending loop_refinement fresh = Some (σ1, Ok true) ∧
    check descending loop_refinement fresh = Some (σ2, Ok true) ∧
    true = true ∧ compat σ1 = compat σ2.
Proof.
  destruct (check ascending loop_refinement fresh) as [[σ1 v1]|] eqn:H1;
    [|vm_compute in H1; discriminate].
  destruct (check descending loop_refinement fresh) as [[σ2 v2]|] eqn:H2;
    [|vm_compute in H2; discriminate].
  assert (v1 = Ok true) as ->.
  { assert (snd <$> check ascending loop_refinement fresh = Some (Ok true)) as Hv
      by (vm_compute; reflexivity).
    rewrite H1 in Hv. by injection Hv. }
  assert (v2 = Ok true) as ->.
  { assert (snd <$> check descending loop_refinement fresh = Some (Ok true)) as Hv
      by (vm_compute; reflexivity).
    rewrite H2 in Hv. by injection Hv. }
  exists σ1, σ2. split_and!; [done|done|..];
    apply (verdict_order_independent loop_refinement ascending descending
             fresh σ1 σ2 true true H1 H2).
Defined.

(** X7, at the send: from the relation that holds the one pair it needs to the
    universal one. *)
Lemma compatible_monotone_witness :
  below ({[2 := {[1]}]} : gmap nat (gset nat)) (compat (at_entry send_refinement)) ∧
  (compatible ascending send_refinement 1 0 (set_compat {[2 := {[1]}]} fresh)).2
    = Ok true ∧
  (compatible ascending send_refinement 1 0
     (set_compat (compat (at_entry send_refinement)) fresh)).2 = Ok true.
Proof.
  assert (H0 : below ({[2 := {[1]}]} : gmap nat (gset nat))
                 (compat (at_entry send_refinement))).
  { intros l X [<- <-]%lookup_singleton_Some.
    exists {[0; 1]}. split; [vm_compute; reflexivity|].
    intros x ->%elem_of_singleton. apply elem_of_union_r. by apply elem_of_singleton. }
  assert (H1 : (compatible ascending send_refinement 1 0
                  (set_compat {[2 := {[1]}]} fresh)).2 = Ok true)
    by (vm_compute; reflexivity).
  split_and!; [done|done|].
  apply (compatible_monotone ascending send_refinement 1 0 fresh _ _ H0 H1).
Defined.

(** The loop of [loop_program] asks for the pair of [x] and [x], and the
    run reads the answer from the cache when it is there. *)
Example warm_cache_is_read :
  snd <$> check ascending loop_refinement warm = Some (Ok true) ∧
  snd <$> check ascending loop_refinement stale = Some (Ok false).
Proof. split; vm_compute; reflexivity. Qed.

Lemma warm_sound : sound_cache warm.
Proof.
  intros a b r Hr. unfold warm in Hr. simpl in Hr.
  apply lookup_singleton_Some in Hr as [[= <- <-] <-]. vm_compute. reflexivity.
Qed.

(** X10, at the loop, from a cache that holds the answer for a pair the
    run asks for. *)
Lemma check_cache_transparent_witness :
  sound_cache warm ∧ cachedImplication warm !! (x_holds, x_holds) = Some true ∧
  ∃ σ' v,
    check ascending loop_refinement warm = Some (σ', v) ∧ sound_cache σ' ∧
    snd <$> check ascending loop_refinement (set_cache ∅ warm) = Some v.
Proof.
  split; [exact warm_sound|]. split; [vm_compute; reflexivity|].
  apply (check_cache_transparent ascending loop_refinement warm warm_sound).
Defined.

Lemma if_refinement_If :
  programLabels if_refinement !! 0 = Some (ast_inter.If 0
    [ast_inter.IfComponent 1 S_true (ast_inter.Exit 2)]).
Proof. vm_compute. reflexivity. Qed.

Lemma if_refinement_GuardedChoice :
  state_to_node if_refinement !! 0 = Some (ast_proj.GuardedChoice [(S_true, 1)]).
Proof. vm_compute. reflexivity. Qed.

(** X13, at the [If] against a guarded choice. *)
Lemma check_raises_where_compatible_raises_witness :
  0 ∈ dom (programLabels if_refinement) ∧ 0 ∈ dom (state_to_node if_refinement) ∧
  (∀ C, ¬ is_verdict (compatible ascending if_refinement 0 0 (set_compat C fresh)).2) ∧
  ∃ σ' e, check ascending if_refinement fresh = Some (σ', Raise e).
Proof.
  assert (H0 : 0 ∈ dom (programLabels if_refinement))
    by (eapply elem_of_dom_2; apply if_refinement_If).
  assert (H1 : 0 ∈ dom (state_to_node if_refinement))
    by (eapply elem_of_dom_2; apply if_refinement_GuardedChoice).
  assert (H2 : ∀ C, ¬ is_verdict
            (compatible ascending if_refinement 0 0 (set_compat C fresh)).2).
  { intros C.
    rewrite (compatible_If_GuardedChoice_NameError ascending if_refinement _ 0 0 _ _ _ _
               if_refinement_If if_refinement_GuardedChoice). by intros []. }
  split_and!; [done|done|done|].
  apply (check_raises_where_compatible_raises ascending if_refinement 0 0 fresh H0 H1 H2).
Defined.

(** X14, at the same instance. *)
Lemma check_fails_on_If_with_GuardedChoice_witness :
  programLabels if_refinement !! 0 = Some (ast_inter.If 0
    [ast_inter.IfComponent 1 S_true (ast_inter.Exit 2)]) ∧
  state_to_node if_refinement !! 0 = Some (ast_proj.GuardedChoice [(S_true, 1)]) ∧
  ∃ σ' e, check ascending if_refinement fresh = Some (σ', Raise e).
Proof.
  split_and!; [apply if_refinement_If|apply if_refinement_GuardedChoice|].
  apply (check_fails_on_If_with_GuardedChoice ascending if_refinement 0 0 _ [] 0 _ fresh
           if_refinement_If if_refinement_GuardedChoice).
Defined.

Lemma guarded_refinement_If :
  programLabels guarded_refinement !! 0 = Some guarded_program.
Proof. vm_compute. reflexivity. Qed.

Lemma guarded_refinement_End :
  state_to_node guarded_refinement !! 0 = Some ast_proj.End.
Proof. vm_compute. reflexivity. Qed.

(** X16, at an [If] guarded by [x], against the state [End]. *)
Lemma guarded_If_refines_nothing_witness :
  programLabels guarded_refinement !! 0 = Some (ast_inter.If 0
    [ast_inter.IfComponent 1 x_holds (ast_inter.Exit 2)]) ∧
  (∀ i, i ∈ [ast_inter.IfComponent 1 x_holds (ast_inter.Exit 2)] →
     ast_inter.condition_of i ≠ Ok S_true) ∧
  state_to_node guarded_refinement !! 0 = Some ast_proj.End ∧
  (∀ s σ, (compatible ascending guarded_refinement 0 s σ).2 ≠ Ok true) ∧
  (∀ σ, (compatible ascending guarded_refinement 0 0 σ).2 = Ok false).
Proof.
  assert (H1 : ∀ i, i ∈ [ast_inter.IfComponent 1 x_holds (ast_inter.Exit 2)] →
                 ast_inter.condition_of i ≠ Ok S_true).
  { intros i ->%list_elem_of_singleton. simpl. intros [=]. }
  assert (H2 : ∀ i, i ∈ [ast_inter.IfComponent 1 x_holds (ast_inter.Exit 2)] →
                 is_verdict (ast_inter.condition_of i)).
  { intros i ->%list_elem_of_singleton. exact I. }
  split_and!; [apply guarded_refinement_If|done|apply guarded_refinement_End| |].
  - intros s σ.
    apply (guarded_If_refines_nothing ascending guarded_refinement 0 0 _ []
             guarded_refinement_If H1 s σ).
  - intros σ.
    apply (proj2 (proj2 (guarded_If_refines_nothing ascending guarded_refinement
                           0 0 _ [] guarded_refinement_If H1 0 σ))
             ast_proj.End guarded_refinement_End); [discriminate|exact H2].
Defined.

(** * The control-flow automaton of a [While] *)

Section while_cfa.
Context {names : Str} `{Sympy}.

(** X18.  For [While] with label [l], [buildCFA] connects the incoming
    predecessors to [l], builds the body from no predecessor, connects
    every exit of the body back to [l] and returns [l] as the only exit.
    The call gives [l] no successor of its own: the entry of the body is
    not linked from it. *)
Theorem buildCFA_While lastLabels l c body nl nl' exits :
  buildCFA lastLabels (ast_inter.While l c body) nl = Ok (nl', exits) →
  exits = {[l]} ∧
  ∃ nl1 nl2 ls2,
    add_edges (elements lastLabels) l nl = Ok nl1 ∧
    buildCFA ∅ body nl1 = Ok (nl2, ls2) ∧
    add_edges (elements ls2) l nl2 = Ok nl' ∧
    (∀ e, e ∈ ls2 → ∃ X, nl' !! e = Some X ∧ l ∈ X) ∧
    (l ∉ labels body → nl' !! l = nl1 !! l).
Proof.
  rewrite buildCFA_entry. simpl ast_inter.get_label.
  intros (nl1 & Hadd & Hrest)%rbind_ok.
  simpl in Hrest. rewrite elements_empty in Hrest. simpl in Hrest.
  apply rbind_ok in Hrest as ([nl2 ls2] & Hbody & Hrest).
  apply rbind_ok in Hrest as (nl3 & Hadd3 & [= <- <-]).
  split; [done|]. exists nl1, nl2, ls2. split_and!; [done|done|done| |].
  - intros e He. destruct (add_edges_grows _ _ _ _ Hadd3) as [_ Hin].
    apply Hin. by apply elem_of_elements.
  - intros Hl. destruct (add_edges_lookup _ _ _ _ Hadd3) as [_ Hlook].
    destruct (buildCFA_sound body _ _ _ _ Hbody) as (_ & Hex & Hfr).
    rewrite Hlook. rewrite decide_False.
    + apply Hfr; [by apply not_elem_of_empty|done].
    + rewrite elem_of_elements. intros Hin. by apply Hl, Hex.
Qed.

End while_cfa.

(** X18, at the loop of [loop_program]. *)
Lemma buildCFA_While_witness :
  ∃ nl' exits,
    buildCFA {[0]} (ast_inter.While 1 x_holds (ast_inter.Skip 2))
      ((λ _, ∅) <$> label_as_root loop_program) = Ok (nl', exits) ∧
    exits = {[1]} ∧
    ∃ nl1 nl2 ls2,
      add_edges (elements ({[0]} : gset nat)) 1
        ((λ _, ∅) <$> label_as_root loop_program) = Ok nl1 ∧
      buildCFA ∅ (ast_inter.Skip 2) nl1 = Ok (nl2, ls2) ∧
      add_edges (elements ls2) 1 nl2 = Ok nl' ∧
      (∀ e, e ∈ ls2 → ∃ X, nl' !! e = Some X ∧ 1 ∈ X) ∧
      (1 ∉ labels (ast_inter.Skip 2) → nl' !! 1 = nl1 !! 1).
Proof.
  destruct (buildCFA {[0]} (ast_inter.While 1 x_holds (ast_inter.Skip 2))
              ((λ _, ∅) <$> label_as_root loop_program))
    as [[nl' exits]|e] eqn:Hrun; [|vm_compute in Hrun; discriminate].
  exists nl', exits. split; [done|].
  apply (buildCFA_While {[0]} 1 x_holds (ast_inter.Skip 2) _ nl' exits Hrun).
Defined.

(** * Runs of [check] that return *)

Section verdicts.
Context {names : Str} `{Sympy} (ord : SetOrder) (self : Refinement) (I : Cond → Cond → bool).
Context (Hsane : sane self).

Lemma rany_verdict {A} (f : A → result bool) xs :
  (∀ x, x ∈ xs → is_verdict (f x)) → is_verdict (rany f xs).
Proof.
  induction xs as [|x xs IH]; intros Hf; [done|]. simpl.
  pose proof (Hf x (list_elem_of_here x xs)) as Hx.
  destruct (f x) as [[]|e]; simpl; [done| |done].
  apply IH. intros y Hy. apply Hf. by right.
Qed.

Lemma rall_verdict {A} (f : A → result bool) xs :
  (∀ x, x ∈ xs → is_verdict (f x)) → is_verdict (rall f xs).
Proof.
  induction xs as [|x xs IH]; intros Hf; [done|]. simpl.
  pose proof (Hf x (list_elem_of_here x xs)) as Hx.
  destruct (f x) as [[]|e]; simpl; [|done|done].
  apply IH. intros y Hy. apply Hf. by right.
Qed.

Lemma refines_on_label C l s :
  l ∈ dom C → is_verdict (refines_on self C (Some l) s).
Proof. intros [X HX]%elem_of_dom. unfold refines_on, getitem. by rewrite HX. Qed.

Lemma refines_on_end C s :
  s ∈ dom (state_to_node self) → is_verdict (refines_on self C None s).
Proof. intros [X HX]%elem_of_dom. unfold refines_on, getitem. by rewrite HX. Qed.

Lemma next_on_sane l node :
  programLabels self !! l = Some node → calls_next node = true →
  ∃ nxt, next_on ord self l = Ok nxt ∧
         ∀ l', nxt = Some l' → l' ∈ dom (programLabels self).
Proof.
  intros Hl Hkind.
  destruct (sane_next _ Hsane l node Hl Hkind) as (n & Hn & Hsize & Hsub).
  unfold next_on, getitem. rewrite Hn. simpl.
  case_decide as H0; [by exists None|].
  case_decide as H1; [lia|].
  assert (size n = 1) as [x Hx%leibniz_equiv]%size_1_elem_of by lia. subst n.
  rewrite iter_singleton. exists (Some x). split; [done|].
  intros l' [= <-]. apply Hsub. by apply elem_of_singleton.
Qed.

(** [_refines(self.nextStatement(l), s)] returns. *)
Lemma refines_next_verdict C l node s :
  dom C = dom (programLabels self) →
  programLabels self !! l = Some node → calls_next node = true →
  s ∈ dom (state_to_node self) →
  is_verdict (let! nxt := next_on ord self l in refines_on self C nxt s).
Proof.
  intros HC Hl Hkind Hs.
  destruct (next_on_sane l node Hl Hkind) as (nxt & -> & Hnxt). simpl.
  destruct nxt as [l'|].
  - apply refines_on_label. rewrite HC. by apply Hnxt.
  - by apply refines_on_end.
Qed.

Lemma compatible_on_verdict C l s :
  dom C = dom (programLabels self) →
  l ∈ dom (programLabels self) → s ∈ dom (state_to_node self) →
  is_verdict (compatible_on ord self I C l s).
Proof.
  intros HC [node Hl]%elem_of_dom [pnode Hs]%elem_of_dom.
  pose proof (sane_kinds _ Hsane l node Hl) as Hkind.
  pose proof (sane_states _ Hsane s pnode Hs) as Hclosed. simpl in Hclosed.
  pose proof (elem_of_dom_2 _ _ _ Hs) as Hsdom.
  unfold compatible_on, getitem. rewrite Hl, Hs. cbn [rbind].
  destruct node as [lbl cs|lbl m acts|lbl t p|lbl cs|lbl c p|lbl c body|lbl v|lbl
                    |lbl cmp t|lbl|lbl|lbl]; try done.
  - (* Statement *)
    by eapply refines_next_verdict.
  - (* Receive *)
    destruct (sane_receive _ Hsane l lbl m acts Hl) as [Hm Hacts].
    destruct pnode; try done.
    + apply refines_on_label. by rewrite HC.
    + apply rany_verdict. intros a Ha. apply refines_on_label. rewrite HC. by apply Hacts.
    + apply rall_verdict. intros ns _.
      pose proof (refines_on_label C (ast_inter.get_label m) ns) as Hv.
      rewrite HC in Hv. specialize (Hv Hm).
      destruct (refines_on self C (Some (ast_inter.get_label m)) ns) as [[]|e];
        simpl; [done| |done].
      apply rany_verdict. intros a Ha. apply refines_on_label. rewrite HC. by apply Hacts.
  - (* Action *)
    destruct pnode as [| |mt es| | |]; try done. case_decide; [|done].
    destruct es as [|e es]; [done|]. apply bool_decide_eq_true in Hclosed.
    destruct (next_on_sane l _ Hl eq_refl) as (nxt & -> & Hnxt). simpl.
    destruct nxt as [l'|].
    + apply refines_on_label. rewrite HC. by apply Hnxt.
    + by apply refines_on_end.
  - (* While *)
    pose proof (sane_while _ Hsane l lbl c body Hl) as Hbody.
    case_decide.
    { apply refines_on_label. by rewrite HC. }
    destruct pnode as [| | |gs| |]; try done. simpl in Hclosed.
    rewrite forallb_forall in Hclosed.
    assert (Hgs : ∀ g, g ∈ gs → g.2 ∈ dom (state_to_node self)).
    { intros g Hg. eapply bool_decide_eq_true_1, Hclosed.
      by apply list_elem_of_In. }
    assert (Henter : is_verdict (rany (λ gs0 : Cond * nat,
        let! i := Ok (I c gs0.1) in
        if i then refines_on self C (Some (ast_inter.get_label body)) gs0.2
        else Ok false) gs)).
    { apply rany_verdict. intros g Hg. simpl. destruct (I c g.1); [|done].
      apply refines_on_label. by rewrite HC. }
    destruct (rany _ gs) as [[]|e] in Henter |- *; simpl; [|done|done].
    assert (Hleave : is_verdict (rany (λ gs0 : Cond * nat,
        let! i := Ok (I (Not c) gs0.1) in
        if i then let! nxt := next_on ord self l in refines_on self C nxt gs0.2
        else Ok false) gs)).
    { apply rany_verdict. intros g Hg. simpl. destruct (I (Not c) g.1); [|done].
      eapply refines_next_verdict; [done|done|done|by apply Hgs]. }
    by destruct (rany _ gs) as [[]|e] in Hleave |- *.
  - (* Motion *)
    destruct pnode as [ms es| | | | |]; try done.
    destruct ms as [|mp ms]; [done|]. destruct es as [|e es]; [done|].
    apply bool_decide_eq_true in Hclosed. simpl.
    destruct (sameMpName v mp); [|done].
    destruct (next_on_sane l _ Hl eq_refl) as (nxt & -> & Hnxt). simpl.
    destruct nxt as [l'|].
    + apply refines_on_label. rewrite HC. by apply Hnxt.
    + by apply refines_on_end.
  - (* Assign *)
    by eapply refines_next_verdict.
  - (* Send *)
    destruct pnode as [|r mt es| | | |]; try done. case_decide; [|done].
    destruct (sameMsgName t mt); [|done].
    destruct es as [|e es]; [done|]. apply bool_decide_eq_true in Hclosed.
    destruct (next_on_sane l _ Hl eq_refl) as (nxt & -> & Hnxt). simpl.
    destruct nxt as [l'|].
    + apply refines_on_label. rewrite HC. by apply Hnxt.
    + by apply refines_on_end.
  - (* Print *)
    by eapply refines_next_verdict.
  - (* Skip *)
    by eapply refines_next_verdict.
Qed.

End verdicts.

Section loops_return.
Context {names : Str} `{Sympy} (ord : SetOrder) (self : Refinement) (I : Cond → Cond → bool).

Lemma for_states_verdict L S l states : ∀ changed σ,
  returns_on ord self I L S → answers I σ → dom (compat σ) = L → l ∈ L →
  (∀ s, s ∈ states → s ∈ S) →
  is_verdict (for_states ord self l states changed σ).2.
Proof.
  intros changed σ Hret. revert changed σ.
  induction states as [|s states IH]; intros changed σ Hσ Hdom Hl Hin; [done|].
  destruct (compatible_run ord self I l s σ Hσ) as (σ1 & evs1 & Hc & HC1 & Hst1 & _).
  cbn [for_states].
  pose proof (Hret (compat σ) l s Hdom Hl (Hin s (list_elem_of_here s states))) as Hv.
  destruct (compatible_on ord self I (compat σ) l s) as [[]|e]; [| |done].
  - rewrite (bind_ok _ _ _ _ _ Hc). apply IH.
    + apply Hst1.
    + by rewrite HC1.
    + done.
    + intros s' Hs'. apply Hin. by right.
  - rewrite (bind_ok _ _ _ _ _ Hc). rewrite bind_log.
    unfold bind at 1. unfold discard at 1. simpl.
    assert (is_Some (compat σ1 !! l)) as [c Hcl].
    { apply elem_of_dom. by rewrite HC1, Hdom. }
    rewrite Hcl. apply IH.
    + exact (step_answers _ _ _ _ _ _ Hst1).
    + simpl. rewrite (dom_insert_present _ _ _ _ Hcl). by rewrite HC1.
    + done.
    + intros s' Hs'. apply Hin. by right.
Qed.

Lemma for_labels_verdict L S labels : ∀ changed σ,
  returns_on ord self I L S → answers I σ → dom (compat σ) = L → NoDup labels →
  (∀ l, l ∈ labels → l ∈ L) →
  (∀ l X, compat σ !! l = Some X → X ⊆ S) →
  is_verdict (for_labels ord self labels changed σ).2.
Proof.
  intros changed σ Hret. revert changed σ.
  induction labels as [|l labels IH]; intros changed σ Hσ Hdom Hnd Hin Hsub; [done|].
  apply NoDup_cons in Hnd as [Hl Hnd].
  cbn [for_labels]. unfold bind at 1, getitem.
  assert (is_Some (compat σ !! l)) as [X HX].
  { apply elem_of_dom. rewrite Hdom. apply Hin. by left. }
  rewrite HX.
  destruct (for_states_run ord self I l (iter ord X) changed σ Hσ (iter_NoDup ord X))
    as (σ1 & v1 & evs1 & Hrun1 & Hst1 & _).
  { intros s Hs%iter_elem_of. eauto. }
  pose proof (for_states_verdict L S l (iter ord X) changed σ Hret Hσ Hdom) as Hv.
  rewrite Hrun1 in Hv. simpl in Hv.
  destruct v1 as [changed1|e].
  2:{ exfalso. apply Hv; [apply Hin; by left|].
      intros s Hs%iter_elem_of. by apply (Hsub l X). }
  rewrite (bind_ok _ _ _ _ _ Hrun1). apply IH.
  - apply Hst1.
  - by rewrite (step_dom _ _ _ _ _ _ Hst1).
  - done.
  - intros l' Hl'. apply Hin. by right.
  - intros l' X' HX'.
    destruct (step_below _ _ _ _ _ _ Hst1 _ _ HX') as (X0 & HX0 & Hsub0).
    etrans; [done|]. by eapply Hsub.
Qed.

Lemma while_changed_verdict L S fuel : ∀ σ σ' v,
  returns_on ord self I L S → answers I σ → dom (compat σ) = L →
  (∀ l X, compat σ !! l = Some X → X ⊆ S) →
  while_changed ord self fuel L σ = Some (σ', v) →
  v = Ok tt ∧ dom (compat σ') = L.
Proof.
  induction fuel as [|fuel IH]; intros σ σ' v Hret Hσ Hdom Hsub; [done|].
  cbn [while_changed]. unfold pass.
  destruct (for_labels_run ord self I (iter ord L) false σ Hσ (iter_NoDup ord L))
    as (σ1 & v1 & evs1 & Hrun1 & Hst1 & _).
  pose proof (for_labels_verdict L S (iter ord L) false σ Hret Hσ Hdom
                (iter_NoDup ord L)) as Hv.
  rewrite Hrun1 in Hv |- *. simpl in Hv.
  destruct v1 as [[]|e].
  - apply IH; [done|apply Hst1|by rewrite (step_dom _ _ _ _ _ _ Hst1)|].
    intros l X HX.
    destruct (step_below _ _ _ _ _ _ Hst1 _ _ HX) as (X0 & HX0 & Hsub0).
    etrans; [done|]. by eapply Hsub.
  - intros [= <- <-]. split; [done|]. by rewrite (step_dom _ _ _ _ _ _ Hst1).
  - exfalso. apply Hv; [|done]. intros l Hl. by apply iter_elem_of in Hl.
Qed.

End loops_return.

Section subtrees_facts.
Context {names : Str} `{Sympy}.

Lemma subtrees_root n : n ∈ subtrees n.
Proof. destruct n; by left. Qed.

Lemma bind_subtrees_trans (cs : list ast_inter.Node) node m :
  Forall (λ n, ∀ node m, node ∈ subtrees n → m ∈ subtrees node → m ∈ subtrees n) cs →
  node ∈ cs ≫= subtrees → m ∈ subtrees node → m ∈ cs ≫= subtrees.
Proof.
  intros Hall (c & Hnode & Hc)%list_elem_of_bind Hm.
  apply list_elem_of_bind. exists c. split; [|done].
  rewrite Forall_forall in Hall. by eapply Hall.
Qed.

Lemma subtrees_trans n : ∀ node m,
  node ∈ subtrees n → m ∈ subtrees node → m ∈ subtrees n.
Proof.
  induction n as
    [l cs IH|l mo acts IHm IH|l t p IH|l cs IH|l c p IH|l c p IH|l v|l|l c t|l|l|l]
    using Node_induction; intros node m; cbn [subtrees];
    intros [->|Hnode]%elem_of_cons Hm; try done; try (by apply elem_of_nil in Hnode);
    right.
  - by eapply bind_subtrees_trans.
  - apply elem_of_app in Hnode as [Hnode|Hnode]; apply elem_of_app.
    + left. by eapply IHm.
    + right. by eapply bind_subtrees_trans.
  - by eapply IH.
  - by eapply bind_subtrees_trans.
  - by eapply IH.
  - by eapply IH.
Qed.

End subtrees_facts.

(** The runs that do not ask the decision procedure. *)

Section cache_kept.
Context {names : Str} `{Sympy} (ord : SetOrder) (self : Refinement).

Lemma keeps_ret {A} (a : A) : keeps_cache (ret a).
Proof. done. Qed.

Lemma keeps_raise {A} e : keeps_cache (raise (A:=A) e).
Proof. done. Qed.

Lemma keeps_lift {A} (r : result A) : keeps_cache (lift r).
Proof. done. Qed.

Lemma keeps_log e : keeps_cache (log e).
Proof. done. Qed.

Lemma keeps_bind {A B} (m : M A) (f : A → M B) :
  keeps_cache m → (∀ a, keeps_cache (f a)) → keeps_cache (bind m f).
Proof.
  intros Hm Hf σ. unfold bind. specialize (Hm σ).
  destruct (m σ) as [σ1 [a|e]]; simpl in *; [|done].
  by rewrite Hf.
Qed.

Lemma keeps_refines statment node : keeps_cache (_refines self statment node).
Proof. intros σ. by destruct statment. Qed.

Lemma keeps_discard l s : keeps_cache (discard l s).
Proof. intros σ. unfold discard. by destruct (compat σ !! l). Qed.

Lemma keeps_next l : keeps_cache (nextStatement ord self l).
Proof.
  unfold nextStatement.
  apply keeps_bind; [apply keeps_log|]. intros _.
  apply keeps_bind; [apply keeps_lift|]. intros n.
  repeat case_decide; try apply keeps_ret.
  apply keeps_bind; [apply keeps_lift|]. intros ?. apply keeps_raise.
Qed.

Lemma keeps_any {A} (f : A → M bool) xs :
  (∀ x, keeps_cache (f x)) → keeps_cache (any f xs).
Proof.
  intros Hf. induction xs as [|x xs IH]; simpl; [apply keeps_ret|].
  apply keeps_bind; [done|]. intros []; [apply keeps_ret|done].
Qed.

Lemma keeps_all {A} (f : A → M bool) xs :
  (∀ x, keeps_cache (f x)) → keeps_cache (all f xs).
Proof.
  intros Hf. induction xs as [|x xs IH]; simpl; [apply keeps_ret|].
  apply keeps_bind; [done|]. intros []; [done|apply keeps_ret].
Qed.

Local Ltac keeps_step :=
  first
    [ apply keeps_ret | apply keeps_raise | apply keeps_lift
    | apply keeps_refines | apply keeps_next
    | apply keeps_bind; [|intros ?]
    | apply keeps_any; intros ?
    | apply keeps_all; intros ?
    | case_decide
    | match goal with
      | |- keeps_cache (if ?b then _ else _) => destruct b
      | |- keeps_cache (match ?x with _ => _ end) => destruct x
      end ].

Lemma keeps_bind_lift {A B} (r : result A) (f : A → M B) :
  (∀ a, r = Ok a → keeps_cache (f a)) → keeps_cache (bind (lift r) f).
Proof. intros Hf σ. unfold bind, lift. destruct r as [a|e]; [by apply Hf|done]. Qed.

Lemma compatible_keeps_cache l s :
  (∀ node, programLabels self !! l = Some node → never_asks node = true) →
  keeps_cache (compatible ord self l s).
Proof.
  intros Hl. unfold compatible.
  apply keeps_bind; [apply keeps_log|]. intros _.
  apply keeps_bind_lift. intros statment Hst.
  apply keeps_bind_lift. intros node _.
  assert (Hquiet : never_asks statment = true).
  { apply Hl. unfold getitem in Hst.
    by destruct (programLabels self !! l) as [?|]; simplify_eq. }
  clear Hl Hst.
  destruct statment; try discriminate Hquiet.
  all: try (apply bool_decide_eq_true in Hquiet; rewrite (decide_True _ _ Hquiet)).
  all: destruct node; repeat keeps_step.
Qed.

Lemma for_states_keeps_cache l states :
  (∀ node, programLabels self !! l = Some node → never_asks node = true) →
  ∀ changed, keeps_cache (for_states ord self l states changed).
Proof.
  intros Hl. induction states as [|s states IH]; intros changed; [apply keeps_ret|].
  simpl. apply keeps_bind; [by apply compatible_keeps_cache|].
  intros []; [apply IH|].
  apply keeps_bind; [apply keeps_log|]. intros _.
  apply keeps_bind; [apply keeps_discard|]. intros _. apply IH.
Qed.

Lemma for_labels_keeps_cache labels :
  (∀ l node, programLabels self !! l = Some node → never_asks node = true) →
  ∀ changed, keeps_cache (for_labels ord self labels changed).
Proof.
  intros Hall. induction labels as [|l labels IH]; intros changed; [apply keeps_ret|].
  simpl. apply keeps_bind; [done|]. intros X.
  apply keeps_bind; [apply for_states_keeps_cache, Hall|]. intros changed'. apply IH.
Qed.

Lemma while_changed_keeps_cache fuel allLabels :
  (∀ l node, programLabels self !! l = Some node → never_asks node = true) →
  ∀ σ σ' v,
    while_changed ord self fuel allLabels σ = Some (σ', v) →
    cachedImplication σ' = cachedImplication σ.
Proof.
  intros Hall. induction fuel as [|fuel IH]; intros σ σ' v; [done|].
  simpl. unfold pass.
  pose proof (for_labels_keeps_cache (iter ord allLabels) Hall false σ) as Hpass.
  destruct (for_labels ord self (iter ord allLabels) false σ) as [σ1 [[]|e]];
    simpl in *.
  - intros Hrun. by rewrite (IH _ _ _ Hrun).
  - by intros [= <- <-].
  - by intros [= <- <-].
Qed.

Lemma check_keeps_cache σ σ' v :
  (∀ l node, programLabels self !! l = Some node → never_asks node = true) →
  check ord self σ = Some (σ', v) →
  cachedImplication σ' = cachedImplication σ.
Proof.
  intros Hall. unfold check, check_fuel.
  destruct (while_changed _ _ _ _ _) as [[σ1 v1]|] eqn:Hrun; [|done].
  apply (while_changed_keeps_cache _ _ Hall) in Hrun. simpl in Hrun.
  destruct v1 as [[]|e].
  - unfold verdict, bind, getitem.
    by destruct (compat σ1 !! _) as [X|]; intros [= <- <-].
  - by intros [= <- <-].
Qed.

End cache_kept.

Section returns.
Context {names : Str} `{Sympy}.

Lemma sane_check ord self σ :
  sane self → ∃ σ' b, check ord self σ = Some (σ', Ok b).
Proof.
  intros Hsane.
  destruct (check_run ord self σ) as (σ' & v & evs & Hrun & _).
  rewrite Hrun. revert Hrun. unfold check, check_fuel.
  set (U := universal (dom (programLabels self)) (dom (state_to_node self))).
  destruct (while_changed ord self (budget self) (dom (programLabels self))
              (set_compat U σ)) as [[σ1 v1]|] eqn:Hloop; [|done].
  destruct (while_changed_verdict ord self (imp σ) (dom (programLabels self))
              (dom (state_to_node self)) (budget self) (set_compat U σ) σ1 v1)
    as [-> Hdom].
  - intros C l s HC Hl Hs. by apply compatible_on_verdict.
  - done.
  - apply dom_gset_to_gmap.
  - intros l X [_ ->]%universal_lookup. done.
  - exact Hloop.
  - unfold verdict, bind, getitem.
    assert (is_Some (compat σ1 !! ast_inter.get_label (program self))) as [X HX].
    { apply elem_of_dom. rewrite Hdom. apply (sane_root _ Hsane). }
    rewrite HX. intros [= <- <-]. eauto.
Qed.

Lemma init_with_sane program labs projection self :
  init_with program labs projection = Ok self →
  NoDup (labels program) →
  (∀ l node, labs !! l = Some node →
     node ∈ subtrees program ∧ ast_inter.get_label node = l) →
  (∀ l, l ∈ labels program → l ∈ dom labs) →
  (∀ node, node ∈ subtrees program → no_If node = true) →
  closed_projection (mk_state_to_node projection) →
  sane self.
Proof.
  intros Hinit Hnd Hlabs Hdom Hkinds Hclosed. unfold init_with in Hinit.
  apply rbind_ok in Hinit as ([nl' exits] & Hrun & [= <-]).
  destruct (buildCFA_sound program _ _ _ _ Hrun) as ([Hd Hext] & _ & _).
  destruct (buildCFA_linear program ∅ ((λ _, ∅) <$> labs) nl' exits) as [_ Hlin];
    [done|by intros p Hp%elem_of_empty| |done|].
  { intros l _ X. rewrite lookup_fmap. by destruct (labs !! l); intros [= <-]. }
  assert (Hchild : ∀ l node m, labs !! l = Some node → m ∈ subtrees node →
            ast_inter.get_label m ∈ dom labs).
  { intros l node m Hnode Hm. apply Hdom, subtrees_labels.
    destruct (Hlabs _ _ Hnode) as [Hsub _]. by eapply subtrees_trans. }
  split; simpl.
  - intros l node Hnode. apply Hkinds. by destruct (Hlabs _ _ Hnode).
  - intros l node Hnode Hkind. destruct (Hlabs _ _ Hnode) as [Hsub Hlbl].
    assert (is_Some (nl' !! l)) as [n Hn].
    { apply elem_of_dom. rewrite Hd, dom_fmap. by eapply elem_of_dom_2. }
    exists n. split_and!; [done| |].
    + subst l. apply (Hlin node Hsub); [by destruct node|done].
    + intros x Hx. destruct (Hext _ _ Hn) as (X0 & HX0 & _ & Hnew).
      rewrite lookup_fmap, Hnode in HX0. simplify_eq/=.
      destruct (Hnew x Hx) as [Hin|?]; [by apply elem_of_empty in Hin|by apply Hdom].
  - intros l lbl c body Hnode. eapply Hchild; [done|].
    right. apply subtrees_root.
  - intros l lbl motion actions Hnode. split.
    + eapply Hchild; [done|]. right. apply elem_of_app. left. apply subtrees_root.
    + intros a Ha. eapply Hchild; [done|]. right. apply elem_of_app. right.
      apply list_elem_of_bind. exists a. split; [apply subtrees_root|done].
  - done.
  - apply Hdom, labels_root.
Qed.

Lemma never_asks_no_If node : never_asks node = true → no_If node = true.
Proof. by destruct node. Qed.

(** X19.  For an instance built by [__init__] from a program without
    [If] whose loops are all under the literal [S.true], with pairwise
    distinct labels and a table that maps each label to the node
    carrying it, against a projection whose nodes name states of the
    projection and have the motions and end states they are asked for,
    every run of [check] returns a verdict, whatever the visiting order
    and the store: no line of [compatible] raises, and the decision
    procedure is not asked, the cache being left as it was found. *)
Theorem check_returns_verdict program labs projection self :
  init_with program labs projection = Ok self →
  NoDup (labels program) →
  (∀ l node, labs !! l = Some node →
     node ∈ subtrees program ∧ ast_inter.get_label node = l) →
  (∀ l, l ∈ labels program → l ∈ dom labs) →
  (∀ node, node ∈ subtrees program → never_asks node = true) →
  closed_projection (mk_state_to_node projection) →
  ∀ ord σ, ∃ σ' b,
    check ord self σ = Some (σ', Ok b) ∧
    cachedImplication σ' = cachedImplication σ.
Proof.
  intros Hinit Hnd Hlabs Hdom Hkinds Hclosed ord σ.
  destruct (sane_check ord self σ) as (σ' & b & Hrun).
  { eapply init_with_sane; try done.
    intros node Hnode. by apply never_asks_no_If, Hkinds. }
  exists σ', b. split; [done|].
  apply (check_keeps_cache ord self σ σ' (Ok b)); [|done].
  intros l node Hnode. apply Hkinds.
  unfold init_with in Hinit. apply rbind_ok in Hinit as ([nl' exits] & _ & [= <-]).
  simpl in Hnode. by destruct (Hlabs _ _ Hnode).
Qed.

End returns.

Lemma forever_refinement_built :
  init_with forever_program (label_as_root forever_program)
    (loop_projection x_holds x_fails) = Ok forever_refinement.
Proof. vm_compute. reflexivity. Qed.

Lemma forever_labels_distinct : NoDup (labels forever_program).
Proof. apply (bool_decide_unpack _). vm_compute. exact I. Qed.

Lemma forever_labels_keys l :
  l ∈ labels forever_program → l ∈ dom (label_as_root forever_program).
Proof.
  change (labels forever_program) with [0; 1; 2; 3].
  intros Hl. apply elem_of_dom.
  repeat (apply elem_of_cons in Hl as [->|Hl]; [eexists; vm_compute; reflexivity|]).
  by apply elem_of_nil in Hl.
Qed.

Lemma forever_program_never_asks node :
  node ∈ subtrees forever_program → never_asks node = true.
Proof. revert node. apply Forall_forall. vm_compute. repeat constructor. Qed.

Lemma loop_projection_closed :
  closed_projection (mk_state_to_node (loop_projection x_holds x_fails)).
Proof. apply (bool_decide_unpack _). vm_compute. exact I. Qed.

Example forever_refines :
  snd <$> check ascending forever_refinement fresh = Some (Ok true) ∧
  programLabels forever_refinement !! 1
    = Some (ast_inter.While 1 S_true (ast_inter.Skip 2)).
Proof. split; vm_compute; reflexivity. Qed.

(** X19, at a loop under [S.true] against a guarded choice. *)
Lemma check_returns_verdict_witness :
  init_with forever_program (label_as_root forever_program)
    (loop_projection x_holds x_fails) = Ok forever_refinement ∧
  NoDup (labels forever_program) ∧
  (∀ l node, label_as_root forever_program !! l = Some node →
     node ∈ subtrees forever_program ∧ ast_inter.get_label node = l) ∧
  (∀ l, l ∈ labels forever_program → l ∈ dom (label_as_root forever_program)) ∧
  (∀ node, node ∈ subtrees forever_program → never_asks node = true) ∧
  closed_projection (mk_state_to_node (loop_projection x_holds x_fails)) ∧
  ∀ ord σ, ∃ σ' b,
    check ord forever_refinement σ = Some (σ', Ok b) ∧
    cachedImplication σ' = cachedImplication σ.
Proof.
  split_and!;
    [apply forever_refinement_built|apply forever_labels_distinct
    |apply label_as_root_sound|apply forever_labels_keys
    |apply forever_program_never_asks|apply loop_projection_closed|].
  apply (check_returns_verdict forever_program (label_as_root forever_program)
           (loop_projection x_holds x_fails) forever_refinement
           forever_refinement_built forever_labels_distinct
           (label_as_root_sound forever_program) forever_labels_keys
           forever_program_never_asks loop_projection_closed).
Defined.

(** * Two bounds on the relation found *)

Section bounds.
Context {names : Str} `{Sympy} (ord : SetOrder) (self : Refinement).

(** X20.  The relation that [check] ends with lies between two relations
    that one call of [compatible] per pair decides: it holds every pair
    that passes when no label is related to any state, and only pairs
    that pass when every label is related to every state. *)
Theorem check_between_bounds σ σ' b :
  check ord self σ = Some (σ', Ok b) →
  (∀ l s, l ∈ dom (programLabels self) → s ∈ dom (state_to_node self) →
     (compatible ord self l s
        (set_compat (universal (dom (programLabels self)) ∅) σ)).2 = Ok true →
     ∃ X, compat σ' !! l = Some X ∧ s ∈ X) ∧
  (∀ l X s, compat σ' !! l = Some X → s ∈ X →
     (compatible ord self l s
        (set_compat (universal (dom (programLabels self))
                       (dom (state_to_node self))) σ)).2 = Ok true).
Proof.
  intros Hcheck.
  destruct (check_run ord self σ) as (σ1 & v & evs & Hrun & Hst & _ & Hv).
  rewrite Hcheck in Hrun. simplify_eq.
  destruct (Hv b eq_refl) as (Hclosed & _).
  set (L := dom (programLabels self)) in *.
  set (S := dom (state_to_node self)) in *.
  split.
  - intros l s Hl Hs Hyes.
    apply (holds_on ord self (imp σ) σ (universal L ∅) l s) in Hyes; [|done].
    set (R := <[l := {[s]}]> (universal L ∅)).
    assert (Hbelow : below (universal L ∅) R).
    { intros k Y [Hk ->]%universal_lookup. unfold R.
      destruct (decide (l = k)) as [<-|Hne].
      - rewrite lookup_insert_eq. eexists. split; [done|]. apply empty_subseteq.
      - rewrite lookup_insert_ne by done. exists ∅. split; [|done].
        by apply universal_lookup. }
    assert (HR : closed_on ord self (imp σ) R).
    { intros k Y s' HY Hs'. unfold R in HY.
      destruct (decide (l = k)) as [<-|Hne].
      - rewrite lookup_insert_eq in HY. simplify_eq.
        apply elem_of_singleton in Hs' as ->.
        by apply (compatible_on_mono ord self _ (universal L ∅)).
      - rewrite lookup_insert_ne in HY by done.
        apply universal_lookup in HY as [_ ->]. by apply elem_of_empty in Hs'. }
    assert (HRU : below R (universal L S)).
    { intros k Y HY. exists S. unfold R in HY.
      destruct (decide (l = k)) as [<-|Hne].
      - rewrite lookup_insert_eq in HY. simplify_eq.
        split; [by apply universal_lookup|]. by apply singleton_subseteq_l.
      - rewrite lookup_insert_ne in HY by done.
        apply universal_lookup in HY as [Hk ->].
        split; [by apply universal_lookup|]. apply empty_subseteq. }
    destruct (step_closed _ _ _ _ _ _ Hst R HR HRU l {[s]}) as (X & HX & Hsub).
    { unfold R. by rewrite lookup_insert_eq. }
    exists X. split; [done|]. by apply Hsub, elem_of_singleton.
  - intros l X s HX Hs.
    apply (holds_on ord self (imp σ) σ (universal L S) l s); [done|].
    apply (compatible_on_mono ord self _ (compat σ1)).
    + apply (step_below _ _ _ _ _ _ Hst).
    + by eapply Hclosed.
Qed.

End bounds.

(** X20, at [receive_program]. *)
Lemma check_between_bounds_witness :
  ∃ σ',
    check ascending receive_refinement fresh = Some (σ', Ok true) ∧
    (∀ l s, l ∈ dom (programLabels receive_refinement) →
       s ∈ dom (state_to_node receive_refinement) →
       (compatible ascending receive_refinement l s
          (set_compat (universal (dom (programLabels receive_refinement)) ∅)
             fresh)).2 = Ok true →
       ∃ X, compat σ' !! l = Some X ∧ s ∈ X) ∧
    (∀ l X s, compat σ' !! l = Some X → s ∈ X →
       (compatible ascending receive_refinement l s
          (set_compat (universal (dom (programLabels receive_refinement))
                         (dom (state_to_node receive_refinement))) fresh)).2
       = Ok true).
Proof.
  destruct (check ascending receive_refinement fresh) as [[σ' v]|] eqn:Hrun;
    [|vm_compute in Hrun; discriminate].
  assert (v = Ok true) as ->.
  { assert (snd <$> check ascending receive_refinement fresh = Some (Ok true)) as Hv
      by (vm_compute; reflexivity).
    rewrite Hrun in Hv. by injection Hv. }
  exists σ'. split; [done|].
  apply (check_between_bounds ascending receive_refinement fresh σ' true Hrun).
Defined.
